(** * FJSSP-SLGA: a self-learning genetic algorithm for flexible job-shop
      scheduling

    Shallow embedding of the decoder ([src/genetic/decoding.py]), the genetic
    operators ([src/genetic/genetic.py]), the encoding
    ([src/genetic/encoding.py]), the parser ([src/utils/parser.py]), the
    data-dependent part of the chart ([src/utils/gantt.py]) and the
    reinforcement-learning part and loop control of the driver
    ([src/main.py], [src/genetic/termination.py]), with the properties of
    the specification checked against them.

    Python integers are unbounded, so they are [Z].  Python lists are [list];
    subscripting follows Python (negative subscripts count from the end,
    anything else out of range raises [IndexError]).  A function that can
    raise returns a value of [res].  Random choices are read from a tape of
    draws.  The lists that an operator may write to live in a store and are
    passed by location; a loop that the source does not bound takes fuel.
    Floating-point numbers (probabilities, rewards, Q-values) are rationals.

    The file has three parts: the embedding of the source, the vocabulary
    of the properties, and the lemmas and theorems. *)

From Stdlib Require Import ZArith QArith Qround Lia List Ascii Permutation.
From stdpp Require Import base list strings pretty.

Local Open Scope Z_scope.

(** * Part I: the program *)

(** ** Exceptions and Python list primitives *)

Inductive exn : Type :=
  | IndexError
  | TypeError
  | ValueError
  | ZeroDivisionError
  | SystemError.

Inductive res (A : Type) : Type :=
  | Ok (a : A)
  | Raise (e : exn).
Arguments Ok {A} a.
Arguments Raise {A} e.

Definition bind {A B} (m : res A) (f : A -> res B) : res B :=
  match m with
  | Ok a => f a
  | Raise e => Raise e
  end.

Notation "x <- m ;; k" := (bind m (fun x => k))
  (at level 100, m at next level, right associativity).

(** [l[i]] position: [0 <= i < n] is itself, [-n <= i < 0] counts from the
    end, everything else is out of range. *)
Definition py_index (n : nat) (i : Z) : res nat :=
  if (0 <=? i) && (i <? Z.of_nat n) then Ok (Z.to_nat i)
  else if (- Z.of_nat n <=? i) && (i <? 0) then Ok (Z.to_nat (Z.of_nat n + i))
  else Raise IndexError.

(** [l[i]] *)
Definition getitem {A} (l : list A) (i : Z) : res A :=
  k <- py_index (length l) i ;;
  match l !! k with
  | Some x => Ok x
  | None => Raise IndexError
  end.

(** [l[i] = x] *)
Definition setitem {A} (l : list A) (i : Z) (x : A) : res (list A) :=
  k <- py_index (length l) i ;;
  Ok (<[k := x]> l).

(** [range(a, b)] *)
Definition range (a b : Z) : list Z := seqZ a (b - a).

(** ** The instance ([utils/parser.py] builds it) *)

(** [{'machine': m, 'processingTime': t}] *)
Record MachineOption : Type := mkOption {
  machine : Z;
  processingTime : Z
}.

Abbreviation Operation := (list MachineOption).
Abbreviation Job := (list Operation).

(** [{'machinesNb': M, 'jobs': jobs}] *)
Record Instance : Type := mkInstance {
  machinesNb : Z;
  jobs : list Job
}.

(** ** Decoder ([src/genetic/decoding.py]) *)

(** A placed operation: the tuple [(name_task, prcTime, start_cstr, start)];
    the source reads [job[1]] (processing time) and [job[3]] (start). *)
Record task : Type := mkTask {
  t_name : string;
  t_dur : Z;
  t_cstr : Z;
  t_start : Z
}.

Definition t_end (t : task) : Z := t_start t + t_dur t.

(** [split_ms]: [ms[current:current+len(job)]] for each job; [current] is
    never negative, so the slice is [take] after [drop]. *)
Fixpoint split_ms_from (js : list Job) (ms : list Z) (current : nat)
  : list (list Z) :=
  match js with
  | [] => []
  | job :: rest =>
      take (length job) (drop current ms)
        :: split_ms_from rest ms (current + length job)
  end.

Definition split_ms (pb_instance : Instance) (ms : list Z) : list (list Z) :=
  split_ms_from (jobs pb_instance) ms 0.

(** [is_free]: the loop over [range(start, start+duration)]; [tab[k]] may
    raise. *)
Fixpoint is_free_loop (tab : list bool) (ks : list Z) : res bool :=
  match ks with
  | [] => Ok true
  | k :: ks' =>
      b <- getitem tab k ;;
      if b then is_free_loop tab ks' else Ok false
  end.

Definition is_free (tab : list bool) (start duration : Z) : res bool :=
  is_free_loop tab (range start (start + duration)).

(** [for k in range(start, start + long): machine_used[k] = False] *)
Fixpoint mark_used (tab : list bool) (ks : list Z) : res (list bool) :=
  match ks with
  | [] => Ok tab
  | k :: ks' =>
      tab' <- setitem tab k false ;;
      mark_used tab' ks'
  end.

(** The outer loop over [machine_jobs]. *)
Fixpoint mark_jobs (tab : list bool) (machine_jobs : list task)
  : res (list bool) :=
  match machine_jobs with
  | [] => Ok tab
  | job :: rest =>
      tab' <- mark_used tab (range (t_start job) (t_start job + t_dur job)) ;;
      mark_jobs tab' rest
  end.

(** The final search loop; falling off its end returns Python's [None]. *)
Fixpoint first_free (tab : list bool) (ks : list Z) (duration : Z)
  : res (option Z) :=
  match ks with
  | [] => Ok None
  | k :: ks' =>
      b <- is_free tab k duration ;;
      if b then Ok (Some k) else first_free tab ks' duration
  end.

(** [max(max_duration_list)] on the list of end times, [e] its first
    element. *)
Definition max_list (e : Z) (es : list Z) : Z := foldl Z.max e es.

Definition max_duration_of (start_ctr duration : Z) (machine_jobs : list task)
  : Z :=
  match map t_end machine_jobs with
  | [] => start_ctr + duration
  | e :: es => Z.max (max_list e es) start_ctr + duration
  end.

Definition find_first_available_place
    (start_ctr duration : Z) (machine_jobs : list task) : res (option Z) :=
  let max_duration := max_duration_of start_ctr duration machine_jobs in
  let machine_used := replicate (Z.to_nat max_duration) true in
  machine_used <- mark_jobs machine_used machine_jobs ;;
  first_free machine_used
    (range start_ctr (Z.of_nat (length machine_used))) duration.

(** ["OP_{}-{}".format(job + 1, indexes[job] + 1)] *)
Definition name_task (job idx : Z) : string :=
  "OP_" +:+ pretty (job + 1) +:+ "-" +:+ pretty (idx + 1).

(** The three lists the loop of [decode] updates. *)
Record dstate : Type := mkDstate {
  machine_operations : list (list task);
  indexes : list Z;
  start_task_cstr : list Z
}.

(** One iteration of [for job in os]. *)
Definition decode_step (o : list Job) (ms_s : list (list Z))
    (st : dstate) (job : Z) : res dstate :=
  ms_job <- getitem ms_s job ;;
  idx <- getitem (indexes st) job ;;
  index_machine <- getitem ms_job idx ;;
  o_job <- getitem o job ;;
  op <- getitem o_job idx ;;
  opt <- getitem op index_machine ;;
  let machine := machine opt in
  let prcTime := processingTime opt in
  start_cstr <- getitem (start_task_cstr st) job ;;
  machine_jobs <- getitem (machine_operations st) (machine - 1) ;;
  found <- find_first_available_place start_cstr prcTime machine_jobs ;;
  match found with
  | None =>
      (* [start + prcTime] with [start = None] *)
      Raise TypeError
  | Some start =>
      mo' <- setitem (machine_operations st) (machine - 1)
              (machine_jobs ++ [mkTask (name_task job idx) prcTime start_cstr start]) ;;
      indexes' <- setitem (indexes st) job (idx + 1) ;;
      cstr' <- setitem (start_task_cstr st) job (start + prcTime) ;;
      Ok (mkDstate mo' indexes' cstr')
  end.

Fixpoint decode_loop (o : list Job) (ms_s : list (list Z))
    (os : list Z) (st : dstate) : res dstate :=
  match os with
  | [] => Ok st
  | job :: os' =>
      st' <- decode_step o ms_s st job ;;
      decode_loop o ms_s os' st'
  end.

Definition decode_init (pb_instance : Instance) (ms : list Z) : dstate :=
  let ms_s := split_ms pb_instance ms in
  mkDstate (replicate (Z.to_nat (machinesNb pb_instance)) [])
           (replicate (length ms_s) 0)
           (replicate (length ms_s) 0).

Definition decode (pb_instance : Instance) (os ms : list Z)
  : res (list (list task)) :=
  st <- decode_loop (jobs pb_instance) (split_ms pb_instance ms) os
         (decode_init pb_instance ms) ;;
  Ok (machine_operations st).

(** [translate_decoded_to_gantt]: per machine, in list order, the triples
    [[start, start + prcTime, name]] under the key ["Machine-{idx+1}"]. *)
Definition gantt_row (machine : list task) : list (Z * Z * string) :=
  map (fun operation =>
         (t_start operation, t_start operation + t_dur operation,
          t_name operation)) machine.

Definition translate_decoded_to_gantt (machine_operations : list (list task))
  : list (string * list (Z * Z * string)) :=
  imap (fun idx machine =>
          ("Machine-" +:+ pretty (Z.of_nat idx + 1), gantt_row machine))
       machine_operations.

(** [timeTaken] ([src/genetic/genetic.py]): the largest end time. *)
Definition max_end (machine : list task) : Z :=
  foldl (fun max_d job => if max_d <? t_end job then t_end job else max_d)
        0 machine.

Definition timeTaken (pb_instance : Instance) (os_ms : list Z * list Z) : res Z :=
  decoded <- decode pb_instance os_ms.1 os_ms.2 ;;
  match map max_end decoded with
  | [] => Raise ValueError
  | e :: es => Ok (max_list e es)
  end.

(** ** Random choices and the store of mutable lists *)

(** Locations of the lists that the operators may write to. *)
Abbreviation loc := nat.

(** The random source is a tape of draws; the store holds the MS lists,
    which [halfMutation] writes to. *)
Record world : Type := mkWorld {
  heap : list (list Z);
  tape : nat -> Z
}.

Definition M (A : Type) : Type := world -> res (A * world).

Definition pure {A} (a : A) : M A := fun w => Ok (a, w).

Definition raise {A} (e : exn) : M A := fun _ => Raise e.

Definition then_ {A B} (m : M A) (f : A -> M B) : M B := fun w =>
  match m w with
  | Ok (a, w') => f a w'
  | Raise e => Raise e
  end.

Definition lift {A} (r : res A) : M A := fun w =>
  match r with
  | Ok a => Ok (a, w)
  | Raise e => Raise e
  end.

Notation "x <~ m ;; k" := (then_ m (fun x => k))
  (at level 100, m at next level, right associativity).

(** [len(l)] *)
Definition len {A} (l : list A) : Z := Z.of_nat (length l).

(** The next draw of the generator. *)
Definition draw : M Z := fun w =>
  Ok (tape w 0%nat, mkWorld (heap w) (fun n => tape w (S n))).

(** [random.randint(a, b)]: an integer of [[a, b]]; an empty range raises. *)
Definition randint (a b : Z) : M Z :=
  if b <? a then raise ValueError
  else d <~ draw ;; pure (a + d mod (b - a + 1)).

(** [random.choice(seq)] *)
Definition choice {A} (seq : list A) : M A :=
  match seq with
  | [] => raise IndexError
  | _ => d <~ draw ;; lift (getitem seq (d mod len seq))
  end.

(** [random.random()]: 53 random bits over [2^53], a number of [[0, 1)]. *)
Definition random : M Q :=
  d <~ draw ;; pure (d mod 2 ^ 53 # 2 ^ 53).

(** [random.sample(population, k)]: [k] elements at distinct positions,
    picked from a pool that shrinks by one at each pick. *)
Fixpoint sample_loop {A} (k : nat) (pool : list A) (n : Z) : M (list A) :=
  match k with
  | O => pure []
  | S k' =>
      j <~ randint 0 (n - 1) ;;
      x <~ lift (getitem pool j) ;;
      y <~ lift (getitem pool (n - 1)) ;;
      pool' <~ lift (setitem pool j y) ;;
      rest <~ sample_loop k' pool' (n - 1) ;;
      pure (x :: rest)
  end.

Definition sample {A} (population : list A) (k : Z) : M (list A) :=
  if (k <? 0) || (len population <? k) then raise ValueError
  else sample_loop (Z.to_nat k) population (len population).

(** ** Genetic operators ([src/genetic/genetic.py]) *)

(** [e in l] *)
Definition py_in (e : Z) (l : list Z) : bool := bool_decide (e ∈ l).

(** [l[a:b]] for [0 <= a <= b]. *)
Definition slice {A} (l : list A) (a b : Z) : list A :=
  take (Z.to_nat (b - a)) (drop (Z.to_nat a) l).

(** First loops of POX: elements of [jobset1] stay, the others leave a hole
    [-1] and go to the kept list. *)
Fixpoint pox_scan (p jobset1 : list Z) : list Z * list Z :=
  match p with
  | [] => ([], [])
  | e :: p' =>
      let '(o, pkept) := pox_scan p' jobset1 in
      if py_in e jobset1 then (e :: o, pkept) else (-1 :: o, e :: pkept)
  end.

(** First loops of JBX: elements of the job set stay and are also kept. *)
Fixpoint jbx_scan (p jobset : list Z) : list Z * list Z :=
  match p with
  | [] => ([], [])
  | e :: p' =>
      let '(o, pkept) := jbx_scan p' jobset in
      if py_in e jobset then (e :: o, e :: pkept) else (-1 :: o, pkept)
  end.

(** [for i in range(len(o)): if o[i] == -1: o[i] = kept.pop(0)] *)
Fixpoint fill (o kept : list Z) : res (list Z) :=
  match o with
  | [] => Ok []
  | e :: o' =>
      if e =? -1 then
        match kept with
        | [] => Raise IndexError
        | x :: kept' => r <- fill o' kept' ;; Ok (x :: r)
        end
      else r <- fill o' kept ;; Ok (e :: r)
  end.

(** POX once [jobset1] is drawn. *)
Definition pox_offspring (jobset1 p1 p2 : list Z) : res (list Z * list Z) :=
  let '(o1, p1kept) := pox_scan p1 jobset1 in
  let '(o2, p2kept) := pox_scan p2 jobset1 in
  o1' <- fill o1 p2kept ;;
  o2' <- fill o2 p1kept ;;
  Ok (o1', o2').

Definition precedenceOperationCrossover (p1 p2 : list Z) (parameters : Instance)
  : M (list Z * list Z) :=
  let jobNumber := len (jobs parameters) in
  let jobsRange := range 1 (jobNumber + 1) in
  sizeJobset1 <~ randint 0 jobNumber ;;
  jobset1 <~ sample jobsRange sizeJobset1 ;;
  lift (pox_offspring jobset1 p1 p2).

(** JBX once [jobset1] is drawn. *)
Definition jbx_offspring (jobsRange jobset1 p1 p2 : list Z)
  : res (list Z * list Z) :=
  let jobset2 := filter (fun item => py_in item jobset1 = false) jobsRange in
  let '(o1, p1kept) := jbx_scan p1 jobset1 in
  let '(o2, p2kept) := jbx_scan p2 jobset2 in
  o1' <- fill o1 p2kept ;;
  o2' <- fill o2 p1kept ;;
  Ok (o1', o2').

Definition jobBasedCrossover (p1 p2 : list Z) (parameters : Instance)
  : M (list Z * list Z) :=
  let jobNumber := len (jobs parameters) in
  let jobsRange := range 0 jobNumber in
  sizeJobset1 <~ randint 0 jobNumber ;;
  jobset1 <~ sample jobsRange sizeJobset1 ;;
  lift (jbx_offspring jobsRange jobset1 p1 p2).

Definition twoPointCrossover (p1 p2 : list Z) : M (list Z * list Z) :=
  pos1 <~ randint 0 (len p1 - 1) ;;
  pos2 <~ randint 0 (len p1 - 1) ;;
  let '(pos1, pos2) := if pos2 <? pos1 then (pos2, pos1) else (pos1, pos2) in
  let offspring1 :=
    if pos1 =? pos2 then p1
    else slice p1 0 pos1 ++ slice p2 pos1 pos2 ++ drop (Z.to_nat pos2) p1 in
  let offspring2 :=
    if pos1 =? pos2 then p2
    else slice p2 0 pos1 ++ slice p1 pos1 pos2 ++ drop (Z.to_nat pos2) p2 in
  pure (offspring1, offspring2).

Definition crossoverOS (p1 p2 : list Z) (parameters : Instance)
  : M (list Z * list Z) :=
  b <~ choice [true; false] ;;
  if b then precedenceOperationCrossover p1 p2 parameters
  else jobBasedCrossover p1 p2 parameters.

Definition crossoverMS (p1 p2 : list Z) : M (list Z * list Z) :=
  twoPointCrossover p1 p2.

(** A chromosome whose sequences are values (selection and crossover never
    write to a list they are given). *)
Abbreviation chromosome := (list Z * list Z)%type.

(** [crossover]: [i] advances by two, so the loop walks the population in
    pairs; [population[i+1]] raises when the last pair has no partner. *)
Fixpoint crossover (population : list chromosome) (parameters : Instance)
    (pc : Q) : M (list chromosome) :=
  match population with
  | [] => pure []
  | [_] => raise IndexError
  | (OS1, MS1) :: (OS2, MS2) :: rest =>
      r <~ random ;;
      pair <~ (if Qlt_le_dec r pc then
                 oOS <~ crossoverOS OS1 OS2 parameters ;;
                 oMS <~ crossoverMS MS1 MS2 ;;
                 pure [(oOS.1, oMS.1); (oOS.2, oMS.2)]
               else pure [(OS1, MS1); (OS2, MS2)]) ;;
      newPop <~ crossover rest parameters pc ;;
      pure (pair ++ newPop)
  end.

(** Computations with a [while] loop take fuel: one unit per iteration,
    [None] when the fuel is used up before the loop exits. *)
Definition F (A : Type) : Type := world -> option (res (A * world)).

Definition thenF {A B} (m : F A) (f : A -> F B) : F B := fun w =>
  match m w with
  | None => None
  | Some (Raise e) => Some (Raise e)
  | Some (Ok (a, w')) => f a w'
  end.

Definition liftM {A} (m : M A) : F A := fun w => Some (m w).

Notation "x <~~ m ;; k" := (thenF m (fun x => k))
  (at level 100, m at next level, right associativity).

Definition swappingMutation (p : list Z) : M (list Z) :=
  pos1 <~ randint 0 (len p - 1) ;;
  pos2 <~ randint 0 (len p - 1) ;;
  if pos1 =? pos2 then pure p
  else
    let '(pos1, pos2) := if pos2 <? pos1 then (pos2, pos1) else (pos1, pos2) in
    e2 <~ lift (getitem p pos2) ;;
    e1 <~ lift (getitem p pos1) ;;
    pure (slice p 0 pos1 ++ [e2] ++ slice p (pos1 + 1) pos2 ++ [e1]
            ++ drop (Z.to_nat (pos2 + 1)) p).

(** [while again(pos): pos = random.randint(0, len(p) - 1)] *)
Fixpoint resample (fuel : nat) (p : list Z) (again : Z -> res bool) (pos : Z)
  : F Z := fun w =>
  match again pos with
  | Raise e => Some (Raise e)
  | Ok false => Some (Ok (pos, w))
  | Ok true =>
      match fuel with
      | O => None
      | S fuel' =>
          match randint 0 (len p - 1) w with
          | Raise e => Some (Raise e)
          | Ok (pos', w') => resample fuel' p again pos' w'
          end
      end
  end.

(** [p[pos2] == p[pos1]] *)
Definition same_value (p : list Z) (pos1 pos2 : Z) : res bool :=
  a <- getitem p pos2 ;;
  b <- getitem p pos1 ;;
  Ok (a =? b).

(** [p[pos3] == p[pos2] or p[pos3] == p[pos1]] *)
Definition same_as_either (p : list Z) (pos1 pos2 pos3 : Z) : res bool :=
  a <- getitem p pos3 ;;
  b <- getitem p pos2 ;;
  if a =? b then Ok true
  else a' <- getitem p pos3 ;; c <- getitem p pos1 ;; Ok (a' =? c).

(** [sorted] on integers, and with a key: the stable sort. *)
Fixpoint insert_key {A} (k : Z) (x : A) (l : list (Z * A)) : list (Z * A) :=
  match l with
  | [] => [(k, x)]
  | (k', y) :: l' =>
      if k <=? k' then (k, x) :: (k', y) :: l' else (k', y) :: insert_key k x l'
  end.

Definition sort_keyed {A} (l : list (Z * A)) : list (Z * A) :=
  foldr (fun kx acc => insert_key kx.1 kx.2 acc) [] l.

Definition sorted_ints (l : list Z) : list Z :=
  map snd (sort_keyed (map (fun x => (x, x)) l)).

(** [list(itertools.permutations([e1, e2, e3]))] *)
Definition permutations3 (e1 e2 e3 : Z) : list (list Z) :=
  [[e1; e2; e3]; [e1; e3; e2]; [e2; e1; e3];
   [e2; e3; e1]; [e3; e1; e2]; [e3; e2; e1]].

(** What [neighborhoodMutation] does after its two [while] loops. *)
Definition neighborhood_build (p : list Z) (pos1 pos2 pos3 : Z) : M (list Z) :=
  let sortedPositions := sorted_ints [pos1; pos2; pos3] in
  pos1 <~ lift (getitem sortedPositions 0) ;;
  pos2 <~ lift (getitem sortedPositions 1) ;;
  pos3 <~ lift (getitem sortedPositions 2) ;;
  e1 <~ lift (getitem p pos1) ;;
  e2 <~ lift (getitem p pos2) ;;
  e3 <~ lift (getitem p pos3) ;;
  permutation <~ choice (permutations3 e1 e2 e3) ;;
  x0 <~ lift (getitem permutation 0) ;;
  x1 <~ lift (getitem permutation 1) ;;
  x2 <~ lift (getitem permutation 2) ;;
  pure (slice p 0 pos1 ++ [x0] ++ slice p (pos1 + 1) pos2 ++ [x1]
          ++ slice p (pos2 + 1) pos3 ++ [x2] ++ drop (Z.to_nat (pos3 + 1)) p).

Definition neighborhoodMutation (fuel : nat) (p : list Z) : F (list Z) :=
  pos1 <~~ liftM (randint 0 (len p - 1)) ;;
  pos2 <~~ resample fuel p (same_value p pos1) pos1 ;;
  pos3 <~~ resample fuel p (same_as_either p pos1 pos2) pos1 ;;
  liftM (neighborhood_build p pos1 pos2 pos3).

Definition mutationOS (fuel : nat) (p : list Z) : F (list Z) :=
  b <~~ liftM (choice [true; false]) ;;
  if b then liftM (swappingMutation p) else neighborhoodMutation fuel p.

(** The list at a location; a location outside the store does not occur. *)
Definition read (l : loc) : M (list Z) := fun w =>
  match heap w !! l with
  | Some v => Ok (v, w)
  | None => Raise SystemError
  end.

(** [o[i] = x] on the list at location [o]. *)
Definition write_at (o : loc) (i x : Z) : M unit := fun w =>
  match heap w !! o with
  | Some v =>
      match setitem v i x with
      | Ok v' => Ok (tt, mkWorld (<[o := v']> (heap w)) (tape w))
      | Raise e => Raise e
      end
  | None => Raise SystemError
  end.

(** [for op in job: ...; i = i + 1] *)
Fixpoint half_job (o : loc) (positions : list Z) (job : Job) (i : Z) : M Z :=
  match job with
  | [] => pure i
  | op :: job' =>
      _ <~ (if py_in i positions then
              x <~ randint 0 (len op - 1) ;; write_at o i x
            else pure tt) ;;
      half_job o positions job' (i + 1)
  end.

(** [for job in jobs: ...] *)
Fixpoint half_jobs (o : loc) (positions : list Z) (js : list Job) (i : Z)
  : M Z :=
  match js with
  | [] => pure i
  | job :: rest =>
      i' <~ half_job o positions job i ;;
      half_jobs o positions rest i'
  end.

(** [halfMutation]: [o = p] binds a second name to the same list.
    [int(size/2)] is the integer quotient. *)
Definition halfMutation (p : loc) (parameters : Instance) : M loc :=
  let o := p in
  v <~ read p ;;
  let size := len v in
  let r := size / 2 in
  positions <~ sample (range 0 size) r ;;
  _ <~ half_jobs o positions (jobs parameters) 0 ;;
  pure o.

Definition mutationMS (p : loc) (parameters : Instance) : M loc :=
  halfMutation p parameters.

(** A chromosome of the population that [mutation] receives: the OS by
    value, the MS by the location of its list. *)
Abbreviation individual := (list Z * loc)%type.

Fixpoint mutation (fuel : nat) (population : list individual)
    (parameters : Instance) (pm : Q) : F (list individual) :=
  match population with
  | [] => liftM (pure [])
  | (OS, MS) :: rest =>
      r <~~ liftM random ;;
      ind <~~ (if Qlt_le_dec r pm then
                 oOS <~~ mutationOS fuel OS ;;
                 oMS <~~ liftM (mutationMS MS parameters) ;;
                 liftM (pure (oOS, oMS))
               else liftM (pure (OS, MS))) ;;
      newPop <~~ mutation fuel rest parameters pm ;;
      liftM (pure (ind :: newPop))
  end.

(** ** Selection *)

(** [int(x)]: truncation towards zero. *)
Definition py_int (x : Q) : Z :=
  if Qle_bool 0 x then Qfloor x else Qceiling x.

(** [l[:k]] *)
Definition slice_to {A} (l : list A) (k : Z) : list A :=
  if 0 <=? k then take (Z.to_nat k) l else take (Z.to_nat (len l + k)) l.

(** The keys of [sorted(population, key=...)], computed in order. *)
Fixpoint with_keys {A} (key : A -> res Z) (l : list A) : res (list (Z * A)) :=
  match l with
  | [] => Ok []
  | x :: l' =>
      k <- key x ;;
      r <- with_keys key l' ;;
      Ok ((k, x) :: r)
  end.

Definition sorted_by {A} (key : A -> res Z) (l : list A) : res (list A) :=
  kl <- with_keys key l ;;
  Ok (map snd (sort_keyed kl)).

Definition elitistSelection (pr : Q) (population : list chromosome)
    (parameters : Instance) : res (list chromosome) :=
  let keptPopSize := py_int (pr * inject_Z (len population)) in
  sortedPop <- sorted_by (timeTaken parameters) population ;;
  Ok (slice_to sortedPop keptPopSize).

(** [min] of the two drawn individuals: the first one unless the second is
    strictly better. *)
Definition tournamentSelection (population : list chromosome)
    (parameters : Instance) : M chromosome :=
  i1 <~ randint 0 (len population - 1) ;;
  c1 <~ lift (getitem population i1) ;;
  i2 <~ randint 0 (len population - 1) ;;
  c2 <~ lift (getitem population i2) ;;
  k1 <~ lift (timeTaken parameters c1) ;;
  k2 <~ lift (timeTaken parameters c2) ;;
  pure (if k2 <? k1 then c2 else c1).

(** [while len(newPop) < len(population): newPop.append(...)] *)
Fixpoint selection_loop (fuel : nat) (newPop population : list chromosome)
    (parameters : Instance) : F (list chromosome) := fun w =>
  if len newPop <? len population then
    match fuel with
    | O => None
    | S fuel' =>
        match tournamentSelection population parameters w with
        | Raise e => Some (Raise e)
        | Ok (c, w') =>
            selection_loop fuel' (newPop ++ [c]) population parameters w'
        end
    end
  else Some (Ok (newPop, w)).

Definition selection (fuel : nat) (pr : Q) (population : list chromosome)
    (parameters : Instance) : F (list chromosome) :=
  newPop <~~ liftM (lift (elitistSelection pr population parameters)) ;;
  selection_loop fuel newPop population parameters.

(** ** The reinforcement-learning controller ([src/main.py]) *)

(** Numbers of the Q-table and rewards are rationals, kept in lowest
    terms. *)
Abbreviation qtable := (list (list Q)).

(** [initialize_Q_table]: [np.zeros((population_size, 2))] *)
Definition initialize_Q_table (population_size : Z) : qtable :=
  replicate (Z.to_nat population_size) [0%Q; 0%Q].

(** The value both rules store: [(1 - alpha) * q + alpha * (reward + gamma * next)] *)
Definition td_value (alpha gamma q reward next : Q) : Q :=
  Qred ((1 - alpha) * q + alpha * (reward + gamma * next)).

(** [Q[state][action] = x] *)
Definition set_entry (Qt : qtable) (state action : Z) (x : Q) : res qtable :=
  row <- getitem Qt state ;;
  row' <- setitem row action x ;;
  setitem Qt state row'.

Definition update_Q_sarsa (Qt : qtable) (state action : Z) (reward : Q)
    (next_state next_action : Z) (alpha gamma : Q) : res qtable :=
  row <- getitem Qt state ;;
  q <- getitem row action ;;
  next_row <- getitem Qt next_state ;;
  next_q <- getitem next_row next_action ;;
  set_entry Qt state action (td_value alpha gamma q reward next_q).

(** [max(row)] *)
Definition max_row (row : list Q) : res Q :=
  match row with
  | [] => Raise ValueError
  | x :: xs => Ok (foldl (fun m y => if Qlt_le_dec m y then y else m) x xs)
  end.

Definition update_Q_qlearning (Qt : qtable) (state action : Z) (reward : Q)
    (next_state : Z) (alpha gamma : Q) : res qtable :=
  next_row <- getitem Qt next_state ;;
  max_Q_next <- max_row next_row ;;
  row <- getitem Qt state ;;
  q <- getitem row action ;;
  set_entry Qt state action (td_value alpha gamma q reward max_Q_next).

(** [a % n] *)
Definition py_mod (a n : Z) : res Z :=
  if n =? 0 then Raise ZeroDivisionError else Ok (a mod n).

(** [reward = (best_time - new_best_time) / best_time] on integers. *)
Definition reward_of (best_time new_best_time : Z) : res Q :=
  if best_time =? 0 then Raise ZeroDivisionError
  else Ok (Qred (inject_Z (best_time - new_best_time) / inject_Z best_time)).

(** What the loop carries from one generation to the next, as far as the
    controller is concerned. *)
Record rl_state : Type := mkRL {
  gen : Z;
  use_sarsa : bool;
  Qtab : qtable
}.

(** What selection, the operators and the epsilon-greedy choices produce
    in one generation. *)
Record outcome : Type := mkOutcome {
  action : Z;
  best_time : Z;
  new_best_time : Z;
  next_action : Z
}.

(** The controller's part of one iteration of the [while] loop of
    [run_genetic_algorithm]; [N] is [len(population)]. *)
Definition generation (N : Z) (alpha gamma : Q) (oc : outcome) (s : rl_state)
  : res rl_state :=
  state <- py_mod (gen s) N ;;
  next_state <- py_mod (gen s + 1) N ;;
  reward <- reward_of (best_time oc) (new_best_time oc) ;;
  Qt <- (if use_sarsa s then
           update_Q_sarsa (Qtab s) state (action oc) reward next_state
             (next_action oc) alpha gamma
         else
           update_Q_qlearning (Qtab s) state (action oc) reward next_state
             alpha gamma) ;;
  let use_sarsa' := if N * 10 <? gen s then false else use_sarsa s in
  Ok (mkRL (gen s + 1) use_sarsa' Qt).

Fixpoint generations (N : Z) (alpha gamma : Q) (ocs : list outcome)
    (s : rl_state) : res rl_state :=
  match ocs with
  | [] => Ok s
  | oc :: ocs' =>
      s' <- generation N alpha gamma oc s ;;
      generations N alpha gamma ocs' s'
  end.

(** [gen = 1], [use_sarsa = True], the table of zeros. *)
Definition rl_init (N : Z) : rl_state := mkRL 1 true (initialize_Q_table N).

(** [initialize_SLGA_parameters] *)
Definition alpha0 : Q := 1 # 10.
Definition gamma0 : Q := 9 # 10.

(** ** Encoding ([src/genetic/encoding.py]) *)

(** [random.shuffle(x)]: for [i] from [len(x) - 1] down to 1, the element
    at [i] is exchanged with the one at a drawn position of [[0, i]]. *)
Fixpoint shuffle_loop {A} (n : nat) (x : list A) : M (list A) :=
  match n with
  | O => pure x
  | S n' =>
      let i := Z.of_nat n in
      j <~ randint 0 i ;;
      xj <~ lift (getitem x j) ;;
      xi <~ lift (getitem x i) ;;
      x1 <~ lift (setitem x i xj) ;;
      x2 <~ lift (setitem x1 j xi) ;;
      shuffle_loop n' x2
  end.

Definition shuffle {A} (x : list A) : M (list A) :=
  shuffle_loop (length x - 1) x.

(** The two loops of [generateOS]: index [i] once per operation of job
    [i]. *)
Fixpoint os_of_jobs (js : list Job) (i : Z) : list Z :=
  match js with
  | [] => []
  | job :: rest => map (fun _ => i) job ++ os_of_jobs rest (i + 1)
  end.

Definition generateOS (parameters : Instance) : M (list Z) :=
  shuffle (os_of_jobs (jobs parameters) 0).

(** [for op in job: MS.append(random.randint(0, len(op) - 1))] *)
Fixpoint ms_of_job (job : Job) : M (list Z) :=
  match job with
  | [] => pure []
  | op :: job' =>
      randomMachine <~ randint 0 (len op - 1) ;;
      rest <~ ms_of_job job' ;;
      pure (randomMachine :: rest)
  end.

Fixpoint ms_of_jobs (js : list Job) : M (list Z) :=
  match js with
  | [] => pure []
  | job :: rest =>
      m <~ ms_of_job job ;;
      ms <~ ms_of_jobs rest ;;
      pure (m ++ ms)
  end.

Definition generateMS (parameters : Instance) : M (list Z) :=
  ms_of_jobs (jobs parameters).

(** [for i in range(config.popSize)]; [config.popSize] is the parameter
    [popSize]. *)
Fixpoint population_of (n : nat) (parameters : Instance) : M (list chromosome) :=
  match n with
  | O => pure []
  | S n' =>
      OS <~ generateOS parameters ;;
      MS <~ generateMS parameters ;;
      gen1 <~ population_of n' parameters ;;
      pure ((OS, MS) :: gen1)
  end.

Definition initializePopulation (popSize : Z) (parameters : Instance)
  : M (list chromosome) :=
  population_of (Z.to_nat popSize) parameters.

(** ** Instance files ([src/utils/parser.py]) *)

(** A line of the file after [split()] and [int]: its integers.  A read
    past the end of the file gives the empty line. *)
Definition readline (lines : list (list Z)) : list Z * list (list Z) :=
  match lines with
  | [] => ([], [])
  | l :: rest => (l, rest)
  end.

(** [for ik in range(k)]: machine and processing time are read at [j] and
    [j + 1]. *)
Fixpoint parse_options (k : nat) (currentLineValues : list Z) (j : Z)
  : res (Operation * Z) :=
  match k with
  | O => Ok ([], j)
  | S k' =>
      machine <- getitem currentLineValues j ;;
      processingTime <- getitem currentLineValues (j + 1) ;;
      r <- parse_options k' currentLineValues (j + 2) ;;
      Ok (mkOption machine processingTime :: r.1, r.2)
  end.

(** [while j < len(currentLineValues)]; one unit of fuel per operation. *)
Fixpoint parse_operations (fuel : nat) (currentLineValues : list Z) (j : Z)
  : option (res (list Operation)) :=
  if j <? len currentLineValues then
    match fuel with
    | O => None
    | S fuel' =>
        match getitem currentLineValues j with
        | Raise e => Some (Raise e)
        | Ok k =>
            match parse_options (Z.to_nat k) currentLineValues (j + 1) with
            | Raise e => Some (Raise e)
            | Ok (operation, j') =>
                match parse_operations fuel' currentLineValues j' with
                | None => None
                | Some (Raise e) => Some (Raise e)
                | Some (Ok operations) => Some (Ok (operation :: operations))
                end
            end
        end
    end
  else Some (Ok []).

(** [for i in range(jobsNb)]: a line is read, its operations parsed from
    position 1 on. *)
Fixpoint parse_jobs (fuel : nat) (jobsNb : nat) (lines : list (list Z))
  : option (res (list Job)) :=
  match jobsNb with
  | O => Some (Ok [])
  | S n =>
      let '(currentLineValues, rest) := readline lines in
      match parse_operations fuel currentLineValues 1 with
      | None => None
      | Some (Raise e) => Some (Raise e)
      | Some (Ok operations) =>
          match parse_jobs fuel n rest with
          | None => None
          | Some (Raise e) => Some (Raise e)
          | Some (Ok js) => Some (Ok (operations :: js))
          end
      end
  end.

(** [parse]: the first two integers of the first line, then the jobs. *)
Definition parse (fuel : nat) (lines : list (list Z))
  : option (res Instance) :=
  let '(firstLine, rest) := readline lines in
  let firstLineValues := slice firstLine 0 2 in
  match getitem firstLineValues 0 with
  | Raise e => Some (Raise e)
  | Ok jobsNb =>
      match getitem firstLineValues 1 with
      | Raise e => Some (Raise e)
      | Ok machinesNb =>
          match parse_jobs fuel (Z.to_nat jobsNb) rest with
          | None => None
          | Some (Raise e) => Some (Raise e)
          | Some (Ok js) => Some (Ok (mkInstance machinesNb js))
          end
      end
  end.

(** ** Loop control of [run_genetic_algorithm] ([src/main.py],
       [src/genetic/termination.py]) *)

(** [shouldTerminate]: [gen > config.maxGen]; the population is not
    looked at. *)
Definition shouldTerminate {A} (maxGen : Z) (population : list A) (gen : Z)
  : bool :=
  maxGen <? gen.

(** The variables that decide how long the loop runs;
    [previous_best_time] starts at [float('inf')], here [None]. *)
Record control : Type := mkControl {
  c_gen : Z;
  no_improvement_count : Z;
  previous_best_time : option Z
}.

Definition control_init : control := mkControl 1 0 None.

(** The improvement check and [gen += 1] of one iteration, for the best
    makespan found at its start. *)
Definition control_step (best_time : Z) (c : control) : control :=
  let count :=
    match previous_best_time c with
    | Some t => if best_time =? t then no_improvement_count c + 1 else 0
    | None => 0
    end in
  mkControl (c_gen c + 1) count (Some best_time).

(** The [while] loop as far as its condition goes: [best g] is the best
    makespan found at the start of generation [g].  What the body does
    besides (selection, crossover, mutation, the Q-table) is not part of
    this function: a result says where the loop exits when its bodies
    return, not that they do. *)
Fixpoint control_loop (fuel : nat) (maxGen max_no_improvement_generations : Z)
    (best : Z -> Z) (c : control) : option control :=
  if negb (shouldTerminate maxGen (@nil unit) (c_gen c))
     && (no_improvement_count c <? max_no_improvement_generations) then
    match fuel with
    | O => None
    | S fuel' =>
        control_loop fuel' maxGen max_no_improvement_generations best
          (control_step (best (c_gen c)) c)
    end
  else Some c.

(** ** The chart ([src/utils/gantt.py]) *)

(** [sorted(data.items())]: the rows in the order of their keys (the keys
    of a dictionary differ, so the rows themselves are never compared). *)
Fixpoint insert_row {A} (kv : string * A) (l : list (string * A))
  : list (string * A) :=
  match l with
  | [] => [kv]
  | kv' :: l' =>
      if String.leb kv.1 kv'.1 then kv :: kv' :: l' else kv' :: insert_row kv l'
  end.

Definition sorted_items {A} (data : list (string * A)) : list (string * A) :=
  foldr insert_row [] data.

(** [max_len]: the end [op[1]] of every operation, row by row. *)
Definition max_len (data : list (string * list (Z * Z * string))) : list Z :=
  concat (map (fun kv => map (fun op => op.1.2) kv.2) (sorted_items data)).

(** [draw_chart], as far as it depends on the data: [max(max_len)] raises
    on the empty list (first in the call of [set_xlim]); the value is
    [total_makespan].  The calls into matplotlib are not modelled. *)
Definition draw_chart (data : list (string * list (Z * Z * string))) : res Z :=
  match max_len data with
  | [] => Raise ValueError
  | e :: es => Ok (max_list e es)
  end.

(** * Part II: vocabulary of the properties *)

(** Time slot [t] lies inside a placed interval. *)
Definition busy (machine_jobs : list task) (t : Z) : bool :=
  existsb (fun p => (t_start p <=? t) && (t <? t_end p)) machine_jobs.

(** All slots of [[k, k+d)] are free in the table. *)
Definition slots_free (tab : list bool) (k d : Z) : Prop :=
  forall t, k <= t < k + d -> tab !! Z.to_nat t = Some true.

(** Two half-open intervals share a time slot. *)
Definition overlaps (s e s' e' : Z) : Prop :=
  exists t, s <= t < e /\ s' <= t < e'.

(** [s] is the smallest start not before [c] such that [[s, s+d)] overlaps
    no placed interval. *)
Definition earliest_fit (c d : Z) (machine_jobs : list task) (s : Z) : Prop :=
  c <= s /\
  (forall p, p ∈ machine_jobs -> ~ overlaps s (s + d) (t_start p) (t_end p)) /\
  (forall s', c <= s' < s ->
     exists p, p ∈ machine_jobs /\ overlaps s' (s' + d) (t_start p) (t_end p)).

(** No character of the string is a dash. *)
Fixpoint no_dash (s : string) : Prop :=
  match s with
  | EmptyString => True
  | String c s' => c <> "-"%char /\ no_dash s'
  end.

(** Occurrences of job [j] in a sequence. *)
Definition occ (j : Z) (os : list Z) : nat := count_occ Z.eq_dec os j.
Global Arguments occ : simpl never.

(** Operations of job [j]; no operations outside [[0, J)]. *)
Definition ops_of (pb_instance : Instance) (j : Z) : nat :=
  if bool_decide (0 <= j) then
    length (default [] (jobs pb_instance !! Z.to_nat j))
  else 0%nat.

(** Machine ids lie in [[1, M]], every operation has an option, processing
    times are not negative. *)
Definition valid_instance (pb_instance : Instance) : Prop :=
  Forall (fun op : Operation =>
            op <> [] /\
            Forall (fun opt => 1 <= machine opt <= machinesNb pb_instance /\
                               0 <= processingTime opt) op)
         (concat (jobs pb_instance)).

(** Every processing time is positive. *)
Definition positive_times (pb_instance : Instance) : Prop :=
  Forall (fun op : Operation => Forall (fun opt => 0 < processingTime opt) op)
         (concat (jobs pb_instance)).

(** Job [j] occurs exactly [|jobs[j]|] times, nothing else occurs. *)
Definition legal_OS (pb_instance : Instance) (os : list Z) : Prop :=
  forall j : Z, occ j os = ops_of pb_instance j.

(** [MS[p]] indexes the options of the operation at position [p]. *)
Definition legal_MS (pb_instance : Instance) (ms : list Z) : Prop :=
  Forall2 (fun (op : Operation) i => 0 <= i < Z.of_nat (length op))
          (concat (jobs pb_instance)) ms.

(** [p] is placed on some machine. *)
Definition placed (sched : list (list task)) (p : task) : Prop :=
  exists (m : nat) (l : list task), sched !! m = Some l /\ p ∈ l.

(** What holds of the loop state after the prefix [pre] of OS. *)
Record decode_inv (pb_instance : Instance) (pre : list Z) (st : dstate)
  : Prop := {
  inv_machines :
    length (machine_operations st) = Z.to_nat (machinesNb pb_instance);
  inv_indexes : forall j, 0 <= j < Z.of_nat (length (jobs pb_instance)) ->
    indexes st !! Z.to_nat j = Some (Z.of_nat (occ j pre));
  inv_cstr : forall j, 0 <= j < Z.of_nat (length (jobs pb_instance)) ->
    exists c, start_task_cstr st !! Z.to_nat j = Some c /\ 0 <= c;
  inv_task : forall p, placed (machine_operations st) p ->
    0 <= t_cstr p <= t_start p /\ 0 < t_dur p /\
    exists j k c, 0 <= j < Z.of_nat (length (jobs pb_instance)) /\
      0 <= k < Z.of_nat (occ j pre) /\
      t_name p = name_task j k /\
      start_task_cstr st !! Z.to_nat j = Some c /\ t_end p <= c;
  inv_prec : forall p p' j k k',
    placed (machine_operations st) p -> placed (machine_operations st) p' ->
    0 <= j -> t_name p = name_task j k -> t_name p' = name_task j k' ->
    k < k' -> t_end p <= t_start p';
  inv_disj : forall m l i i' p p',
    machine_operations st !! m = Some l ->
    l !! i = Some p -> l !! i' = Some p' -> i <> i' ->
    t_end p <= t_start p' \/ t_end p' <= t_start p
}.

(** The hole pattern both crossovers build before filling. *)
Definition mask (jobset : list Z) (p : list Z) : list Z :=
  map (fun e => if py_in e jobset then e else -1) p.

(** A concrete sequence satisfies the multiplicity invariant when this
    check succeeds. *)
Definition legal_OSb (parameters : Instance) (os : list Z) : bool :=
  forallb (fun e => (0 <=? e) && (e <? len (jobs parameters))) os &&
  forallb (fun j => Nat.eqb (occ j os) (ops_of parameters j))
          (range 0 (len (jobs parameters))).

(** The position [random.randint(0, len(p) - 1)] makes of the draw [d]. *)
Definition position_of (p : list Z) (d : Z) : Z :=
  0 + d mod (len p - 1 - 0 + 1).

(** The value at an in-range position. *)
Definition value_at (p : list Z) (pos : Z) : Z :=
  default 0 (p !! Z.to_nat pos).

(** A per-machine list is in ascending order of the actual starts. *)
Definition sorted_by_start (l : list task) : Prop :=
  forall (i i' : nat) (p p' : task),
    (i < i')%nat -> l !! i = Some p -> l !! i' = Some p' ->
    t_start p <= t_start p'.

(** The processing times of a list of placed operations, summed. *)
Definition work (l : list task) : Z := foldr (fun p a => t_dur p + a) 0 l.

(** No start constraint and no placed operation lies beyond the work
    placed so far. *)
Definition within_work (st : dstate) : Prop :=
  Forall (fun c => 0 <= c <= work (concat (machine_operations st)))
         (start_task_cstr st) /\
  Forall (fun p => 0 <= t_start p /\ 0 < t_dur p /\
                   t_end p <= work (concat (machine_operations st)))
         (concat (machine_operations st)).

(** Keys in ascending order. *)
Fixpoint ascending_keys {A} (l : list (Z * A)) : Prop :=
  match l with
  | [] => True
  | kx :: l' => Forall (fun ky => kx.1 <= ky.1) l' /\ ascending_keys l'
  end.

(** A table of [N] rows of two entries. *)
Definition table_shape (N : Z) (Qt : qtable) : Prop :=
  length Qt = Z.to_nat N /\ Forall (fun row : list Q => length row = 2%nat) Qt.

(** [Q[state][action]] at in-range subscripts. *)
Definition entry (Qt : qtable) (state action : Z) : option Q :=
  row ← Qt !! Z.to_nat state; row !! Z.to_nat action.

(** What the loop control knows at the start of generation [c_gen c]: the
    last best makespan, and a count of the generations before the last one
    that had the same best makespan. *)
Definition control_inv (best : Z -> Z) (c : control) : Prop :=
  1 <= c_gen c /\ 0 <= no_improvement_count c /\
  (c_gen c = 1 -> no_improvement_count c = 0 /\ previous_best_time c = None) /\
  (1 < c_gen c ->
   previous_best_time c = Some (best (c_gen c - 1)) /\
   no_improvement_count c <= c_gen c - 2 /\
   forall g, c_gen c - 1 - no_improvement_count c <= g <= c_gen c - 1 ->
             best g = best (c_gen c - 1)).

(** The tokens of an operation in an instance file: the number of its
    options, then machine and processing time of each. *)
Definition tokens_of_options (op : Operation) : list Z :=
  concat (map (fun o => [machine o; processingTime o]) op).

Definition tokens_of_operation (op : Operation) : list Z :=
  len op :: tokens_of_options op.

(** The line of a job: a first token, then its operations. *)
Definition line_of_job (first : Z) (job : Job) : list Z :=
  first :: concat (map tokens_of_operation job).

(** The file of an instance: numbers of jobs and machines (and whatever
    follows them on the first line), then one line per job. *)
Definition file_of (pb_instance : Instance) (extra : list Z) : list (list Z) :=
  (len (jobs pb_instance) :: machinesNb pb_instance :: extra)
    :: map (fun job => line_of_job (len job) job) (jobs pb_instance).

(** The machine option that [decode] reads for operation [idx] of [job]:
    [o[job][idx][ms_s[job][idx]]]. *)
Definition selected_option (o : list Job) (ms_s : list (list Z)) (job idx : Z)
  : res MachineOption :=
  ms_job <- getitem ms_s job ;;
  index_machine <- getitem ms_job idx ;;
  o_job <- getitem o job ;;
  op <- getitem o_job idx ;;
  getitem op index_machine.

(** Every operation of a schedule lies on the list that the machine number
    of its selected option subscripts, and lasts that option's processing
    time. *)
Definition assigned (o : list Job) (ms_s : list (list Z))
    (sched : list (list task)) : Prop :=
  forall (m : nat) (l : list task) (p : task),
    sched !! m = Some l -> p ∈ l ->
    exists (job idx : Z) (opt : MachineOption),
      t_name p = name_task job idx /\
      selected_option o ms_s job idx = Ok opt /\
      t_dur p = processingTime opt /\
      py_index (length sched) (machine opt - 1) = Ok m.

(** The best makespan after the operators of one generation is the best
    makespan at the start of the next. *)
Fixpoint chained (ocs : list outcome) : Prop :=
  match ocs with
  | oc :: (oc' :: _) as rest => new_best_time oc = best_time oc' /\ chained rest
  | _ => True
  end.

(** What [crossover] makes of the pair [(c1, c2)]: the pair itself, or the
    two offspring of [crossoverOS] on the two OS and of [crossoverMS] on
    the two MS, drawn one after the other. *)
Definition pair_crossed (parameters : Instance) (c1 c2 c1' c2' : chromosome)
  : Prop :=
  (c1' = c1 /\ c2' = c2) \/
  exists w1 w2 w3 : world,
    crossoverOS c1.1 c2.1 parameters w1 = Ok ((c1'.1, c2'.1), w2) /\
    crossoverMS c1.2 c2.2 w2 = Ok ((c1'.2, c2'.2), w3).

(** ** Instances and draws of the examples *)

(** One job, two operations on the same machine, durations 3 and 4. *)
Definition inst_prec : Instance :=
  mkInstance 1 [[ [mkOption 1 3]; [mkOption 1 4] ]].

(** Two jobs on one machine: two operations of 5, one operation of 3. *)
Definition inst_gap : Instance :=
  mkInstance 1 [ [ [mkOption 1 5]; [mkOption 1 5] ]; [ [mkOption 1 3] ] ].

(** One job, one operation, processing time zero. *)
Definition inst_zero : Instance := mkInstance 1 [ [ [mkOption 1 0] ] ].

(** An instance on which a later operation fills the gap in front of an
    earlier one. *)
Definition inst_fill : Instance :=
  mkInstance 2 [ [ [mkOption 2 5]; [mkOption 1 1] ]; [ [mkOption 1 2] ] ].

(** The outcome used in the examples: action 0, best makespan 2 improved
    to 1, next action 1. *)
Definition oc_example : outcome := mkOutcome 0 2 1 1.

(** One job of two operations, each with two machine options. *)
Definition inst_two_options : Instance :=
  mkInstance 2 [ [ [mkOption 1 1; mkOption 2 1]; [mkOption 1 1; mkOption 2 1] ] ].

(** Draws that mutate the first individual only, and set its first gene
    to 1. *)
Definition tape_first_only (n : nat) : Z :=
  match n with
  | 0%nat | 1%nat | 2%nat | 3%nat | 4%nat => 0
  | 5%nat => 1
  | _ => 2 ^ 52
  end.

(** Draws for [[0; 1; 2]]: position 2, then 0 (exit of the first loop),
    then 0 again (one retry of the second loop), then 1. *)
Definition tape_one_retry (n : nat) : Z :=
  match n with
  | 0%nat => 2
  | 3%nat => 1
  | _ => 0
  end.

(** A run with a population of two: the best makespan improves from 2 to
    1 in the first generation and stays; action 0 is taken throughout. *)
Definition ocs_two : list outcome :=
  mkOutcome 0 2 1 0 :: replicate 19 (mkOutcome 0 1 1 0).

(** Generation 21 of that run: no improvement, and the next action drawn
    is 1. *)
Definition oc_two : outcome := mkOutcome 0 1 1 1.

(** Two jobs of one operation, each with two machine options of duration
    1: the makespan is 2 when both take the same machine, 1 otherwise. *)
Definition inst_two_jobs : Instance :=
  mkInstance 2 [ [ [mkOption 1 1; mkOption 2 1] ]; [ [mkOption 1 1; mkOption 2 1] ] ].

(** * Part III: lemmas and theorems *)

(** ** Facts on the list primitives *)

Lemma py_index_nonneg (n : nat) (i : Z) :
  0 <= i < Z.of_nat n -> py_index n i = Ok (Z.to_nat i).
Proof.
  intros Hi. unfold py_index.
  destruct (Z.leb_spec 0 i); [|lia].
  destruct (Z.ltb_spec i (Z.of_nat n)); [|lia].
  reflexivity.
Qed.

Lemma getitem_lookup {A} (l : list A) (i : Z) (x : A) :
  0 <= i -> l !! Z.to_nat i = Some x -> getitem l i = Ok x.
Proof.
  intros Hi Hx. unfold getitem.
  rewrite py_index_nonneg.
  - simpl. rewrite Hx. reflexivity.
  - apply lookup_lt_Some in Hx. lia.
Qed.

Lemma setitem_insert {A} (l : list A) (i : Z) (x : A) :
  0 <= i < Z.of_nat (length l) ->
  setitem l i x = Ok (<[Z.to_nat i := x]> l).
Proof.
  intros Hi. unfold setitem. rewrite py_index_nonneg by lia. reflexivity.
Qed.

Lemma max_list_lower (es : list Z) (e : Z) : e <= max_list e es.
Proof.
  unfold max_list. revert e.
  induction es as [|x es IH]; intros e; simpl; [lia|].
  specialize (IH (Z.max e x)). lia.
Qed.

Lemma max_list_upper (es : list Z) (e x : Z) :
  x ∈ es -> x <= max_list e es.
Proof.
  unfold max_list. revert e.
  induction es as [|y es IH]; intros e Hx; simpl.
  - inversion Hx.
  - apply elem_of_cons in Hx as [->|Hx].
    + pose proof (max_list_lower es (Z.max e y)) as H.
      unfold max_list in H. lia.
    + apply IH, Hx.
Qed.

(** ** The earliest-gap search *)

Lemma busy_true (machine_jobs : list task) (t : Z) :
  busy machine_jobs t = true <->
  exists p, p ∈ machine_jobs /\ t_start p <= t < t_end p.
Proof.
  unfold busy. rewrite existsb_exists. split.
  - intros (p & Hin & Hp). exists p. apply list_elem_of_In in Hin.
    apply andb_true_iff in Hp as [H1 H2].
    apply Z.leb_le in H1. apply Z.ltb_lt in H2. auto.
  - intros (p & Hin & Hp). exists p. apply list_elem_of_In in Hin.
    split; [assumption|].
    apply andb_true_iff. split; [apply Z.leb_le|apply Z.ltb_lt]; lia.
Qed.

Lemma busy_false (machine_jobs : list task) (t : Z) :
  busy machine_jobs t = false <->
  forall p, p ∈ machine_jobs -> ~ (t_start p <= t < t_end p).
Proof.
  rewrite <- not_true_iff_false, busy_true. split.
  - intros H p Hin Hp. apply H. eauto.
  - intros H (p & Hin & Hp). exact (H p Hin Hp).
Qed.

Lemma mark_used_spec (n : nat) : forall (a : Z) (tab : list bool),
  0 <= a -> a + Z.of_nat n <= Z.of_nat (length tab) ->
  exists tab', mark_used tab (seqZ a (Z.of_nat n)) = Ok tab' /\
    length tab' = length tab /\
    forall i : nat, tab' !! i =
      if bool_decide (a <= Z.of_nat i < a + Z.of_nat n)
      then Some false else tab !! i.
Proof.
  induction n as [|n IH]; intros a tab Ha Hlen.
  - exists tab. split; [reflexivity|]. split; [reflexivity|].
    intros i. rewrite bool_decide_eq_false_2 by lia. reflexivity.
  - rewrite seqZ_cons by lia. simpl.
    rewrite setitem_insert by lia. simpl.
    replace (Z.pred (Z.of_nat (S n))) with (Z.of_nat n) by lia.
    destruct (IH (Z.succ a) (<[Z.to_nat a := false]> tab)) as (tab' & Hm & Hl & Hlk).
    { lia. } { rewrite length_insert. lia. }
    exists tab'. split; [exact Hm|]. split.
    { rewrite Hl. apply length_insert. }
    intros i. rewrite Hlk.
    destruct (decide (Z.to_nat a = i)) as [<-|Hne].
    + rewrite (bool_decide_eq_false_2 (Z.succ a <= _ < _)) by lia.
      rewrite bool_decide_eq_true_2 by lia.
      apply list_lookup_insert_eq. lia.
    + rewrite list_lookup_insert_ne by exact Hne.
      destruct (decide (a <= Z.of_nat i < a + Z.of_nat (S n))).
      * rewrite !bool_decide_eq_true_2 by lia. reflexivity.
      * rewrite !bool_decide_eq_false_2 by lia. reflexivity.
Qed.

Lemma mark_jobs_spec (machine_jobs : list task) : forall tab : list bool,
  Forall (fun p => 0 <= t_start p /\ 0 <= t_dur p /\
                   t_end p <= Z.of_nat (length tab)) machine_jobs ->
  exists tab', mark_jobs tab machine_jobs = Ok tab' /\
    length tab' = length tab /\
    forall i : nat, tab' !! i =
      if busy machine_jobs (Z.of_nat i) then Some false else tab !! i.
Proof.
  induction machine_jobs as [|p rest IH]; intros tab Hall.
  - exists tab. auto.
  - apply Forall_cons in Hall as [(Hs & Hd & He) Hall]. simpl.
    unfold range, t_end in *.
    replace (t_start p + t_dur p - t_start p) with (Z.of_nat (Z.to_nat (t_dur p))) by lia.
    destruct (mark_used_spec (Z.to_nat (t_dur p)) (t_start p) tab) as (tab1 & Hm & Hl & Hlk);
      [lia..|].
    rewrite Hm. simpl.
    destruct (IH tab1) as (tab' & Hm' & Hl' & Hlk').
    { rewrite Hl. exact Hall. }
    exists tab'. split; [exact Hm'|]. split; [congruence|].
    intros i. rewrite Hlk', Hlk.
    destruct (busy rest (Z.of_nat i)); [rewrite orb_true_r; reflexivity|].
    rewrite orb_false_r.
    destruct (decide (t_start p <= Z.of_nat i < t_start p + t_dur p)).
    + rewrite bool_decide_eq_true_2 by lia.
      replace ((t_start p <=? Z.of_nat i) && (Z.of_nat i <? t_start p + t_dur p)) with true;
        [reflexivity|].
      symmetry. apply andb_true_iff. split; [apply Z.leb_le|apply Z.ltb_lt]; lia.
    + rewrite bool_decide_eq_false_2 by lia.
      replace ((t_start p <=? Z.of_nat i) && (Z.of_nat i <? t_start p + t_dur p)) with false;
        [reflexivity|].
      symmetry. apply andb_false_iff.
      destruct (Z.leb_spec (t_start p) (Z.of_nat i)); [right|left; reflexivity].
      apply Z.ltb_ge. lia.
Qed.

Lemma is_free_loop_spec (tab : list bool) (n : nat) : forall k : Z,
  0 <= k -> k + Z.of_nat n <= Z.of_nat (length tab) ->
  (is_free_loop tab (seqZ k (Z.of_nat n)) = Ok true /\
     slots_free tab k (Z.of_nat n)) \/
  (is_free_loop tab (seqZ k (Z.of_nat n)) = Ok false /\
     ~ slots_free tab k (Z.of_nat n)).
Proof.
  induction n as [|n IH]; intros k Hk Hlen.
  - left. split; [reflexivity|]. intros t Ht. lia.
  - rewrite seqZ_cons by lia. simpl.
    replace (Z.pred (Z.of_nat (S n))) with (Z.of_nat n) by lia.
    destruct (lookup_lt_is_Some_2 tab (Z.to_nat k)) as [b Hb]; [lia|].
    rewrite (getitem_lookup tab k b) by assumption. simpl.
    destruct b.
    + destruct (IH (Z.succ k)) as [[He Hf]|[He Hf]]; [lia..| |].
      * left. split; [exact He|]. intros t Ht.
        destruct (decide (t = k)) as [->|]; [exact Hb|]. apply Hf. lia.
      * right. split; [exact He|]. intros Hall. apply Hf.
        intros t Ht. apply Hall. lia.
    + right. split; [reflexivity|]. intros Hall.
      specialize (Hall k). rewrite Hb in Hall.
      assert (Some false = Some true) by (apply Hall; lia). discriminate.
Qed.

Lemma is_free_spec (tab : list bool) (k d : Z) :
  0 <= k -> 0 <= d -> k + d <= Z.of_nat (length tab) ->
  (is_free tab k d = Ok true /\ slots_free tab k d) \/
  (is_free tab k d = Ok false /\ ~ slots_free tab k d).
Proof.
  intros Hk Hd Hlen. unfold is_free, range.
  replace (k + d - k) with (Z.of_nat (Z.to_nat d)) by lia.
  replace d with (Z.of_nat (Z.to_nat d)) at 2 4 by lia.
  apply is_free_loop_spec; lia.
Qed.

Lemma first_free_spec (tab : list bool) (d : Z) (n : nat) : forall a : Z,
  0 <= a -> 0 <= d ->
  (exists k0, a <= k0 < a + Z.of_nat n /\
              k0 + d <= Z.of_nat (length tab) /\ slots_free tab k0 d) ->
  exists k1, first_free tab (seqZ a (Z.of_nat n)) d = Ok (Some k1) /\
    a <= k1 /\ slots_free tab k1 d /\
    forall k, a <= k < k1 -> ~ slots_free tab k d.
Proof.
  induction n as [|n IH]; intros a Ha Hd (k0 & Hk0 & Hlen & Hfree).
  - lia.
  - rewrite seqZ_cons by lia. simpl.
    replace (Z.pred (Z.of_nat (S n))) with (Z.of_nat n) by lia.
    destruct (is_free_spec tab a d) as [[He Hf]|[He Hf]]; [lia..| |];
      rewrite He; simpl.
    + exists a. split; [reflexivity|]. split; [lia|]. split; [exact Hf|]. lia.
    + assert (k0 <> a) by (intros ->; exact (Hf Hfree)).
      destruct (IH (Z.succ a)) as (k1 & Hr & Hge & Hf1 & Hmin); [lia..| |].
      { exists k0. split; [lia|]. auto. }
      exists k1. split; [exact Hr|]. split; [lia|]. split; [exact Hf1|].
      intros k Hk. destruct (decide (k = a)) as [->|]; [exact Hf|].
      apply Hmin. lia.
Qed.

Lemma busy_range_dec (machine_jobs : list task) (k d : Z) :
  (exists t, k <= t < k + d /\ busy machine_jobs t = true) \/
  (forall t, k <= t < k + d -> busy machine_jobs t = false).
Proof.
  destruct (Z.le_gt_cases d 0) as [Hd|Hd]; [right; intros t Ht; lia|].
  replace d with (Z.of_nat (Z.to_nat d)) by lia.
  induction (Z.to_nat d) as [|n IH]; [right; intros t Ht; lia|].
  destruct IH as [(t & Ht & Hb)|Hno].
  - left. exists t. split; [lia|exact Hb].
  - destruct (busy machine_jobs (k + Z.of_nat n)) eqn:Hb.
    + left. exists (k + Z.of_nat n). split; [lia|exact Hb].
    + right. intros t Ht.
      destruct (decide (t = k + Z.of_nat n)) as [->|]; [exact Hb|].
      apply Hno. lia.
Qed.

(** The bound [max(max(ends), start_ctr)] the table is sized from. *)
Lemma max_duration_of_spec (c d : Z) (machine_jobs : list task) :
  exists E, max_duration_of c d machine_jobs = E + d /\ c <= E /\
            forall p, p ∈ machine_jobs -> t_end p <= E.
Proof.
  unfold max_duration_of. destruct machine_jobs as [|q rest]; simpl.
  - exists c. split; [reflexivity|]. split; [lia|]. intros p Hp. inversion Hp.
  - exists (Z.max (max_list (t_end q) (map t_end rest)) c).
    split; [reflexivity|]. split; [lia|].
    intros p Hp. apply elem_of_cons in Hp as [->|Hp].
    + pose proof (max_list_lower (map t_end rest) (t_end q)). lia.
    + pose proof (max_list_upper (map t_end rest) (t_end q) (t_end p)) as H.
      assert (t_end p ∈ map t_end rest) as Hin.
      { apply list_elem_of_fmap. exists p. auto. }
      specialize (H Hin). lia.
Qed.

Lemma no_overlap_order (s d s' d' : Z) :
  0 < d -> 0 < d' -> ~ overlaps s (s + d) s' (s' + d') ->
  s + d <= s' \/ s' + d' <= s.
Proof.
  intros Hd Hd' Hno.
  destruct (Z.le_gt_cases (s + d) s'); [auto|].
  destruct (Z.le_gt_cases (s' + d') s); [auto|].
  exfalso. apply Hno. exists (Z.max s s'). lia.
Qed.

(** For a positive processing time the search returns, and what it returns
    is the earliest fit. *)
Lemma find_first_available_place_spec (c d : Z) (machine_jobs : list task) :
  0 <= c -> 0 < d ->
  Forall (fun p => 0 <= t_start p /\ 0 <= t_dur p) machine_jobs ->
  exists s, find_first_available_place c d machine_jobs = Ok (Some s) /\
            earliest_fit c d machine_jobs s.
Proof.
  intros Hc Hd Hall. unfold find_first_available_place.
  destruct (max_duration_of_spec c d machine_jobs) as (E & HE & HcE & Hends).
  rewrite HE.
  destruct (mark_jobs_spec machine_jobs (replicate (Z.to_nat (E + d)) true))
    as (tab & Hm & Hl & Hlk).
  { rewrite length_replicate. apply Forall_forall. intros p Hp.
    rewrite Forall_forall in Hall. destruct (Hall p Hp).
    specialize (Hends p Hp). lia. }
  rewrite Hm. simpl. rewrite length_replicate in Hl.
  assert (Htab : forall t, 0 <= t < E + d ->
            tab !! Z.to_nat t = Some (negb (busy machine_jobs t))).
  { intros t Ht. rewrite Hlk. rewrite Z2Nat.id by lia.
    destruct (busy machine_jobs t); [reflexivity|].
    apply lookup_replicate_2. lia. }
  assert (Hsf : forall k, 0 <= k -> k + d <= E + d ->
            (slots_free tab k d <->
             forall t, k <= t < k + d -> busy machine_jobs t = false)).
  { intros k Hk Hkd. split; intros H t Ht.
    - specialize (H t Ht). rewrite Htab in H by lia.
      destruct (busy machine_jobs t); [discriminate|reflexivity].
    - rewrite Htab by lia. rewrite (H t Ht). reflexivity. }
  unfold range. rewrite Hl.
  replace (Z.of_nat (Z.to_nat (E + d)) - c)
    with (Z.of_nat (Z.to_nat (E + d - c))) by lia.
  destruct (first_free_spec tab d (Z.to_nat (E + d - c)) c)
    as (k1 & Hr & Hge & Hf1 & Hmin); [lia..| |].
  { exists E. split; [lia|]. split; [lia|].
    apply Hsf; [lia..|]. intros t Ht. apply busy_false. intros p Hp Hin.
    specialize (Hends p Hp). lia. }
  exists k1. split; [exact Hr|].
  assert (HkE : k1 <= E).
  { destruct (Z.le_gt_cases k1 E) as [|Hgt]; [assumption|].
    exfalso. apply (Hmin E); [lia|].
    apply Hsf; [lia..|]. intros t Ht. apply busy_false. intros p Hp Hin.
    specialize (Hends p Hp). lia. }
  split; [exact Hge|]. split.
  - intros p Hp (t & Ht & Htp).
    assert (busy machine_jobs t = false) as Hb
      by (apply (proj1 (Hsf k1 ltac:(lia) ltac:(lia))); [exact Hf1|lia]).
    apply (proj1 (busy_false machine_jobs t) Hb p Hp). exact Htp.
  - intros s' Hs'.
    destruct (busy_range_dec machine_jobs s' d) as [(t & Ht & Hb)|Hno].
    + apply busy_true in Hb as (p & Hp & Htp). exists p. split; [exact Hp|].
      exists t. auto.
    + exfalso. apply (Hmin s'); [lia|]. apply Hsf; [lia..|]. exact Hno.
Qed.

(** ** Task names identify the operation *)

Lemma pretty_N_go_no_dash (x : N) : forall s : string,
  no_dash s -> no_dash (pretty_N_go x s).
Proof.
  induction (N.lt_wf_0 x) as [x _ IH]; intros s Hs.
  destruct (decide (x = 0%N)) as [->|Hx].
  - rewrite pretty_N_go_0. exact Hs.
  - rewrite pretty_N_go_step by lia. apply IH.
    + apply N.div_lt; lia.
    + simpl. split; [|exact Hs].
      unfold pretty_N_char. repeat case_match; discriminate.
Qed.

Lemma pretty_Z_no_dash (z : Z) : 0 <= z -> no_dash (pretty z).
Proof.
  intros Hz. destruct z as [|p|p]; [simpl; split; [discriminate|exact I]| |lia].
  unfold pretty, pretty_Z, pretty, pretty_positive, pretty, pretty_N.
  case_decide; [lia|]. apply pretty_N_go_no_dash. exact I.
Qed.

Lemma append_dash_inj (s1 : string) : forall s1' s2 s2' : string,
  no_dash s1 -> no_dash s1' ->
  s1 +:+ "-" +:+ s2 = s1' +:+ "-" +:+ s2' -> s1 = s1' /\ s2 = s2'.
Proof.
  induction s1 as [|c s1 IH]; intros [|c' s1'] s2 s2' H1 H1' Heq;
    simpl in *; simplify_eq; try tauto.
  destruct H1 as [_ H1]. destruct H1' as [_ H1'].
  destruct (IH s1' s2 s2' H1 H1') as [-> ->]; auto.
Qed.

Lemma name_task_inj (j k j' k' : Z) :
  0 <= j -> 0 <= j' -> name_task j k = name_task j' k' -> j = j' /\ k = k'.
Proof.
  intros Hj Hj' Heq. unfold name_task in Heq. simpl in Heq.
  injection Heq as Heq.
  apply append_dash_inj in Heq as [Ha Hb];
    [|apply pretty_Z_no_dash; lia..].
  apply (inj pretty) in Ha. apply (inj pretty) in Hb. lia.
Qed.

(** ** Legality of instances and chromosomes *)

Lemma occ_app (j : Z) (l1 l2 : list Z) :
  occ j (l1 ++ l2) = (occ j l1 + occ j l2)%nat.
Proof. apply count_occ_app. Qed.

Lemma occ_single (j x : Z) :
  occ j [x] = if decide (x = j) then 1%nat else 0%nat.
Proof.
  unfold occ. simpl. destruct (Z.eq_dec x j), (decide (x = j)); congruence.
Qed.

Lemma ops_of_lookup (pb_instance : Instance) (j : Z) :
  (0 < ops_of pb_instance j)%nat ->
  0 <= j /\ exists job, jobs pb_instance !! Z.to_nat j = Some job /\
                        ops_of pb_instance j = length job.
Proof.
  unfold ops_of. case_bool_decide; [|lia].
  destruct (jobs pb_instance !! Z.to_nat j) as [job|] eqn:Hj; simpl; [|lia].
  eauto.
Qed.

Lemma split_ms_from_legal (js : list Job) : forall (pre ms : list Z),
  Forall2 (fun (op : Operation) i => 0 <= i < Z.of_nat (length op))
          (concat js) ms ->
  Forall2 (fun (job : Job) ms_job =>
             Forall2 (fun (op : Operation) i => 0 <= i < Z.of_nat (length op))
                     job ms_job)
          js (split_ms_from js (pre ++ ms) (length pre)).
Proof.
  induction js as [|job rest IH]; intros pre ms Hms; simpl.
  - constructor.
  - simpl in Hms. apply Forall2_app_inv_l in Hms as (m1 & m2 & H1 & H2 & ->).
    pose proof (Forall2_length _ _ _ H1) as Hlen.
    constructor.
    + rewrite drop_app_length, Hlen, take_app_length. exact H1.
    + specialize (IH (pre ++ m1) m2 H2).
      rewrite length_app, <- Hlen, <- app_assoc in IH. exact IH.
Qed.

Lemma split_ms_legal (pb_instance : Instance) (ms : list Z) :
  legal_MS pb_instance ms ->
  Forall2 (fun (job : Job) ms_job =>
             Forall2 (fun (op : Operation) i => 0 <= i < Z.of_nat (length op))
                     job ms_job)
          (jobs pb_instance) (split_ms pb_instance ms).
Proof. intros H. exact (split_ms_from_legal _ [] ms H). Qed.

(** ** The decoding loop keeps a feasible schedule *)

Lemma placed_insert (sched : list (list task)) (m : nat) (l : list task)
    (q p : task) :
  sched !! m = Some l ->
  placed (<[m := l ++ [q]]> sched) p <-> placed sched p \/ p = q.
Proof.
  intros Hm. split.
  - intros (m' & l' & Hl' & Hp).
    destruct (decide (m = m')) as [<-|Hne].
    + rewrite list_lookup_insert_eq in Hl' by (eapply lookup_lt_Some; eauto).
      injection Hl' as <-. apply elem_of_app in Hp as [Hp|Hp].
      * left. exists m, l. auto.
      * right. apply list_elem_of_singleton in Hp. exact Hp.
    + rewrite list_lookup_insert_ne in Hl' by exact Hne.
      left. exists m', l'. auto.
  - intros [(m' & l' & Hl' & Hp)| ->].
    + destruct (decide (m = m')) as [<-|Hne].
      * exists m, (l ++ [q]). split.
        { apply list_lookup_insert_eq. eapply lookup_lt_Some; eauto. }
        rewrite Hm in Hl'. injection Hl' as <-. apply elem_of_app. auto.
      * exists m', l'. rewrite list_lookup_insert_ne by exact Hne. auto.
    + exists m, (l ++ [q]). split.
      { apply list_lookup_insert_eq. eapply lookup_lt_Some; eauto. }
      apply elem_of_app. right. apply list_elem_of_singleton. reflexivity.
Qed.
Lemma valid_option (pb_instance : Instance) (a b c : nat) job (op : Operation) opt :
  valid_instance pb_instance ->
  jobs pb_instance !! a = Some job -> job !! b = Some op -> op !! c = Some opt ->
  1 <= machine opt <= machinesNb pb_instance /\ 0 <= processingTime opt.
Proof.
  intros Hv Ha Hb Hc. unfold valid_instance in Hv.
  apply (proj1 (Forall_concat _ _)) in Hv.
  pose proof (Forall_lookup_1 _ _ _ _ Hv Ha) as Hjob.
  pose proof (Forall_lookup_1 _ _ _ _ Hjob Hb) as [_ Hop].
  exact (Forall_lookup_1 _ _ _ _ Hop Hc).
Qed.

Lemma positive_option (pb_instance : Instance) (a b c : nat) job (op : Operation) opt :
  positive_times pb_instance ->
  jobs pb_instance !! a = Some job -> job !! b = Some op -> op !! c = Some opt ->
  0 < processingTime opt.
Proof.
  intros Hv Ha Hb Hc. unfold positive_times in Hv.
  apply (proj1 (Forall_concat _ _)) in Hv.
  pose proof (Forall_lookup_1 _ _ _ _ Hv Ha) as Hjob.
  pose proof (Forall_lookup_1 _ _ _ _ Hjob Hb) as Hop.
  exact (Forall_lookup_1 _ _ _ _ Hop Hc).
Qed.

Section Decoder.
Variable pb_instance : Instance.
Variable ms : list Z.
Hypothesis Hvalid : valid_instance pb_instance.
Hypothesis Hpos : positive_times pb_instance.
Hypothesis Hms : legal_MS pb_instance ms.

Abbreviation o := (jobs pb_instance).
Abbreviation ms_s := (split_ms pb_instance ms).
Abbreviation J := (Z.of_nat (length (jobs pb_instance))).

Lemma decode_init_inv : decode_inv pb_instance [] (decode_init pb_instance ms).
Proof.
  pose proof (Forall2_length _ _ _ (split_ms_legal _ _ Hms)) as Hlen.
  unfold decode_init. constructor; simpl.
  - apply length_replicate.
  - intros j Hj. apply lookup_replicate_2. lia.
  - intros j Hj. exists 0. split; [apply lookup_replicate_2|]; lia.
  - intros p (m & l & Hl & Hp).
    apply lookup_replicate_1 in Hl as [-> _]. inversion Hp.
  - intros p p' j k k' (m & l & Hl & Hp).
    apply lookup_replicate_1 in Hl as [-> _]. inversion Hp.
  - intros m l i i' p p' Hl Hp.
    apply lookup_replicate_1 in Hl as [-> _]. inversion Hp.
Qed.

Lemma decode_step_spec (pre : list Z) (st : dstate) (j : Z) :
  decode_inv pb_instance pre st ->
  (occ j pre < ops_of pb_instance j)%nat ->
  exists st' m l c d s,
    decode_step o ms_s st j = Ok st' /\
    machine_operations st !! m = Some l /\
    start_task_cstr st !! Z.to_nat j = Some c /\
    earliest_fit c d l s /\
    machine_operations st' =
      <[m := l ++ [mkTask (name_task j (Z.of_nat (occ j pre))) d c s]]>
        (machine_operations st) /\
    decode_inv pb_instance (pre ++ [j]) st'.
Proof.
  intros Hinv Hocc.
  destruct (ops_of_lookup pb_instance j) as (Hj0 & job & Hjob & Hops); [lia|].
  rewrite Hops in Hocc.
  assert (HjJ : 0 <= j < J) by (apply lookup_lt_Some in Hjob; lia).
  destruct (Forall2_lookup_l _ _ _ _ _ (split_ms_legal _ _ Hms) Hjob)
    as (ms_job & Hmsj & Hlegal).
  pose proof (inv_indexes _ _ _ Hinv j HjJ) as Hidx.
  destruct (lookup_lt_is_Some_2 job (occ j pre) Hocc) as [op Hop].
  destruct (Forall2_lookup_l _ _ _ _ _ Hlegal Hop) as (im & Him & Himr).
  destruct (lookup_lt_is_Some_2 op (Z.to_nat im)) as [opt Hopt]; [lia|].
  destruct (valid_option _ _ _ _ _ _ _ Hvalid Hjob Hop Hopt) as [Hmach _].
  pose proof (positive_option _ _ _ _ _ _ _ Hpos Hjob Hop Hopt) as Hd.
  destruct (inv_cstr _ _ _ Hinv j HjJ) as (c & Hc & Hc0).
  destruct (lookup_lt_is_Some_2 (machine_operations st)
              (Z.to_nat (machine opt - 1))) as [l Hl].
  { rewrite (inv_machines _ _ _ Hinv). lia. }
  destruct (find_first_available_place_spec c (processingTime opt) l)
    as (s & Hfind & Hfit); [lia..| |].
  { apply Forall_forall. intros p Hp.
    destruct (inv_task _ _ _ Hinv p) as (? & ? & _); [eexists _, l; eauto|]. lia. }
  set (q := mkTask (name_task j (Z.of_nat (occ j pre)))
                   (processingTime opt) c s).
  exists (mkDstate (<[Z.to_nat (machine opt - 1) := l ++ [q]]> (machine_operations st))
                   (<[Z.to_nat j := Z.of_nat (occ j pre) + 1]> (indexes st))
                   (<[Z.to_nat j := s + processingTime opt]> (start_task_cstr st))),
    (Z.to_nat (machine opt - 1)), l, c, (processingTime opt), s.
  split.
  { unfold decode_step.
    rewrite (getitem_lookup ms_s j ms_job) by (lia || assumption). cbn [bind].
    rewrite (getitem_lookup (indexes st) j _ Hj0 Hidx). cbn [bind].
    rewrite (getitem_lookup ms_job (Z.of_nat (occ j pre)) im)
      by (lia || rewrite Nat2Z.id; assumption). cbn [bind].
    rewrite (getitem_lookup o j job) by (lia || assumption). cbn [bind].
    rewrite (getitem_lookup job (Z.of_nat (occ j pre)) op)
      by (lia || rewrite Nat2Z.id; assumption). cbn [bind].
    rewrite (getitem_lookup op im opt) by (lia || assumption). cbn [bind].
    rewrite (getitem_lookup (start_task_cstr st) j c) by (lia || assumption).
    cbn [bind].
    rewrite (getitem_lookup (machine_operations st) (machine opt - 1) l)
      by (lia || assumption). cbn [bind].
    rewrite Hfind. cbn [bind].
    rewrite setitem_insert by (apply lookup_lt_Some in Hl; lia). cbn [bind].
    rewrite setitem_insert by (apply lookup_lt_Some in Hidx; lia). cbn [bind].
    rewrite setitem_insert by (apply lookup_lt_Some in Hc; lia). cbn [bind].
    reflexivity. }
  split; [exact Hl|]. split; [exact Hc|]. split; [exact Hfit|].
  split; [reflexivity|].
  destruct Hfit as (Hcs & Hfree & _).
  assert (Hocc' : forall j', occ j' (pre ++ [j]) =
            (occ j' pre + if decide (j = j') then 1 else 0)%nat).
  { intros j'. rewrite occ_app, occ_single. reflexivity. }
  assert (Hcstr' : forall j' c', 0 <= j' < J ->
            start_task_cstr st !! Z.to_nat j' = Some c' ->
            exists c'', <[Z.to_nat j := s + processingTime opt]>
                          (start_task_cstr st) !! Z.to_nat j' = Some c'' /\
                        c' <= c'').
  { intros j' c' Hj' Hc'. destruct (decide (j = j')) as [<-|Hne].
    - exists (s + processingTime opt). split.
      + apply list_lookup_insert_eq. eapply lookup_lt_Some; eauto.
      + rewrite Hc in Hc'. injection Hc' as <-. lia.
    - exists c'. split; [|lia].
      rewrite list_lookup_insert_ne by lia. exact Hc'. }
  constructor; simpl.
  - rewrite length_insert. exact (inv_machines _ _ _ Hinv).
  - intros j' Hj'. rewrite Hocc'. destruct (decide (j = j')) as [<-|Hne].
    + rewrite list_lookup_insert_eq by (eapply lookup_lt_Some; eauto).
      f_equal. lia.
    + rewrite list_lookup_insert_ne by lia.
      rewrite (inv_indexes _ _ _ Hinv j' Hj'). f_equal. lia.
  - intros j' Hj'. destruct (inv_cstr _ _ _ Hinv j' Hj') as (c' & Hc' & Hc'0).
    destruct (Hcstr' j' c' Hj' Hc') as (c'' & ? & ?). exists c''. split; [auto|lia].
  - intros p Hp. apply (placed_insert _ _ _ _ _ Hl) in Hp as [Hp| ->].
    + destruct (inv_task _ _ _ Hinv p Hp)
        as (H1 & H2 & j' & k & c' & Hj' & Hk & Hn & Hc' & He).
      split; [exact H1|]. split; [exact H2|].
      destruct (Hcstr' j' c' Hj' Hc') as (c'' & ? & ?).
      exists j', k, c''. rewrite Hocc'.
      split; [exact Hj'|]. split; [lia|]. split; [exact Hn|].
      split; [assumption|lia].
    + subst q. simpl. split; [lia|]. split; [lia|].
      exists j, (Z.of_nat (occ j pre)), (s + processingTime opt).
      rewrite Hocc'. rewrite decide_True by reflexivity.
      split; [exact HjJ|]. split; [lia|]. split; [reflexivity|].
      split; [|unfold t_end; simpl; lia].
      apply list_lookup_insert_eq. eapply lookup_lt_Some; eauto.
  - intros p p' j0 k k' Hp Hp' Hj0' Hn Hn' Hk.
    apply (placed_insert _ _ _ _ _ Hl) in Hp as [Hp| ->];
      apply (placed_insert _ _ _ _ _ Hl) in Hp' as [Hp'| ->].
    + exact (inv_prec _ _ _ Hinv p p' j0 k k' Hp Hp' Hj0' Hn Hn' Hk).
    + subst q. simpl in *.
      apply name_task_inj in Hn' as [<- <-]; [|lia..].
      destruct (inv_task _ _ _ Hinv p Hp)
        as (_ & _ & j' & k0 & c' & Hj' & Hk0 & Hn0 & Hc' & He).
      rewrite Hn in Hn0. apply name_task_inj in Hn0 as [<- <-]; [|lia..].
      rewrite Hc in Hc'. injection Hc' as <-. lia.
    + subst q. simpl in *.
      apply name_task_inj in Hn as [<- <-]; [|lia..].
      destruct (inv_task _ _ _ Hinv p' Hp')
        as (_ & _ & j' & k0 & c' & Hj' & Hk0 & Hn0 & Hc' & He).
      rewrite Hn' in Hn0. apply name_task_inj in Hn0 as [<- <-]; [|lia..].
      lia.
    + subst q. simpl in *. rewrite Hn in Hn'.
      apply name_task_inj in Hn' as [_ <-]; lia.
  - intros m l' i i' p p' Hl' Hp Hp' Hne.
    destruct (decide (Z.to_nat (machine opt - 1) = m)) as [<-|Hm].
    + rewrite list_lookup_insert_eq in Hl' by (eapply lookup_lt_Some; eauto).
      injection Hl' as <-.
      assert (Hnew : forall x, x ∈ l ->
                t_end x <= t_start q \/ t_end q <= t_start x).
      { intros x Hx.
        destruct (inv_task _ _ _ Hinv x) as (_ & Hdx & _); [eexists _, l; eauto|].
        destruct (no_overlap_order s (processingTime opt) (t_start x) (t_dur x)
                    Hd Hdx (Hfree x Hx)); subst q; unfold t_end; simpl; lia. }
      apply lookup_app_Some in Hp as [Hp|[Hil Hp]];
        apply lookup_app_Some in Hp' as [Hp'|[Hil' Hp']].
      * exact (inv_disj _ _ _ Hinv _ _ _ _ _ _ Hl Hp Hp' Hne).
      * apply list_lookup_singleton_Some in Hp' as [_ <-].
        apply Hnew. eapply list_elem_of_lookup_2; eauto.
      * apply list_lookup_singleton_Some in Hp as [_ <-].
        destruct (Hnew p'); [eapply list_elem_of_lookup_2; eauto|auto..].
      * apply list_lookup_singleton_Some in Hp as [? _].
        apply list_lookup_singleton_Some in Hp' as [? _]. lia.
    + rewrite list_lookup_insert_ne in Hl' by exact Hm.
      exact (inv_disj _ _ _ Hinv _ _ _ _ _ _ Hl' Hp Hp' Hne).
Qed.

Lemma decode_loop_app (os1 os2 : list Z) : forall st : dstate,
  decode_loop o ms_s (os1 ++ os2) st =
  (st' <- decode_loop o ms_s os1 st ;; decode_loop o ms_s os2 st').
Proof.
  induction os1 as [|j os1 IH]; intros st; simpl; [reflexivity|].
  destruct (decode_step o ms_s st j); simpl; [apply IH|reflexivity].
Qed.

Lemma decode_loop_spec (os : list Z) : forall (pre : list Z) (st : dstate),
  decode_inv pb_instance pre st ->
  (forall j, (occ j (pre ++ os) <= ops_of pb_instance j)%nat) ->
  exists st', decode_loop o ms_s os st = Ok st' /\
              decode_inv pb_instance (pre ++ os) st'.
Proof.
  induction os as [|j os IH]; intros pre st Hinv Hfeas.
  - exists st. rewrite app_nil_r. auto.
  - destruct (decode_step_spec pre st j Hinv)
      as (st1 & m & l & c & d & s & Hstep & _ & _ & _ & _ & Hinv1).
    { specialize (Hfeas j). rewrite occ_app in Hfeas.
      change (j :: os) with ([j] ++ os) in Hfeas.
      rewrite occ_app, occ_single, decide_True in Hfeas by reflexivity. lia. }
    simpl. rewrite Hstep. simpl.
    replace (pre ++ j :: os) with ((pre ++ [j]) ++ os)
      by (rewrite <- app_assoc; reflexivity).
    apply IH; [exact Hinv1|].
    intros j'. rewrite <- app_assoc. apply Hfeas.
Qed.
End Decoder.

(** Decoding on instances whose processing times are all positive: the
    decoder returns a schedule; every placement is an earliest fit after the
    job's readiness time on the selected machine; placements of one machine
    do not overlap; consecutive operations of a job respect precedence. *)
Theorem decode_positive_times_correct
    (pb_instance : Instance) (os ms : list Z) :
  valid_instance pb_instance -> positive_times pb_instance ->
  legal_OS pb_instance os -> legal_MS pb_instance ms ->
  exists sched, decode pb_instance os ms = Ok sched /\
    (forall pre j post, os = pre ++ j :: post ->
       exists st st' m l c d s,
         decode_loop (jobs pb_instance) (split_ms pb_instance ms) pre
           (decode_init pb_instance ms) = Ok st /\
         decode_step (jobs pb_instance) (split_ms pb_instance ms) st j = Ok st' /\
         machine_operations st !! m = Some l /\
         start_task_cstr st !! Z.to_nat j = Some c /\
         machine_operations st' =
           <[m := l ++ [mkTask (name_task j (Z.of_nat (occ j pre))) d c s]]>
             (machine_operations st) /\
         earliest_fit c d l s) /\
    (forall m l i i' p p',
       sched !! m = Some l -> l !! i = Some p -> l !! i' = Some p' ->
       i <> i' -> t_end p <= t_start p' \/ t_end p' <= t_start p) /\
    (forall p p' j k,
       placed sched p -> placed sched p' -> 0 <= j ->
       t_name p = name_task j k -> t_name p' = name_task j (k + 1) ->
       t_start p + t_dur p <= t_start p').
Proof.
  intros Hvalid Hpos Hos Hms.
  pose proof (decode_init_inv pb_instance ms Hms) as Hinit.
  destruct (decode_loop_spec pb_instance ms Hvalid Hpos Hms os [] _ Hinit)
    as (st & Hloop & Hinv).
  { intros j. simpl. rewrite (Hos j). lia. }
  exists (machine_operations st). split.
  { unfold decode. rewrite Hloop. reflexivity. }
  split; [|split].
  - intros pre j post ->.
    destruct (decode_loop_spec pb_instance ms Hvalid Hpos Hms pre [] _ Hinit)
      as (st1 & Hloop1 & Hinv1).
    { intros j'. simpl. rewrite <- (Hos j'), occ_app. lia. }
    simpl in Hinv1.
    destruct (decode_step_spec pb_instance ms Hvalid Hpos Hms pre st1 j Hinv1)
      as (st' & m & l & c & d & s & Hstep & Hl & Hc & Hfit & Hmo & _).
    { rewrite <- (Hos j), occ_app. change (j :: post) with ([j] ++ post).
      rewrite occ_app, occ_single, decide_True by reflexivity. lia. }
    exists st1, st', m, l, c, d, s. auto 10.
  - exact (inv_disj _ _ _ Hinv).
  - intros p p' j k Hp Hp' Hj Hn Hn'.
    apply (inv_prec _ _ _ Hinv p p' j k (k + 1)); auto. lia.
Qed.

Lemma inst_zero_valid :
  valid_instance inst_zero /\ legal_OS inst_zero [0] /\ legal_MS inst_zero [0].
Proof.
  split; [|split].
  - repeat constructor; discriminate.
  - intros j. rewrite occ_single. unfold ops_of.
    destruct (decide (0 = j)) as [<-|Hne]; [reflexivity|].
    case_bool_decide; [|reflexivity].
    destruct (Z.to_nat j) as [|n] eqn:Hn; [lia|reflexivity].
  - unfold legal_MS. simpl. constructor; [simpl; lia|constructor].
Qed.

(** ** Facts on the random primitives *)

Lemma randint_spec (a b : Z) (w : world) :
  a <= b ->
  exists x w', randint a b w = Ok (x, w') /\ a <= x <= b /\ heap w' = heap w.
Proof.
  intros Hab. unfold randint.
  destruct (Z.ltb_spec b a) as [|_]; [lia|].
  unfold then_, draw, pure. eexists _, _. split; [reflexivity|].
  split; [|reflexivity].
  pose proof (Z.mod_pos_bound (tape w 0%nat) (b - a + 1)). lia.
Qed.

Lemma sample_loop_ok {A} (k : nat) : forall (pool : list A) (n : Z) (w : world),
  Z.of_nat k <= n <= len pool ->
  exists l w', sample_loop k pool n w = Ok (l, w') /\ heap w' = heap w.
Proof.
  induction k as [|k IH]; intros pool n w Hn.
  - eexists _, _. split; reflexivity.
  - simpl. unfold then_ at 1.
    destruct (randint_spec 0 (n - 1) w) as (j & w1 & Hr & Hj & Hh); [lia|].
    rewrite Hr. unfold len in Hn.
    destruct (lookup_lt_is_Some_2 pool (Z.to_nat j)) as [x Hx]; [lia|].
    destruct (lookup_lt_is_Some_2 pool (Z.to_nat (n - 1))) as [y Hy]; [lia|].
    unfold then_ at 1. rewrite (getitem_lookup pool j x) by (lia || assumption).
    unfold lift at 1.
    unfold then_ at 1. rewrite (getitem_lookup pool (n - 1) y) by (lia || assumption).
    unfold lift at 1.
    unfold then_ at 1. rewrite setitem_insert by lia. unfold lift at 1.
    destruct (IH (<[Z.to_nat j := y]> pool) (n - 1) w1) as (l & w' & Hs & Hh').
    { unfold len. rewrite length_insert. lia. }
    unfold then_. rewrite Hs. eexists _, _. split; [reflexivity|]. congruence.
Qed.

Lemma sample_ok {A} (population : list A) (k : Z) (w : world) :
  0 <= k <= len population ->
  exists l w', sample population k w = Ok (l, w') /\ heap w' = heap w.
Proof.
  intros Hk. unfold sample.
  destruct (Z.ltb_spec k 0); [lia|].
  destruct (Z.ltb_spec (len population) k); [lia|]. simpl.
  apply sample_loop_ok. lia.
Qed.

(** ** POX and JBX keep the multiset of jobs *)

Lemma occ_cons (j x : Z) (l : list Z) :
  occ j (x :: l) = ((if decide (x = j) then 1 else 0) + occ j l)%nat.
Proof.
  change (x :: l) with ([x] ++ l). rewrite occ_app, occ_single. reflexivity.
Qed.

Lemma occ_filter (P : Z -> Prop) `{!forall x, Decision (P x)} (j : Z) (l : list Z) :
  occ j (filter P l) = if decide (P j) then occ j l else 0%nat.
Proof.
  induction l as [|x l IH].
  - destruct (decide (P j)); reflexivity.
  - rewrite filter_cons. destruct (decide (P x)) as [Hx|Hx].
    + rewrite !occ_cons, IH.
      destruct (decide (P j)); [reflexivity|].
      destruct (decide (x = j)); [congruence|reflexivity].
    + rewrite occ_cons, IH.
      destruct (decide (P j)); [|reflexivity].
      destruct (decide (x = j)); [congruence|reflexivity].
Qed.

Lemma occ_zero_not_in (j : Z) (l : list Z) : occ j l = 0%nat -> j ∉ l.
Proof.
  intros H Hin. apply list_elem_of_In in Hin.
  apply (count_occ_In Z.eq_dec) in Hin. unfold occ in H. lia.
Qed.

Lemma same_occ_filter_length (P : Z -> Prop) `{!forall x, Decision (P x)}
    (l1 l2 : list Z) :
  (forall j, occ j l1 = occ j l2) ->
  length (filter P l1) = length (filter P l2).
Proof.
  intros Hsame.
  assert (Permutation l1 l2) as Hp
    by (apply (Permutation_count_occ Z.eq_dec); exact Hsame).
  apply Permutation_length. rewrite Hp. reflexivity.
Qed.

Lemma pox_scan_spec (jobset1 p : list Z) :
  pox_scan p jobset1 =
  (mask jobset1 p, filter (fun e => py_in e jobset1 = false) p).
Proof.
  induction p as [|e p IH]; [reflexivity|].
  simpl. rewrite IH, filter_cons.
  destruct (py_in e jobset1) eqn:He.
  - rewrite decide_False by discriminate. reflexivity.
  - rewrite decide_True by reflexivity. reflexivity.
Qed.

Lemma jbx_scan_spec (jobset p : list Z) :
  jbx_scan p jobset =
  (mask jobset p, filter (fun e => py_in e jobset = true) p).
Proof.
  induction p as [|e p IH]; [reflexivity|].
  simpl. rewrite IH, filter_cons.
  destruct (py_in e jobset) eqn:He.
  - rewrite decide_True by reflexivity. reflexivity.
  - rewrite decide_False by discriminate. reflexivity.
Qed.

Lemma fill_mask (jobset : list Z) (p : list Z) : forall kept : list Z,
  -1 ∉ p ->
  length kept = length (filter (fun e => py_in e jobset = false) p) ->
  exists r, fill (mask jobset p) kept = Ok r /\ length r = length p /\
    forall j, occ j r =
      (occ j (filter (fun e => py_in e jobset = true) p) + occ j kept)%nat.
Proof.
  induction p as [|e p IH]; intros kept Hno Hlen.
  - destruct kept; [|discriminate]. exists []. auto.
  - apply not_elem_of_cons in Hno as [He Hno].
    simpl. rewrite filter_cons in Hlen. rewrite filter_cons.
    destruct (py_in e jobset) eqn:Hin.
    + rewrite decide_False in Hlen by discriminate.
      rewrite decide_True by reflexivity.
      destruct (Z.eqb_spec e (-1)); [congruence|].
      destruct (IH kept Hno Hlen) as (r & Hr & Hl & Hocc).
      rewrite Hr. simpl. exists (e :: r). split; [reflexivity|].
      split; [simpl; congruence|].
      intros j. rewrite !occ_cons, Hocc. lia.
    + rewrite decide_True in Hlen by reflexivity.
      rewrite decide_False by discriminate.
      destruct kept as [|x kept]; [discriminate|]. simpl in Hlen.
      destruct (IH kept Hno) as (r & Hr & Hl & Hocc); [lia|].
      simpl. rewrite Hr. simpl. exists (x :: r). split; [reflexivity|].
      split; [simpl; congruence|].
      intros j. rewrite !occ_cons, Hocc. lia.
Qed.

Lemma legal_OS_no_hole (parameters : Instance) (p : list Z) :
  legal_OS parameters p -> -1 ∉ p.
Proof.
  intros H. apply occ_zero_not_in. rewrite (H (-1)). reflexivity.
Qed.

Lemma legal_OS_range (parameters : Instance) (p : list Z) (e : Z) :
  legal_OS parameters p -> e ∈ p -> 0 <= e < len (jobs parameters).
Proof.
  intros H He.
  assert (0 < ops_of parameters e)%nat as Hpos.
  { rewrite <- (H e). apply list_elem_of_In in He.
    apply (count_occ_In Z.eq_dec) in He. exact He. }
  destruct (ops_of_lookup _ _ Hpos) as (H0 & job & Hjob & _).
  apply lookup_lt_Some in Hjob. unfold len. lia.
Qed.

(** POX on two sequences with the same job counts. *)
Lemma pox_offspring_spec (jobset1 p1 p2 : list Z) :
  -1 ∉ p1 -> -1 ∉ p2 -> (forall j, occ j p1 = occ j p2) ->
  exists o1 o2, pox_offspring jobset1 p1 p2 = Ok (o1, o2) /\
    length o1 = length p1 /\ length o2 = length p2 /\
    (forall j, occ j o1 = occ j p1) /\ (forall j, occ j o2 = occ j p2).
Proof.
  intros H1 H2 Hsame. unfold pox_offspring.
  rewrite !pox_scan_spec.
  destruct (fill_mask jobset1 p1 (filter (fun e => py_in e jobset1 = false) p2) H1)
    as (o1 & Ho1 & Hl1 & Hc1).
  { apply same_occ_filter_length. intros j. symmetry. apply Hsame. }
  destruct (fill_mask jobset1 p2 (filter (fun e => py_in e jobset1 = false) p1) H2)
    as (o2 & Ho2 & Hl2 & Hc2).
  { apply same_occ_filter_length. exact Hsame. }
  rewrite Ho1. simpl. rewrite Ho2. simpl.
  exists o1, o2. split; [reflexivity|]. split; [exact Hl1|]. split; [exact Hl2|].
  split; intros j.
  - rewrite Hc1, !occ_filter, <- (Hsame j).
    destruct (py_in j jobset1) eqn:Hj.
    + rewrite decide_True, decide_False by congruence. lia.
    + rewrite decide_False, decide_True by congruence. lia.
  - rewrite Hc2, !occ_filter, (Hsame j).
    destruct (py_in j jobset1) eqn:Hj.
    + rewrite decide_True, decide_False by congruence. lia.
    + rewrite decide_False, decide_True by congruence. lia.
Qed.

(** On job ids of the range, membership in [jobset2] is non-membership in
    [jobset1]. *)
Lemma py_in_jobset2 (jobsRange jobset1 : list Z) (e : Z) :
  e ∈ jobsRange ->
  py_in e (filter (fun item => py_in item jobset1 = false) jobsRange)
  = negb (py_in e jobset1).
Proof.
  intros He. unfold py_in at 1.
  destruct (py_in e jobset1) eqn:Hin; simpl.
  - apply bool_decide_eq_false_2. intros Hf.
    apply list_elem_of_filter in Hf as [Hf _]. congruence.
  - apply bool_decide_eq_true_2. apply list_elem_of_filter. auto.
Qed.

Lemma filter_ext_elem (P Q : Z -> Prop) `{!forall x, Decision (P x)}
    `{!forall x, Decision (Q x)} (l : list Z) :
  (forall x, x ∈ l -> (P x <-> Q x)) -> filter P l = filter Q l.
Proof.
  induction l as [|x l IH]; intros Hext; [reflexivity|].
  rewrite !filter_cons.
  assert (filter P l = filter Q l) as ->.
  { apply IH. intros y Hy. apply Hext. apply elem_of_cons. auto. }
  destruct (decide (P x)) as [Hp|Hp], (decide (Q x)) as [Hq|Hq];
    try reflexivity; exfalso;
    pose proof (Hext x ltac:(apply elem_of_cons; auto)); tauto.
Qed.

Lemma mask_ext_elem (s s' p : list Z) :
  (forall x, x ∈ p -> py_in x s = py_in x s') -> mask s p = mask s' p.
Proof.
  intros H. unfold mask. apply map_ext_in. intros x Hx.
  apply list_elem_of_In in Hx. rewrite (H x Hx). reflexivity.
Qed.

(** JBX on two sequences with the same job counts, drawn from the range. *)
Lemma jbx_offspring_spec (jobsRange jobset1 p1 p2 : list Z) :
  -1 ∉ p1 -> -1 ∉ p2 -> (forall j, occ j p1 = occ j p2) ->
  (forall e, e ∈ p2 -> e ∈ jobsRange) ->
  exists o1 o2, jbx_offspring jobsRange jobset1 p1 p2 = Ok (o1, o2) /\
    length o1 = length p1 /\ length o2 = length p2 /\
    (forall j, occ j o1 = occ j p1) /\ (forall j, occ j o2 = occ j p2).
Proof.
  intros H1 H2 Hsame Hrange. unfold jbx_offspring.
  set (jobset2 := filter (fun item => py_in item jobset1 = false) jobsRange).
  rewrite !jbx_scan_spec.
  assert (Heq1 : filter (fun e => py_in e jobset2 = true) p2
                 = filter (fun e => py_in e jobset1 = false) p2).
  { apply filter_ext_elem. intros x Hx. unfold jobset2.
    rewrite (py_in_jobset2 _ _ _ (Hrange x Hx)).
    destruct (py_in x jobset1); simpl; split; congruence. }
  assert (Heq2 : filter (fun e => py_in e jobset2 = false) p2
                 = filter (fun e => py_in e jobset1 = true) p2).
  { apply filter_ext_elem. intros x Hx. unfold jobset2.
    rewrite (py_in_jobset2 _ _ _ (Hrange x Hx)).
    destruct (py_in x jobset1); simpl; split; congruence. }
  rewrite Heq1.
  destruct (fill_mask jobset1 p1 (filter (fun e => py_in e jobset1 = false) p2) H1)
    as (o1 & Ho1 & Hl1 & Hc1).
  { apply same_occ_filter_length. intros j. symmetry. apply Hsame. }
  destruct (fill_mask jobset2 p2 (filter (fun e => py_in e jobset1 = true) p1) H2)
    as (o2 & Ho2 & Hl2 & Hc2).
  { rewrite Heq2. apply same_occ_filter_length. exact Hsame. }
  rewrite Ho1. simpl. rewrite Ho2. simpl.
  exists o1, o2. split; [reflexivity|]. split; [exact Hl1|]. split; [exact Hl2|].
  split; intros j.
  - rewrite Hc1, !occ_filter, <- (Hsame j).
    destruct (py_in j jobset1) eqn:Hj.
    + rewrite decide_True, decide_False by congruence. lia.
    + rewrite decide_False, decide_True by congruence. lia.
  - rewrite Hc2, Heq1, !occ_filter, (Hsame j).
    destruct (py_in j jobset1) eqn:Hj.
    + rewrite decide_False, decide_True by congruence. lia.
    + rewrite decide_True, decide_False by congruence. lia.
Qed.

Lemma precedenceOperationCrossover_spec
    (parameters : Instance) (p1 p2 : list Z) (w : world) :
  legal_OS parameters p1 -> legal_OS parameters p2 ->
  exists o1 o2 w',
    precedenceOperationCrossover p1 p2 parameters w = Ok ((o1, o2), w') /\
    legal_OS parameters o1 /\ legal_OS parameters o2 /\
    length o1 = length p1 /\ length o2 = length p2.
Proof.
  intros Hp1 Hp2.
  pose proof (legal_OS_no_hole _ _ Hp1) as Hn1.
  pose proof (legal_OS_no_hole _ _ Hp2) as Hn2.
  assert (Hsame : forall j, occ j p1 = occ j p2)
    by (intros j; rewrite (Hp1 j), (Hp2 j); reflexivity).
  assert (HJ : 0 <= len (jobs parameters)) by (unfold len; lia).
  destruct (randint_spec 0 (len (jobs parameters)) w HJ)
    as (size & w1 & Hsize & Hsz & _).
  unfold precedenceOperationCrossover, then_. rewrite Hsize.
  destruct (sample_ok (range 1 (len (jobs parameters) + 1)) size w1)
    as (jobset1 & w2 & Hs & _).
  { unfold range, len in *. rewrite length_seqZ. lia. }
  rewrite Hs.
  destruct (pox_offspring_spec jobset1 p1 p2 Hn1 Hn2 Hsame)
    as (o1 & o2 & Ho & Hl1 & Hl2 & Hc1 & Hc2).
  unfold lift. rewrite Ho. exists o1, o2, w2.
  split; [reflexivity|]. split; [|split; [|split; assumption]].
  - intros j. rewrite Hc1. apply Hp1.
  - intros j. rewrite Hc2. apply Hp2.
Qed.

Lemma jobBasedCrossover_spec
    (parameters : Instance) (p1 p2 : list Z) (w : world) :
  legal_OS parameters p1 -> legal_OS parameters p2 ->
  exists o1 o2 w',
    jobBasedCrossover p1 p2 parameters w = Ok ((o1, o2), w') /\
    legal_OS parameters o1 /\ legal_OS parameters o2 /\
    length o1 = length p1 /\ length o2 = length p2.
Proof.
  intros Hp1 Hp2.
  pose proof (legal_OS_no_hole _ _ Hp1) as Hn1.
  pose proof (legal_OS_no_hole _ _ Hp2) as Hn2.
  assert (Hsame : forall j, occ j p1 = occ j p2)
    by (intros j; rewrite (Hp1 j), (Hp2 j); reflexivity).
  assert (HJ : 0 <= len (jobs parameters)) by (unfold len; lia).
  destruct (randint_spec 0 (len (jobs parameters)) w HJ)
    as (size & w1 & Hsize & Hsz & _).
  unfold jobBasedCrossover, then_. rewrite Hsize.
  destruct (sample_ok (range 0 (len (jobs parameters))) size w1)
    as (jobset1 & w2 & Hs & _).
  { unfold range, len in *. rewrite length_seqZ. lia. }
  rewrite Hs.
  destruct (jbx_offspring_spec (range 0 (len (jobs parameters))) jobset1
              p1 p2 Hn1 Hn2 Hsame)
    as (o1 & o2 & Ho & Hl1 & Hl2 & Hc1 & Hc2).
  { intros e He. unfold range. apply elem_of_seqZ.
    pose proof (legal_OS_range _ _ _ Hp2 He). lia. }
  unfold lift. rewrite Ho. exists o1, o2, w2.
  split; [reflexivity|]. split; [|split; [|split; assumption]].
  - intros j. rewrite Hc1. apply Hp1.
  - intros j. rewrite Hc2. apply Hp2.
Qed.

(** C2.  For OS parents that satisfy the multiplicity invariant, whatever
    the random draws, POX and JBX each return two offspring that satisfy it
    again and have the length of the parents. *)
Theorem crossover_OS_keeps_multiplicity
    (parameters : Instance) (p1 p2 : list Z) (w : world) :
  legal_OS parameters p1 -> legal_OS parameters p2 ->
  (exists o1 o2 w',
     precedenceOperationCrossover p1 p2 parameters w = Ok ((o1, o2), w') /\
     legal_OS parameters o1 /\ legal_OS parameters o2 /\
     length o1 = length p1 /\ length o2 = length p2) /\
  (exists o1 o2 w',
     jobBasedCrossover p1 p2 parameters w = Ok ((o1, o2), w') /\
     legal_OS parameters o1 /\ legal_OS parameters o2 /\
     length o1 = length p1 /\ length o2 = length p2).
Proof.
  intros Hp1 Hp2. split.
  - apply precedenceOperationCrossover_spec; assumption.
  - apply jobBasedCrossover_spec; assumption.
Qed.

Lemma legal_OSb_spec (parameters : Instance) (os : list Z) :
  legal_OSb parameters os = true -> legal_OS parameters os.
Proof.
  unfold legal_OSb. intros Hb. apply andb_true_iff in Hb as [Hin Hcnt].
  rewrite forallb_forall in Hin. rewrite forallb_forall in Hcnt.
  intros j. destruct (decide (0 <= j < len (jobs parameters))) as [Hj|Hj].
  - apply Nat.eqb_eq, Hcnt. apply list_elem_of_In. unfold range.
    apply elem_of_seqZ. lia.
  - assert (occ j os = 0%nat) as ->.
    { apply (count_occ_not_In Z.eq_dec). intros Hi.
      specialize (Hin j Hi). apply andb_true_iff in Hin as [H1 H2].
      apply Z.leb_le in H1. apply Z.ltb_lt in H2. lia. }
    unfold ops_of. case_bool_decide; [|reflexivity].
    rewrite lookup_ge_None_2; [reflexivity|]. unfold len in Hj. lia.
Qed.

(** ** Selection returns individuals of its input *)

Lemma with_keys_ok {A} (key : A -> res Z) (l : list A) :
  Forall (fun x => exists k, key x = Ok k) l ->
  exists kl, with_keys key l = Ok kl /\ map snd kl = l.
Proof.
  induction 1 as [|x l [k Hk] _ (kl & Hkl & Hm)].
  - exists []. auto.
  - simpl. rewrite Hk. simpl. rewrite Hkl. simpl.
    exists ((k, x) :: kl). split; [reflexivity|]. simpl. congruence.
Qed.

Lemma insert_key_perm {A} (k : Z) (x : A) (l : list (Z * A)) :
  Permutation (insert_key k x l) ((k, x) :: l).
Proof.
  induction l as [|[k' y] l IH]; simpl; [reflexivity|].
  destruct (k <=? k'); [reflexivity|].
  rewrite IH. apply perm_swap.
Qed.

Lemma sort_keyed_perm {A} (l : list (Z * A)) : Permutation (sort_keyed l) l.
Proof.
  induction l as [|[k x] l IH]; simpl; [reflexivity|].
  unfold sort_keyed in *. simpl. rewrite insert_key_perm, IH. reflexivity.
Qed.

Lemma sorted_by_ok {A} (key : A -> res Z) (l : list A) :
  Forall (fun x => exists k, key x = Ok k) l ->
  exists s, sorted_by key l = Ok s /\ Permutation s l.
Proof.
  intros Hall. destruct (with_keys_ok key l Hall) as (kl & Hkl & Hm).
  unfold sorted_by. rewrite Hkl. simpl. eexists. split; [reflexivity|].
  rewrite <- Hm. apply Permutation_map, sort_keyed_perm.
Qed.

Lemma slice_to_elem {A} (l : list A) (k : Z) (x : A) :
  x ∈ slice_to l k -> x ∈ l.
Proof.
  unfold slice_to. destruct (0 <=? k); apply subseteq_take.
Qed.

Lemma slice_to_length {A} (l : list A) (k : Z) :
  (length (slice_to l k) <= length l)%nat.
Proof.
  unfold slice_to. destruct (0 <=? k); rewrite length_take; lia.
Qed.

Lemma elitistSelection_ok (pr : Q) (population : list chromosome)
    (parameters : Instance) :
  Forall (fun c => exists t, timeTaken parameters c = Ok t) population ->
  exists kept, elitistSelection pr population parameters = Ok kept /\
    (length kept <= length population)%nat /\
    forall c, c ∈ kept -> c ∈ population.
Proof.
  intros Hall. unfold elitistSelection.
  destruct (sorted_by_ok _ _ Hall) as (s & Hs & Hp). rewrite Hs. simpl.
  eexists. split; [reflexivity|]. split.
  - rewrite <- (Permutation_length Hp). apply slice_to_length.
  - intros c Hc. apply slice_to_elem in Hc. rewrite <- Hp. exact Hc.
Qed.

Lemma tournamentSelection_ok (population : list chromosome)
    (parameters : Instance) (w : world) :
  population <> [] ->
  Forall (fun c => exists t, timeTaken parameters c = Ok t) population ->
  exists c w', tournamentSelection population parameters w = Ok (c, w') /\
               c ∈ population.
Proof.
  intros Hne Hall. unfold tournamentSelection.
  assert (0 <= len population - 1) as Hlen
    by (unfold len; destruct population; [congruence|simpl; lia]).
  destruct (randint_spec 0 _ w Hlen) as (i1 & w1 & Hr1 & Hi1 & _).
  destruct (randint_spec 0 _ w1 Hlen) as (i2 & w2 & Hr2 & Hi2 & _).
  unfold len in *.
  destruct (lookup_lt_is_Some_2 population (Z.to_nat i1)) as [c1 Hc1]; [lia|].
  destruct (lookup_lt_is_Some_2 population (Z.to_nat i2)) as [c2 Hc2]; [lia|].
  rewrite Forall_forall in Hall.
  pose proof (list_elem_of_lookup_2 _ _ _ Hc1) as Hin1.
  pose proof (list_elem_of_lookup_2 _ _ _ Hc2) as Hin2.
  destruct (Hall c1 Hin1) as [k1 Hk1]. destruct (Hall c2 Hin2) as [k2 Hk2].
  unfold then_ at 1. rewrite Hr1.
  unfold then_ at 1. rewrite (getitem_lookup population i1 c1) by (lia || done).
  unfold lift at 1.
  unfold then_ at 1. rewrite Hr2.
  unfold then_ at 1. rewrite (getitem_lookup population i2 c2) by (lia || done).
  unfold lift at 1.
  unfold then_ at 1. rewrite Hk1. unfold lift at 1.
  unfold then_ at 1. rewrite Hk2. unfold lift at 1.
  unfold pure. eexists _, _. split; [reflexivity|].
  destruct (k2 <? k1); assumption.
Qed.

Lemma selection_loop_ok (population : list chromosome) (parameters : Instance)
    (fuel : nat) : forall (newPop : list chromosome) (w : world),
  Forall (fun c => exists t, timeTaken parameters c = Ok t) population ->
  (length newPop <= length population)%nat ->
  (length population - length newPop <= fuel)%nat ->
  exists r w',
    selection_loop fuel newPop population parameters w = Some (Ok (r, w')) /\
    length r = length population /\
    forall c, c ∈ r -> c ∈ newPop \/ c ∈ population.
Proof.
  induction fuel as [|fuel IH]; intros newPop w Hall Hle Hfuel.
  - exists newPop, w. simpl. unfold len.
    destruct (Z.ltb_spec (Z.of_nat (length newPop)) (Z.of_nat (length population)));
      [lia|].
    split; [reflexivity|]. split; [lia|]. auto.
  - simpl. unfold len.
    destruct (Z.ltb_spec (Z.of_nat (length newPop)) (Z.of_nat (length population)))
      as [Hlt|Hge].
    + destruct (tournamentSelection_ok population parameters w)
        as (c & w1 & Ht & Hc); [|exact Hall|].
      { intros ->. simpl in Hlt. lia. }
      rewrite Ht.
      destruct (IH (newPop ++ [c]) w1 Hall) as (r & w' & Hr & Hl & Hin).
      { rewrite length_app. simpl. lia. }
      { rewrite length_app. simpl. lia. }
      exists r, w'. split; [exact Hr|]. split; [exact Hl|].
      intros x Hx. destruct (Hin x Hx) as [Hx'|Hx']; [|auto].
      apply elem_of_app in Hx' as [Hx'|Hx']; [auto|].
      apply list_elem_of_singleton in Hx'. subst. auto.
    + exists newPop, w. split; [reflexivity|]. split; [lia|]. auto.
Qed.

(** C10.  Selection (the elitist slice, then binary tournaments until the
    size is restored) returns a population of the length of its input in
    which every chromosome is an element of the input, whatever the random
    draws and the selection rate; the loop needs at most [len(population)]
    iterations.  The fitness of every individual must be defined. *)
Theorem selection_closed (pr : Q) (population : list chromosome)
    (parameters : Instance) (w : world) (fuel : nat) :
  Forall (fun c => exists t, timeTaken parameters c = Ok t) population ->
  (length population <= fuel)%nat ->
  exists newPop w',
    selection fuel pr population parameters w = Some (Ok (newPop, w')) /\
    length newPop = length population /\
    forall c, c ∈ newPop -> c ∈ population.
Proof.
  intros Hall Hfuel. unfold selection, thenF, liftM, lift.
  destruct (elitistSelection_ok pr population parameters Hall)
    as (kept & Hk & Hlen & Hin).
  rewrite Hk.
  destruct (selection_loop_ok population parameters fuel kept w Hall Hlen)
    as (r & w' & Hr & Hl & Hsub); [lia|].
  exists r, w'. split; [exact Hr|]. split; [exact Hl|].
  intros c Hc. destruct (Hsub c Hc); auto.
Qed.

(** ** Population-level crossover *)

Lemma choice_bool_ok (w : world) :
  exists b w', choice [true; false] w = Ok (b, w') /\ heap w' = heap w.
Proof.
  unfold choice, then_, draw, lift, len. simpl length.
  pose proof (Z.mod_pos_bound (tape w 0%nat) 2 ltac:(lia)) as Hm.
  destruct (lookup_lt_is_Some_2 [true; false] (Z.to_nat (tape w 0%nat mod 2)))
    as [b Hb]; [simpl; lia|].
  rewrite (getitem_lookup _ _ b) by (lia || exact Hb).
  eexists _, _. split; reflexivity.
Qed.

Lemma random_ok (w : world) :
  exists r w', random w = Ok (r, w') /\ heap w' = heap w.
Proof. unfold random, then_, draw, pure. eexists _, _. split; reflexivity. Qed.

Lemma twoPointCrossover_ok (p1 p2 : list Z) (w : world) :
  p1 <> [] ->
  exists o1 o2 w', twoPointCrossover p1 p2 w = Ok ((o1, o2), w').
Proof.
  intros Hne. unfold twoPointCrossover.
  assert (0 <= len p1 - 1) as Hlen
    by (unfold len; destruct p1; [congruence|simpl; lia]).
  destruct (randint_spec 0 _ w Hlen) as (pos1 & w1 & Hr1 & _ & _).
  destruct (randint_spec 0 _ w1 Hlen) as (pos2 & w2 & Hr2 & _ & _).
  unfold then_ at 1. rewrite Hr1. unfold then_ at 1. rewrite Hr2.
  destruct (pos2 <? pos1); unfold pure; eexists _, _, _; reflexivity.
Qed.

Lemma crossoverOS_ok (parameters : Instance) (p1 p2 : list Z) (w : world) :
  legal_OS parameters p1 -> legal_OS parameters p2 ->
  exists o1 o2 w', crossoverOS p1 p2 parameters w = Ok ((o1, o2), w').
Proof.
  intros Hp1 Hp2. unfold crossoverOS.
  destruct (choice_bool_ok w) as (b & w1 & Hb & _).
  unfold then_. rewrite Hb. destruct b.
  - destruct (precedenceOperationCrossover_spec parameters p1 p2 w1 Hp1 Hp2)
      as (o1 & o2 & w' & H & _). eauto.
  - destruct (jobBasedCrossover_spec parameters p1 p2 w1 Hp1 Hp2)
      as (o1 & o2 & w' & H & _). eauto.
Qed.

Lemma crossover_pairs_in_order (parameters : Instance) (pc : Q) (n : nat) :
  forall (population : list chromosome) (w : world),
  length population = (2 * n)%nat ->
  Forall (fun c : chromosome => legal_OS parameters c.1 /\ c.2 <> [])
         population ->
  exists newPop w', crossover population parameters pc w = Ok (newPop, w') /\
    length newPop = length population /\
    forall (i : nat) (c1 c2 : chromosome),
      population !! (2 * i)%nat = Some c1 ->
      population !! (2 * i + 1)%nat = Some c2 ->
      exists c1' c2',
        newPop !! (2 * i)%nat = Some c1' /\
        newPop !! (2 * i + 1)%nat = Some c2' /\
        pair_crossed parameters c1 c2 c1' c2'.
Proof.
  induction n as [|n IH]; intros population w Hlen Hall.
  - destruct population; [|discriminate].
    eexists _, _. split; [reflexivity|]. split; [reflexivity|].
    intros i c1 c2 H. rewrite lookup_nil in H. discriminate.
  - destruct population as [|[OS1 MS1] [|[OS2 MS2] rest]];
      try (simpl in Hlen; lia).
    apply Forall_cons in Hall as [[Ho1 Hm1] Hall].
    apply Forall_cons in Hall as [[Ho2 Hm2] Hall].
    simpl in Ho1, Hm1, Ho2, Hm2.
    cbn [crossover].
    destruct (random_ok w) as (r & w1 & Hr & _).
    unfold then_ at 1. rewrite Hr.
    assert (exists c1' c2' w2,
      (if Qlt_le_dec r pc
       then oOS <~ crossoverOS OS1 OS2 parameters ;;
            oMS <~ crossoverMS MS1 MS2 ;;
            pure [(oOS.1, oMS.1); (oOS.2, oMS.2)]
       else pure [(OS1, MS1); (OS2, MS2)]) w1 = Ok ([c1'; c2'], w2) /\
      pair_crossed parameters (OS1, MS1) (OS2, MS2) c1' c2')
      as (c1' & c2' & w2 & Hpair & Hcrossed).
    { destruct (Qlt_le_dec r pc).
      - destruct (crossoverOS_ok parameters OS1 OS2 w1 Ho1 Ho2)
          as (o1 & o2 & w2 & Hos).
        destruct (twoPointCrossover_ok MS1 MS2 w2 Hm1) as (m1 & m2 & w3 & Hms).
        unfold then_ at 1. rewrite Hos.
        unfold then_ at 1. unfold crossoverMS. rewrite Hms.
        exists (o1, m1), (o2, m2), w3. split; [reflexivity|].
        right. exists w1, w2, w3. split; [exact Hos|exact Hms].
      - exists (OS1, MS1), (OS2, MS2), w1. split; [reflexivity|].
        left. split; reflexivity. }
    unfold then_ at 1. rewrite Hpair.
    destruct (IH rest w2) as (newPop & w' & Hrest & Hl & Hord);
      [simpl in Hlen; lia|exact Hall|].
    unfold then_. rewrite Hrest. unfold pure.
    eexists _, _. split; [reflexivity|]. split.
    { simpl. rewrite Hl. reflexivity. }
    intros i c1 c2 H1 H2. destruct i as [|i].
    + simpl in H1, H2. injection H1 as <-. injection H2 as <-.
      exists c1', c2'. split; [reflexivity|]. split; [reflexivity|exact Hcrossed].
    + replace (2 * S i)%nat with (S (S (2 * i))) in * by lia.
      replace (S (S (2 * i)) + 1)%nat with (S (S (2 * i + 1))) in * by lia.
      simpl in H1, H2. simpl. exact (Hord i c1 c2 H1 H2).
Qed.

(** C9 (amended).  On a population of even size whose chromosomes have a
    legal OS and a non-empty MS, crossover returns a population of the same
    size, whatever the random draws, and it does so pairwise and in order:
    positions [2i] and [2i+1] of the result hold either the individuals at
    positions [2i] and [2i+1] of the population, or the two offspring of
    exactly these two. *)
Theorem crossover_even_population
    (parameters : Instance) (pc : Q) (population : list chromosome)
    (w : world) :
  Nat.Even (length population) ->
  Forall (fun c : chromosome => legal_OS parameters c.1 /\ c.2 <> [])
         population ->
  exists newPop w', crossover population parameters pc w = Ok (newPop, w') /\
    length newPop = length population /\
    forall (i : nat) (c1 c2 : chromosome),
      population !! (2 * i)%nat = Some c1 ->
      population !! (2 * i + 1)%nat = Some c2 ->
      exists c1' c2',
        newPop !! (2 * i)%nat = Some c1' /\
        newPop !! (2 * i + 1)%nat = Some c2' /\
        pair_crossed parameters c1 c2 c1' c2'.
Proof.
  intros [n Hn] Hall.
  exact (crossover_pairs_in_order parameters pc n population w Hn Hall).
Qed.

(** ** Neighbourhood mutation: the two resampling loops *)

Lemma position_of_range (p : list Z) (d : Z) :
  p <> [] -> 0 <= position_of p d < len p.
Proof.
  intros Hne. unfold position_of, len.
  assert (0 < Z.of_nat (length p)) by (destruct p; [congruence|simpl; lia]).
  pose proof (Z.mod_pos_bound d (Z.of_nat (length p) - 1 - 0 + 1)). lia.
Qed.

Lemma randint_position (p : list Z) (w : world) :
  p <> [] ->
  exists w', randint 0 (len p - 1) w = Ok (position_of p (tape w 0%nat), w') /\
             heap w' = heap w /\ forall k, tape w' k = tape w (S k).
Proof.
  intros Hne. unfold randint.
  pose proof (position_of_range p 0 Hne).
  destruct (Z.ltb_spec (len p - 1) 0); [lia|].
  eexists. split; [reflexivity|]. split; reflexivity.
Qed.

Lemma getitem_value (p : list Z) (pos : Z) :
  0 <= pos < len p -> getitem p pos = Ok (value_at p pos).
Proof.
  intros Hpos. unfold len in Hpos.
  destruct (lookup_lt_is_Some_2 p (Z.to_nat pos)) as [x Hx]; [lia|].
  unfold value_at. rewrite Hx. apply getitem_lookup; [lia|exact Hx].
Qed.

Lemma same_value_spec (p : list Z) (pos1 pos2 : Z) :
  0 <= pos1 < len p -> 0 <= pos2 < len p ->
  same_value p pos1 pos2 = Ok (value_at p pos2 =? value_at p pos1).
Proof.
  intros H1 H2. unfold same_value.
  rewrite !getitem_value by assumption. reflexivity.
Qed.

Lemma same_as_either_spec (p : list Z) (pos1 pos2 pos3 : Z) :
  0 <= pos1 < len p -> 0 <= pos2 < len p -> 0 <= pos3 < len p ->
  same_as_either p pos1 pos2 pos3 =
  Ok ((value_at p pos3 =? value_at p pos2) || (value_at p pos3 =? value_at p pos1)).
Proof.
  intros H1 H2 H3. unfold same_as_either.
  rewrite !getitem_value by assumption. simpl.
  destruct (value_at p pos3 =? value_at p pos2); reflexivity.
Qed.

(** A loop whose condition holds at every position never exits. *)
Lemma resample_stuck (p : list Z) (again : Z -> res bool) (fuel : nat) :
  forall (pos : Z) (w : world),
  p <> [] ->
  (forall x, 0 <= x < len p -> again x = Ok true) ->
  0 <= pos < len p ->
  resample fuel p again pos w = None.
Proof.
  induction fuel as [|fuel IH]; intros pos w Hne Hall Hpos; simpl;
    rewrite (Hall pos Hpos); [reflexivity|].
  destruct (randint_position p w Hne) as (w' & Hr & _). rewrite Hr.
  apply IH; [exact Hne|exact Hall|]. apply position_of_range, Hne.
Qed.

(** A loop that exits returns an in-range position where its condition is
    false. *)
Lemma resample_exit (p : list Z) (again : Z -> res bool) (fuel : nat) :
  forall (pos : Z) (w : world) r,
  p <> [] ->
  (forall x, 0 <= x < len p -> exists b, again x = Ok b) ->
  0 <= pos < len p ->
  resample fuel p again pos w = Some r ->
  exists pos' w', r = Ok (pos', w') /\ 0 <= pos' < len p /\
                  again pos' = Ok false.
Proof.
  induction fuel as [|fuel IH]; intros pos w r Hne Hall Hpos; simpl;
    destruct (Hall pos Hpos) as [[|] Hb]; rewrite Hb; try discriminate;
    try (intros [= <-]; eauto).
  destruct (randint_position p w Hne) as (w' & Hr & _). rewrite Hr.
  apply IH; [exact Hne|exact Hall|]. apply position_of_range, Hne.
Qed.

(** The loop draws until the first position where its condition is false:
    with [n] failed draws before it, [n + 1] units of fuel are needed and
    enough. *)
Lemma resample_draws (p : list Z) (again : Z -> res bool) (n : nat) :
  forall (fuel : nat) (pos : Z) (w : world),
  p <> [] ->
  again pos = Ok true ->
  (forall k, (k < n)%nat -> again (position_of p (tape w k)) = Ok true) ->
  again (position_of p (tape w n)) = Ok false ->
  ((fuel <= n)%nat -> resample fuel p again pos w = None) /\
  ((n < fuel)%nat ->
   exists w', resample fuel p again pos w
              = Some (Ok (position_of p (tape w n), w')) /\
              heap w' = heap w /\
              forall k, tape w' k = tape w (S n + k)%nat).
Proof.
  induction n as [|n IH]; intros fuel pos w Hne Hpos Hbefore Hat.
  - split; intros Hfuel.
    + destruct fuel; [|lia]. simpl. rewrite Hpos. reflexivity.
    + destruct fuel as [|fuel]; [lia|]. simpl. rewrite Hpos.
      destruct (randint_position p w Hne) as (w' & Hr & Hh & Ht). rewrite Hr.
      exists w'. split; [|auto].
      destruct fuel; simpl; rewrite Hat; reflexivity.
  - destruct (randint_position p w Hne) as (w1 & Hr & Hh & Ht).
    assert (Hfirst : again (position_of p (tape w 0%nat)) = Ok true)
      by (apply Hbefore; lia).
    assert (Hbefore1 : forall k, (k < n)%nat ->
              again (position_of p (tape w1 k)) = Ok true).
    { intros k Hk. rewrite Ht. apply Hbefore. lia. }
    assert (Hat1 : again (position_of p (tape w1 n)) = Ok false)
      by (rewrite Ht; exact Hat).
    split; intros Hfuel.
    + destruct fuel as [|fuel]; simpl; rewrite Hpos; [reflexivity|].
      rewrite Hr.
      apply (IH fuel _ w1 Hne Hfirst Hbefore1 Hat1). lia.
    + destruct fuel as [|fuel]; [lia|]. simpl. rewrite Hpos, Hr.
      destruct (proj2 (IH fuel _ w1 Hne Hfirst Hbefore1 Hat1))
        as (w' & Hres & Hh' & Ht'); [lia|].
      exists w'. rewrite Hres, <- Ht. split; [reflexivity|].
      split; [congruence|].
      intros k. rewrite Ht', Ht. f_equal.
Qed.

Lemma sorted_three (a b c : Z) :
  exists x y z, sorted_ints [a; b; c] = [x; y; z] /\
    (x = a \/ x = b \/ x = c) /\ (y = a \/ y = b \/ y = c) /\
    (z = a \/ z = b \/ z = c).
Proof.
  unfold sorted_ints, sort_keyed. simpl.
  destruct (b <=? c); simpl;
    destruct (a <=? b); simpl; try destruct (a <=? c); simpl;
    eexists _, _, _; (split; [reflexivity|]); tauto.
Qed.

Lemma choice_elem {A} (seq : list A) (w : world) :
  seq <> [] ->
  exists x w', choice seq w = Ok (x, w') /\ x ∈ seq /\ heap w' = heap w.
Proof.
  intros Hne. destruct seq as [|a seq]; [congruence|].
  unfold choice, then_, draw, lift.
  assert (0 < len (a :: seq)) as Hlen by (unfold len; simpl; lia).
  pose proof (Z.mod_pos_bound (tape w 0%nat) (len (a :: seq)) Hlen) as Hm.
  destruct (lookup_lt_is_Some_2 (a :: seq)
              (Z.to_nat (tape w 0%nat mod len (a :: seq)))) as [x Hx].
  { unfold len in *. lia. }
  rewrite (getitem_lookup _ _ x) by (lia || exact Hx).
  eexists _, _. split; [reflexivity|]. split; [|reflexivity].
  eapply list_elem_of_lookup_2, Hx.
Qed.

Lemma neighborhood_build_ok (p : list Z) (pos1 pos2 pos3 : Z) (w : world) :
  0 <= pos1 < len p -> 0 <= pos2 < len p -> 0 <= pos3 < len p ->
  exists off w', neighborhood_build p pos1 pos2 pos3 w = Ok (off, w') /\
                 heap w' = heap w.
Proof.
  intros H1 H2 H3. unfold neighborhood_build.
  destruct (sorted_three pos1 pos2 pos3) as (x & y & z & -> & Hx & Hy & Hz).
  assert (0 <= x < len p) as Hxr by (destruct Hx as [->|[->| ->]]; assumption).
  assert (0 <= y < len p) as Hyr by (destruct Hy as [->|[->| ->]]; assumption).
  assert (0 <= z < len p) as Hzr by (destruct Hz as [->|[->| ->]]; assumption).
  change (getitem [x; y; z] 0) with (Ok (A := Z) x).
  change (getitem [x; y; z] 1) with (Ok (A := Z) y).
  change (getitem [x; y; z] 2) with (Ok (A := Z) z).
  unfold then_ at 1, lift at 1. unfold then_ at 1, lift at 1.
  unfold then_ at 1, lift at 1.
  rewrite !getitem_value by assumption.
  unfold then_ at 1, lift at 1. unfold then_ at 1, lift at 1.
  unfold then_ at 1, lift at 1.
  destruct (choice_elem (permutations3 (value_at p x) (value_at p y) (value_at p z)) w)
    as (perm & w' & Hc & Hin & Hh); [discriminate|].
  unfold then_ at 1. rewrite Hc.
  unfold permutations3 in Hin.
  repeat (apply elem_of_cons in Hin as [->|Hin]);
    [eexists _, _; split; [reflexivity|exact Hh] ..|inversion Hin].
Qed.

(** C7 (amended).  [neighborhoodMutation] resamples with no retry budget
    and no fallback: when the first loop meets [n2] positions holding the
    first value before one that differs, and the second loop then meets
    [n3] positions holding one of the two values before one that differs
    from both, the function returns an offspring after exactly these
    retries; with less fuel than the larger of the two counts it has not
    returned. *)
Theorem neighborhoodMutation_returns_when_drawn
    (p : list Z) (w : world) (n2 n3 fuel : nat) :
  p <> [] ->
  (forall k, (1 <= k <= n2)%nat ->
     value_at p (position_of p (tape w k))
     = value_at p (position_of p (tape w 0%nat))) ->
  value_at p (position_of p (tape w (S n2)))
    <> value_at p (position_of p (tape w 0%nat)) ->
  (forall k, (n2 + 2 <= k <= n2 + 1 + n3)%nat ->
     value_at p (position_of p (tape w k))
       = value_at p (position_of p (tape w (S n2))) \/
     value_at p (position_of p (tape w k))
       = value_at p (position_of p (tape w 0%nat))) ->
  value_at p (position_of p (tape w (n2 + n3 + 2)%nat))
    <> value_at p (position_of p (tape w (S n2))) ->
  value_at p (position_of p (tape w (n2 + n3 + 2)%nat))
    <> value_at p (position_of p (tape w 0%nat)) ->
  ((fuel <= Nat.max n2 n3)%nat -> neighborhoodMutation fuel p w = None) /\
  ((Nat.max n2 n3 < fuel)%nat ->
   exists off w', neighborhoodMutation fuel p w = Some (Ok (off, w')) /\
                  heap w' = heap w).
Proof.
  intros Hne Hsame2 Hdiff2 Hsame3 Hdiff3a Hdiff3b.
  destruct (randint_position p w Hne) as (w1 & Hr1 & Hh1 & Ht1).
  set (pos1 := position_of p (tape w 0%nat)) in *.
  set (pos2 := position_of p (tape w (S n2))) in *.
  pose proof (position_of_range p (tape w 0%nat) Hne) as Hp1. fold pos1 in Hp1.
  pose proof (position_of_range p (tape w (S n2)) Hne) as Hp2. fold pos2 in Hp2.
  assert (Hrange : forall d, 0 <= position_of p d < len p)
    by (intros d; apply position_of_range, Hne).
  (* the first loop *)
  destruct (resample_draws p (same_value p pos1) n2 fuel pos1 w1 Hne)
    as [Hnone2 Hsome2].
  { rewrite same_value_spec by assumption. rewrite Z.eqb_refl. reflexivity. }
  { intros k Hk. rewrite same_value_spec by auto. rewrite Ht1.
    rewrite Hsame2 by lia. fold pos1. rewrite Z.eqb_refl. reflexivity. }
  { rewrite same_value_spec by auto. rewrite Ht1. fold pos2.
    destruct (Z.eqb_spec (value_at p pos2) (value_at p pos1)); [tauto|reflexivity]. }
  assert (Heq : neighborhoodMutation fuel p w =
            match resample fuel p (same_value p pos1) pos1 w1 with
            | None => None
            | Some (Raise e) => Some (Raise e)
            | Some (Ok (x2, w2)) =>
                match resample fuel p (same_as_either p pos1 x2) pos1 w2 with
                | None => None
                | Some (Raise e) => Some (Raise e)
                | Some (Ok (x3, w3)) => Some (neighborhood_build p pos1 x2 x3 w3)
                end
            end).
  { unfold neighborhoodMutation, thenF, liftM. rewrite Hr1. reflexivity. }
  rewrite Heq. clear Heq.
  destruct (le_lt_dec fuel n2) as [Hf2|Hf2].
  { split; [|lia]. intros _. rewrite (Hnone2 Hf2). reflexivity. }
  destruct (Hsome2 Hf2) as (w2 & Hres2 & Hh2 & Ht2).
  rewrite Ht1 in Hres2. fold pos2 in Hres2. rewrite Hres2.
  (* the second loop *)
  destruct (resample_draws p (same_as_either p pos1 pos2) n3 fuel pos1 w2 Hne)
    as [Hnone3 Hsome3].
  { rewrite same_as_either_spec by assumption.
    rewrite (Z.eqb_refl (value_at p pos1)). apply f_equal, orb_true_r. }
  { intros k Hk. rewrite same_as_either_spec by auto. rewrite Ht2, Ht1.
    destruct (Hsame3 (S (S n2 + k))) as [He|He]; [lia|..]; fold pos1 pos2 in He;
      rewrite He, Z.eqb_refl; [reflexivity|apply f_equal, orb_true_r]. }
  { rewrite same_as_either_spec by auto. rewrite Ht2, Ht1.
    replace (S (S n2 + n3)) with (n2 + n3 + 2)%nat by lia.
    destruct (Z.eqb_spec (value_at p (position_of p (tape w (n2 + n3 + 2)%nat)))
                         (value_at p pos2)); [tauto|].
    destruct (Z.eqb_spec (value_at p (position_of p (tape w (n2 + n3 + 2)%nat)))
                         (value_at p pos1)); [tauto|reflexivity]. }
  destruct (le_lt_dec fuel n3) as [Hf3|Hf3].
  { split; [|lia]. intros _. rewrite (Hnone3 Hf3). reflexivity. }
  split; [lia|]. intros _.
  destruct (Hsome3 Hf3) as (w3 & Hres3 & Hh3 & Ht3).
  rewrite Hres3.
  destruct (neighborhood_build_ok p pos1 pos2 (position_of p (tape w2 n3)) w3)
    as (off & w' & Hb & Hh'); [auto..|].
  exists off, w'. split; [rewrite Hb; reflexivity|]. congruence.
Qed.

(** C7, as stated, fails on an OS over two jobs: no fuel and no draws make
    [neighborhoodMutation] return on it. *)
Lemma neighborhoodMutation_two_jobs_never_returns :
  ~ (exists fuel w r, neighborhoodMutation fuel [0; 1] w = Some r).
Proof.
  intros (fuel & w & r & H).
  assert (Hne : [0; 1] <> []) by discriminate.
  assert (Hcases : forall x, 0 <= x < len [0; 1] -> x = 0 \/ x = 1)
    by (unfold len; simpl; lia).
  destruct (randint_position [0; 1] w Hne) as (w1 & Hr1 & _).
  pose proof (position_of_range [0; 1] (tape w 0%nat) Hne) as Hp1.
  unfold neighborhoodMutation, thenF at 1, liftM at 1 in H. rewrite Hr1 in H.
  unfold thenF at 1 in H.
  destruct (resample fuel [0; 1] _ _ w1) as [r2|] eqn:E2; [|discriminate].
  apply resample_exit in E2 as (pos2 & w2 & -> & Hp2 & Hexit); [|exact Hne| |exact Hp1].
  2:{ intros x Hx. rewrite same_value_spec by assumption. eauto. }
  unfold thenF at 1 in H.
  rewrite resample_stuck in H; [discriminate|exact Hne| |exact Hp1].
  intros x Hx.
  destruct (Hcases _ Hp1) as [E1|E1], (Hcases _ Hp2) as [E2|E2],
    (Hcases _ Hx) as [E3|E3]; rewrite E1, E2 in *; rewrite E3;
    try reflexivity; discriminate Hexit.
Qed.

(** ** Order of the per-machine lists *)

Lemma getitem_inv {A} (l : list A) (i : Z) (x : A) :
  getitem l i = Ok x ->
  exists k, py_index (length l) i = Ok k /\ l !! k = Some x.
Proof.
  unfold getitem. destruct (py_index (length l) i) as [k|e]; simpl; [|discriminate].
  destruct (l !! k) as [y|] eqn:Hy; [|discriminate].
  intros [= <-]. eauto.
Qed.

Lemma setitem_inv {A} (l : list A) (i : Z) (x : A) (l' : list A) :
  setitem l i x = Ok l' ->
  exists k, py_index (length l) i = Ok k /\ l' = <[k := x]> l.
Proof.
  unfold setitem. destruct (py_index (length l) i) as [k|e]; simpl; [|discriminate].
  intros [= <-]. eauto.
Qed.

(** C8 (amended).  A decoding step appends the new placement at the end of
    the list of its machine, wherever its start lies, and leaves every
    other entry in place; the exported row of that machine is the previous
    row followed by the new triple. *)
Theorem decode_step_appends
    (o : list Job) (ms_s : list (list Z)) (st st' : dstate) (job : Z) :
  decode_step o ms_s st job = Ok st' ->
  exists (m : nat) (l : list task) (q : task),
    machine_operations st !! m = Some l /\
    machine_operations st' = <[m := l ++ [q]]> (machine_operations st) /\
    translate_decoded_to_gantt (machine_operations st') !! m =
      Some ("Machine-" +:+ pretty (Z.of_nat m + 1),
            gantt_row l ++ [(t_start q, t_start q + t_dur q, t_name q)]).
Proof.
  unfold decode_step. intros H.
  repeat match type of H with
         | bind ?m _ = _ =>
             let E := fresh "E" in
             destruct m eqn:E; cbn [bind] in H; [|discriminate H]
         | match ?m with _ => _ end = _ =>
             let E := fresh "E" in
             destruct m eqn:E; [|discriminate H]
         end.
  injection H as <-. simpl.
  match goal with
  | Hg : getitem (machine_operations st) _ = Ok ?l,
    Hs : setitem (machine_operations st) _ (?l ++ [?q]) = Ok _ |- _ =>
      apply getitem_inv in Hg as (k & Hk & Hl);
      apply setitem_inv in Hs as (k' & Hk' & ->);
      exists k, l, q
  end.
  assert (k' = k) as -> by congruence.
  split; [exact Hl|]. split; [reflexivity|].
  unfold translate_decoded_to_gantt. rewrite list_lookup_imap.
  rewrite list_lookup_insert_eq by (eapply lookup_lt_Some; eauto).
  simpl. unfold gantt_row. rewrite map_app. reflexivity.
Qed.

Lemma decode_step_appends_witness :
  exists st',
    decode_step (jobs inst_fill) (split_ms inst_fill [0; 0; 0])
      (decode_init inst_fill [0; 0; 0]) 0 = Ok st' /\
    exists m l q,
      machine_operations (decode_init inst_fill [0; 0; 0]) !! m = Some l /\
      machine_operations st' =
        <[m := l ++ [q]]> (machine_operations (decode_init inst_fill [0; 0; 0])) /\
      translate_decoded_to_gantt (machine_operations st') !! m =
        Some ("Machine-" +:+ pretty (Z.of_nat m + 1),
              gantt_row l ++ [(t_start q, t_start q + t_dur q, t_name q)]).
Proof.
  eexists. split; [reflexivity|].
  apply (decode_step_appends (jobs inst_fill) (split_ms inst_fill [0; 0; 0])
           (decode_init inst_fill [0; 0; 0]) _ 0).
  reflexivity.
Defined.

(** C8, as stated, fails: on [inst_fill] the list of machine 1 holds the
    operation started at 5 before the one started at 0, and so does the
    exported row. *)
Lemma decode_list_not_sorted_by_start :
  valid_instance inst_fill /\ legal_OS inst_fill [0; 0; 1] /\
  legal_MS inst_fill [0; 0; 0] /\
  exists sched l,
    decode inst_fill [0; 0; 1] [0; 0; 0] = Ok sched /\
    sched !! 0%nat = Some l /\
    ~ sorted_by_start l /\
    translate_decoded_to_gantt sched !! 0%nat =
      Some ("Machine-1", [(5, 6, "OP_1-2"); (0, 2, "OP_2-1")]).
Proof.
  split; [|split; [|split]].
  - repeat constructor; discriminate.
  - apply legal_OSb_spec. reflexivity.
  - unfold legal_MS. simpl. repeat constructor; simpl; lia.
  - eexists _, _. split; [vm_compute; reflexivity|].
    split; [reflexivity|]. split; [|reflexivity].
    intros Hs. specialize (Hs 0%nat 1%nat _ _ ltac:(lia) eq_refl eq_refl).
    simpl in Hs. lia.
Qed.

(** ** Reward and the phase of the controller *)

Lemma generation_next (N : Z) (alpha gamma : Q) (oc : outcome)
    (s s' : rl_state) :
  generation N alpha gamma oc s = Ok s' ->
  gen s' = gen s + 1 /\
  use_sarsa s' = (if N * 10 <? gen s then false else use_sarsa s).
Proof.
  unfold generation. intros H.
  repeat match type of H with
         | bind ?m _ = _ =>
             destruct m; cbn [bind] in H; [|discriminate H]
         end.
  injection H as <-. split; reflexivity.
Qed.

(** The flag is set once the generation counter has passed [10 N + 1]. *)
Lemma generations_flag (N : Z) (alpha gamma : Q) (ocs : list outcome) :
  forall s s' : rl_state,
  use_sarsa s = (gen s <=? N * 10 + 1) ->
  generations N alpha gamma ocs s = Ok s' ->
  gen s' = gen s + len ocs /\ use_sarsa s' = (gen s' <=? N * 10 + 1).
Proof.
  induction ocs as [|oc ocs IH]; intros s s' Hflag Hrun.
  - injection Hrun as <-. unfold len. simpl. split; [lia|exact Hflag].
  - simpl in Hrun.
    destruct (generation N alpha gamma oc s) as [s1|] eqn:Hg; [|discriminate].
    cbn [bind] in Hrun.
    destruct (generation_next _ _ _ _ _ _ Hg) as [Hgen Huse].
    destruct (IH s1 s') as [Hgen' Huse']; [|exact Hrun|].
    + rewrite Huse, Hgen, Hflag.
      destruct (Z.ltb_spec (N * 10) (gen s)), (Z.leb_spec (gen s) (N * 10 + 1)),
        (Z.leb_spec (gen s + 1) (N * 10 + 1)); try reflexivity; lia.
    + split; [|exact Huse']. rewrite Hgen', Hgen. unfold len. simpl length. lia.
Qed.

(** C6 (amended).  In generation [g], reached from the initial state, the
    update is SARSA when [g <= 10 N + 1] and Q-learning when
    [g > 10 N + 1]: the flag is cleared at the end of the first generation
    above [10 N], after that generation's own update. *)
Theorem generation_update_rule
    (N : Z) (alpha gamma : Q) (ocs : list outcome) (oc : outcome)
    (s : rl_state) :
  0 <= N ->
  generations N alpha gamma ocs (rl_init N) = Ok s ->
  gen s = 1 + len ocs /\
  generation N alpha gamma oc s =
    (state <- py_mod (gen s) N ;;
     next_state <- py_mod (gen s + 1) N ;;
     reward <- reward_of (best_time oc) (new_best_time oc) ;;
     Qt <- (if gen s <=? 10 * N + 1 then
              update_Q_sarsa (Qtab s) state (action oc) reward next_state
                (next_action oc) alpha gamma
            else
              update_Q_qlearning (Qtab s) state (action oc) reward next_state
                alpha gamma) ;;
     Ok (mkRL (gen s + 1) (gen s + 1 <=? 10 * N + 1) Qt)).
Proof.
  intros HN Hrun.
  destruct (generations_flag N alpha gamma ocs (rl_init N) s) as [Hgen Huse];
    [|exact Hrun|].
  { simpl. symmetry. apply Z.leb_le. lia. }
  simpl in Hgen. split; [exact Hgen|].
  unfold generation. rewrite Huse.
  replace (N * 10 + 1) with (10 * N + 1) by lia.
  replace (if N * 10 <? gen s then false else gen s <=? 10 * N + 1)
    with (gen s + 1 <=? 10 * N + 1); [reflexivity|].
  destruct (Z.ltb_spec (N * 10) (gen s)), (Z.leb_spec (gen s) (10 * N + 1)),
    (Z.leb_spec (gen s + 1) (10 * N + 1)); try reflexivity; lia.
Qed.

Lemma generation_update_rule_witness :
  0 <= 2 /\
  exists s,
    generations 2 alpha0 gamma0 (ocs_two ++ [oc_two]) (rl_init 2) = Ok s /\
    gen s = 1 + len (ocs_two ++ [oc_two]) /\
    generation 2 alpha0 gamma0 oc_two s =
      (state <- py_mod (gen s) 2 ;;
       next_state <- py_mod (gen s + 1) 2 ;;
       reward <- reward_of (best_time oc_two) (new_best_time oc_two) ;;
       Qt <- (if gen s <=? 10 * 2 + 1 then
                update_Q_sarsa (Qtab s) state (action oc_two) reward
                  next_state (next_action oc_two) alpha0 gamma0
              else
                update_Q_qlearning (Qtab s) state (action oc_two) reward
                  next_state alpha0 gamma0) ;;
       Ok (mkRL (gen s + 1) (gen s + 1 <=? 10 * 2 + 1) Qt)).
Proof.
  split; [lia|].
  eexists. split; [vm_compute; reflexivity|].
  apply (generation_update_rule 2 alpha0 gamma0 (ocs_two ++ [oc_two]));
    [lia|vm_compute; reflexivity].
Defined.

(** C6, as stated, fails at [g = 10 N + 1].  With a population of two, in
    a run whose best makespans are chained (2, then 1 throughout, both
    makespans of the instance of two jobs) and whose actions are those the
    table proposes, generation 21 still
    applies the SARSA rule: it reads [Q[0][1]], which is 0, where the
    Q-learning rule would read the maximum of row 0, which is positive. *)
Lemma sarsa_at_generation_10N_plus_1 :
  (Nat.Even (Z.to_nat 2) /\
   timeTaken inst_two_jobs ([0; 1], [0; 0]) = Ok 2 /\
   timeTaken inst_two_jobs ([0; 1], [0; 1]) = Ok 1) /\
  chained (ocs_two ++ [oc_two]) /\
  Forall (fun oc => best_time oc <> 0 /\ new_best_time oc <> 0)
         (ocs_two ++ [oc_two]) /\
  exists s s',
    generations 2 alpha0 gamma0 ocs_two (rl_init 2) = Ok s /\
    gen s = 10 * 2 + 1 /\
    use_sarsa s = true /\
    generation 2 alpha0 gamma0 oc_two s = Ok s' /\
    update_Q_sarsa (Qtab s) 1 0 0 0 1 alpha0 gamma0 = Ok (Qtab s') /\
    update_Q_qlearning (Qtab s) 1 0 0 0 alpha0 gamma0 <> Ok (Qtab s') /\
    use_sarsa s' = false.
Proof.
  split; [split; [exists 1%nat; reflexivity|split; vm_compute; reflexivity]|].
  split; [vm_compute; tauto|].
  split; [repeat constructor; discriminate|].
  eexists _, _. split; [vm_compute; reflexivity|].
  split; [reflexivity|]. split; [reflexivity|].
  split; [vm_compute; reflexivity|].
  split; [vm_compute; reflexivity|].
  split; [vm_compute; discriminate|reflexivity].
Qed.

(** ** Writes of the operators into their arguments *)

(** The location [halfMutation] returns is the one it was given. *)
Lemma halfMutation_returns_argument
    (p : loc) (parameters : Instance) (w : world) (o : loc) (w' : world) :
  halfMutation p parameters w = Ok (o, w') -> o = p.
Proof.
  unfold halfMutation, then_. intros H.
  repeat match type of H with
         | match ?m with _ => _ end = _ =>
             destruct m as [[? ?]|]; [|discriminate H]
         end.
  injection H as <- _. reflexivity.
Qed.

(** C3: [halfMutation] on the MS [[0; 0]] held at location 0 returns
    location 0 itself and has written [[0; 1]] into it; and when two
    individuals of a population share that MS (as after a tournament won
    twice by the same individual), mutating the first changes the MS of
    the second, which was carried through. *)
Theorem halfMutation_writes_into_parent :
  legal_OS inst_two_options [0; 0] /\ legal_MS inst_two_options [0; 0] /\
  (exists w',
     halfMutation 0%nat inst_two_options (mkWorld [[0; 0]] (fun _ => 1))
       = Ok (0%nat, w') /\
     heap w' !! 0%nat = Some [0; 1]) /\
  (exists w',
     mutation 1 [([0; 0], 0%nat); ([0; 0], 0%nat)] inst_two_options (1 # 2)
       (mkWorld [[0; 0]] tape_first_only)
       = Some (Ok ([([0; 0], 0%nat); ([0; 0], 0%nat)], w')) /\
     heap w' !! 0%nat = Some [1; 0]).
Proof.
  split; [apply legal_OSb_spec; reflexivity|].
  split; [unfold legal_MS; simpl; repeat constructor; simpl; lia|].
  split; eexists; (split; [vm_compute; reflexivity|reflexivity]).
Qed.

(** ** Zero processing times *)

Lemma max_list_bound (es : list Z) (e c : Z) :
  e <= c -> Forall (fun x => x <= c) es -> max_list e es <= c.
Proof.
  unfold max_list. revert e.
  induction es as [|x es IH]; intros e He Hall; simpl; [exact He|].
  apply Forall_cons in Hall as [Hx Hall]. apply IH; [lia|exact Hall].
Qed.

(** Whenever a processing time of zero is asked for at or after the end of
    everything placed on the machine, the search returns [None]. *)
Lemma find_first_available_place_zero_none (c : Z) (machine_jobs : list task) :
  0 <= c ->
  Forall (fun p => 0 <= t_start p /\ 0 <= t_dur p /\ t_end p <= c)
         machine_jobs ->
  find_first_available_place c 0 machine_jobs = Ok None.
Proof.
  intros Hc Hall. unfold find_first_available_place.
  assert (Hmax : max_duration_of c 0 machine_jobs = c).
  { unfold max_duration_of. destruct machine_jobs as [|q rest]; simpl; [lia|].
    apply Forall_cons in Hall as [(_ & _ & Hq) Hall].
    pose proof (max_list_lower (map t_end rest) (t_end q)).
    pose proof (max_list_bound (map t_end rest) (t_end q) c Hq) as Hb.
    assert (max_list (t_end q) (map t_end rest) <= c); [|lia].
    apply Hb. apply Forall_fmap. eapply Forall_impl; [exact Hall|].
    intros p (_ & _ & Hp). exact Hp. }
  rewrite Hmax.
  destruct (mark_jobs_spec machine_jobs (replicate (Z.to_nat c) true))
    as (tab & Hm & Hl & _).
  { rewrite length_replicate. eapply Forall_impl; [exact Hall|].
    intros p (? & ? & ?). lia. }
  rewrite Hm. simpl. rewrite Hl, length_replicate.
  unfold range. rewrite seqZ_nil by lia. reflexivity.
Qed.

(** The scenarios of the specification that the decoder settles. *)
Example scenario_precedence :
  decode inst_prec [0; 0] [0; 0]
  = Ok [[mkTask "OP_1-1" 3 0 0; mkTask "OP_1-2" 4 3 3]] /\
  timeTaken inst_prec ([0; 0], [0; 0]) = Ok 7.
Proof. split; reflexivity. Qed.

Example scenario_gap_instance :
  timeTaken inst_gap ([0; 0; 1], [0; 0; 0]) = Ok 13 /\
  decode inst_gap [0; 1; 0] [0; 0; 0]
  = Ok [[mkTask "OP_1-1" 5 0 0; mkTask "OP_2-1" 3 0 5; mkTask "OP_1-2" 5 5 8]].
Proof. split; vm_compute; reflexivity. Qed.

(** The hypotheses of [decode_positive_times_correct] hold on the gap
    instance. *)
Example decode_positive_times_example :
  exists sched, decode inst_gap [0; 1; 0] [0; 0; 0] = Ok sched /\
    forall m l i i' p p',
      sched !! m = Some l -> l !! i = Some p -> l !! i' = Some p' ->
      i <> i' -> t_end p <= t_start p' \/ t_end p' <= t_start p.
Proof.
  destruct (decode_positive_times_correct inst_gap [0; 1; 0] [0; 0; 0])
    as (sched & Hd & _ & Hdisj & _).
  - repeat constructor; discriminate.
  - repeat constructor.
  - apply legal_OSb_spec. reflexivity.
  - unfold legal_MS. simpl. repeat constructor; simpl; lia.
  - exists sched. auto.
Qed.

(** C4: with a processing time of zero and nothing placed after the start
    constraint, the search falls off its loop and returns [None]. *)
Theorem find_first_available_place_zero_duration :
  find_first_available_place 0 0 [] = Ok None /\
  find_first_available_place 3 0 [mkTask "OP_1-1" 3 0 0] = Ok None.
Proof. split; reflexivity. Qed.

(** C1: on a valid instance with one operation of processing time zero,
    decoding the only legal chromosome raises (the start is [None] when
    the decoder adds the processing time to it). *)
Theorem decode_zero_duration_raises :
  valid_instance inst_zero /\ legal_OS inst_zero [0] /\
  legal_MS inst_zero [0] /\
  decode inst_zero [0] [0] = Raise TypeError.
Proof.
  destruct inst_zero_valid as (Hv & Hos & Hms).
  split; [exact Hv|]. split; [exact Hos|]. split; [exact Hms|]. reflexivity.
Qed.

(** C9, as stated, fails on a population of odd size: the access to the
    partner of the last individual is out of range. *)
Lemma crossover_odd_population_raises :
  legal_OS inst_two_options [0; 0] /\ legal_MS inst_two_options [0; 0] /\
  crossover [([0; 0], [0; 0])] inst_two_options (1 # 2)
    (mkWorld [] (fun _ => 0)) = Raise IndexError /\
  crossover [([0; 0], [0; 0]); ([0; 0], [1; 1]); ([0; 0], [1; 0])]
    inst_two_options (1 # 2) (mkWorld [] (fun _ => 0)) = Raise IndexError.
Proof.
  split; [apply legal_OSb_spec; reflexivity|].
  split; [unfold legal_MS; simpl; repeat constructor; simpl; lia|].
  split; [reflexivity|vm_compute; reflexivity].
Qed.

Lemma crossover_even_population_witness :
  Nat.Even (length [([0; 0], [0; 0]); ([0; 0], [1; 1])]) /\
  exists newPop w',
    crossover [([0; 0], [0; 0]); ([0; 0], [1; 1])] inst_two_options (1 # 2)
      (mkWorld [] (fun _ => 0)) = Ok (newPop, w') /\
    length newPop = length [([0; 0], [0; 0]); ([0; 0], [1; 1])] /\
    forall (i : nat) (c1 c2 : chromosome),
      [([0; 0], [0; 0]); ([0; 0], [1; 1])] !! (2 * i)%nat = Some c1 ->
      [([0; 0], [0; 0]); ([0; 0], [1; 1])] !! (2 * i + 1)%nat = Some c2 ->
      exists c1' c2',
        newPop !! (2 * i)%nat = Some c1' /\
        newPop !! (2 * i + 1)%nat = Some c2' /\
        pair_crossed inst_two_options c1 c2 c1' c2'.
Proof.
  assert (Hev : Nat.Even (length [([0; 0], [0; 0]); ([0; 0], [1; 1])]))
    by (exists 1%nat; reflexivity).
  split; [exact Hev|].
  apply (crossover_even_population inst_two_options (1 # 2)
           [([0; 0], [0; 0]); ([0; 0], [1; 1])] (mkWorld [] (fun _ => 0)) Hev).
  repeat constructor; simpl; try discriminate; apply legal_OSb_spec; reflexivity.
Defined.

Lemma crossover_OS_keeps_multiplicity_witness :
  legal_OS inst_gap [0; 1; 0] /\ legal_OS inst_gap [1; 0; 0] /\
  (exists o1 o2 w',
     precedenceOperationCrossover [0; 1; 0] [1; 0; 0] inst_gap
       (mkWorld [] (fun _ => 1)) = Ok ((o1, o2), w') /\
     legal_OS inst_gap o1 /\ legal_OS inst_gap o2 /\
     length o1 = length [0; 1; 0] /\ length o2 = length [1; 0; 0]) /\
  (exists o1 o2 w',
     jobBasedCrossover [0; 1; 0] [1; 0; 0] inst_gap
       (mkWorld [] (fun _ => 1)) = Ok ((o1, o2), w') /\
     legal_OS inst_gap o1 /\ legal_OS inst_gap o2 /\
     length o1 = length [0; 1; 0] /\ length o2 = length [1; 0; 0]).
Proof.
  assert (H1 : legal_OS inst_gap [0; 1; 0]) by (apply legal_OSb_spec; reflexivity).
  assert (H2 : legal_OS inst_gap [1; 0; 0]) by (apply legal_OSb_spec; reflexivity).
  split; [exact H1|]. split; [exact H2|].
  exact (crossover_OS_keeps_multiplicity inst_gap [0; 1; 0] [1; 0; 0]
           (mkWorld [] (fun _ => 1)) H1 H2).
Defined.

Lemma selection_closed_witness :
  exists newPop w',
    selection 3 (1 # 5)
      [([0; 0; 1], [0; 0; 0]); ([0; 1; 0], [0; 0; 0]); ([1; 0; 0], [0; 0; 0])]
      inst_gap (mkWorld [] (fun n => Z.of_nat n)) = Some (Ok (newPop, w')) /\
    length newPop = 3%nat /\
    forall c, c ∈ newPop ->
      c ∈ [([0; 0; 1], [0; 0; 0]); ([0; 1; 0], [0; 0; 0]); ([1; 0; 0], [0; 0; 0])].
Proof.
  apply (selection_closed (1 # 5)
           [([0; 0; 1], [0; 0; 0]); ([0; 1; 0], [0; 0; 0]); ([1; 0; 0], [0; 0; 0])]
           inst_gap (mkWorld [] (fun n => Z.of_nat n)) 3).
  - repeat constructor; eexists; vm_compute; reflexivity.
  - simpl. lia.
Defined.

Lemma neighborhoodMutation_returns_when_drawn_witness :
  (neighborhoodMutation 1 [0; 1; 2] (mkWorld [] tape_one_retry) = None) /\
  exists off w',
    neighborhoodMutation 2 [0; 1; 2] (mkWorld [] tape_one_retry)
      = Some (Ok (off, w')) /\ heap w' = [].
Proof.
  destruct (neighborhoodMutation_returns_when_drawn [0; 1; 2]
              (mkWorld [] tape_one_retry) 0 1 1) as [Hnone _].
  { discriminate. }
  { intros k Hk. lia. }
  { vm_compute. discriminate. }
  { intros k Hk. assert (k = 2%nat) as -> by lia. left. reflexivity. }
  { vm_compute. discriminate. }
  { vm_compute. discriminate. }
  destruct (neighborhoodMutation_returns_when_drawn [0; 1; 2]
              (mkWorld [] tape_one_retry) 0 1 2) as [_ Hsome].
  { discriminate. }
  { intros k Hk. lia. }
  { vm_compute. discriminate. }
  { intros k Hk. assert (k = 2%nat) as -> by lia. left. reflexivity. }
  { vm_compute. discriminate. }
  { vm_compute. discriminate. }
  split; [apply Hnone; simpl; lia|apply Hsome; simpl; lia].
Defined.

(** ** More on the decoder *)

Lemma split_ms_from_concat (js : list Job) : forall (ms : list Z) (current : nat),
  concat (split_ms_from js ms current)
  = take (length (concat js)) (drop current ms).
Proof.
  induction js as [|job rest IH]; intros ms current; simpl; [reflexivity|].
  rewrite IH, length_app, <- take_take_drop, drop_drop. reflexivity.
Qed.

(** X1.  [split_ms] cuts MS into consecutive pieces, one per job:
    concatenated, the pieces give back the first [total_ops] entries of MS,
    and piece [j] is as long as job [j] when MS has [total_ops] entries. *)
Theorem split_ms_concat (pb_instance : Instance) (ms : list Z) :
  concat (split_ms pb_instance ms)
    = take (length (concat (jobs pb_instance))) ms /\
  length (split_ms pb_instance ms) = length (jobs pb_instance) /\
  (length ms = length (concat (jobs pb_instance)) ->
   concat (split_ms pb_instance ms) = ms /\
   Forall2 (fun (job : Job) piece => length piece = length job)
           (jobs pb_instance) (split_ms pb_instance ms)).
Proof.
  unfold split_ms. split; [apply split_ms_from_concat|]. split.
  - generalize 0%nat. induction (jobs pb_instance) as [|job rest IH];
      intros n; simpl; [reflexivity|]. rewrite IH. reflexivity.
  - intros Hlen. split.
    + rewrite split_ms_from_concat. simpl. rewrite <- Hlen. apply firstn_all.
    + assert (H : forall js (cur : nat),
                (cur + length (concat js) <= length ms)%nat ->
                Forall2 (fun (job : Job) piece => length piece = length job)
                        js (split_ms_from js ms cur)).
      { induction js as [|job rest IH]; intros cur Hcur; simpl; constructor.
        - rewrite length_take, length_drop. simpl in Hcur.
          rewrite length_app in Hcur. lia.
        - apply IH. simpl in Hcur. rewrite length_app in Hcur. lia. }
      apply H. lia.
Qed.

Lemma getitem_elem {A} (l : list A) (i : Z) (x : A) :
  getitem l i = Ok x -> x ∈ l.
Proof.
  intros H. apply getitem_inv in H as (k & _ & Hk).
  eapply list_elem_of_lookup_2, Hk.
Qed.

Lemma elem_of_concat_intro {A} (ls : list (list A)) (l : list A) (x : A) :
  l ∈ ls -> x ∈ l -> x ∈ concat ls.
Proof.
  intros Hl Hx. apply list_elem_of_In, in_concat. exists l.
  split; apply list_elem_of_In; assumption.
Qed.

(** What a successful decoding step read and wrote. *)
Lemma decode_step_inv (o : list Job) (ms_s : list (list Z)) (st st' : dstate)
    (job : Z) :
  decode_step o ms_s st job = Ok st' ->
  exists (ki kc km : nat) (idx c s : Z) (l : list task) (opt : MachineOption),
    opt ∈ concat (concat o) /\
    indexes st !! ki = Some idx /\
    start_task_cstr st !! kc = Some c /\
    machine_operations st !! km = Some l /\
    find_first_available_place c (processingTime opt) l = Ok (Some s) /\
    st' = mkDstate
            (<[km := l ++ [mkTask (name_task job idx) (processingTime opt) c s]]>
               (machine_operations st))
            (<[ki := idx + 1]> (indexes st))
            (<[kc := s + processingTime opt]> (start_task_cstr st)).
Proof.
  unfold decode_step. intros H.
  repeat match type of H with
         | bind ?m _ = _ =>
             let E := fresh "E" in
             destruct m eqn:E; cbn [bind] in H; [|discriminate H]
         | match ?m with _ => _ end = _ =>
             let E := fresh "E" in
             destruct m eqn:E; [|discriminate H]
         end.
  injection H as <-.
  match goal with
  | H1 : getitem o job = Ok ?oj, H2 : getitem ?oj _ = Ok ?op,
    H3 : getitem ?op _ = Ok ?opt |- _ =>
      assert (opt ∈ concat (concat o)) as Hopt
        by (eapply elem_of_concat_intro; [|eapply getitem_elem, H3];
            eapply elem_of_concat_intro; eapply getitem_elem; eassumption)
  end.
  repeat match goal with
         | Hs : setitem _ _ _ = Ok _ |- _ =>
             apply setitem_inv in Hs as (? & ? & ->)
         end.
  repeat match goal with
         | Hg : getitem (indexes st) _ = Ok _ |- _ =>
             apply getitem_inv in Hg as (? & ? & ?)
         | Hg : getitem (start_task_cstr st) _ = Ok _ |- _ =>
             apply getitem_inv in Hg as (? & ? & ?)
         | Hg : getitem (machine_operations st) _ = Ok _ |- _ =>
             apply getitem_inv in Hg as (? & ? & ?)
         end.
  repeat match goal with
         | H1 : py_index ?n ?i = Ok ?a, H2 : py_index ?n ?i = Ok ?b |- _ =>
             assert (b = a) as -> by congruence; clear H2
         end.
  eexists _, _, _, _, _, _, _, _. repeat split; eassumption.
Qed.

Lemma concat_insert_app_length {A} (sched : list (list A)) :
  forall (k : nat) (l : list A) (q : A),
  sched !! k = Some l ->
  length (concat (<[k := l ++ [q]]> sched)) = S (length (concat sched)).
Proof.
  induction sched as [|x sched IH]; intros [|k] l q Hk; simpl in *;
    try discriminate.
  - injection Hk as ->. rewrite !length_app. simpl. lia.
  - rewrite !length_app, (IH k l q Hk). lia.
Qed.

Lemma decode_loop_count (o : list Job) (ms_s : list (list Z)) (os : list Z) :
  forall st st' : dstate,
  decode_loop o ms_s os st = Ok st' ->
  length (concat (machine_operations st'))
    = (length (concat (machine_operations st)) + length os)%nat /\
  length (machine_operations st') = length (machine_operations st).
Proof.
  induction os as [|j os IH]; intros st st' H; simpl in H.
  - injection H as <-. split; [simpl; lia|reflexivity].
  - destruct (decode_step o ms_s st j) as [st1|] eqn:Hs; [|discriminate].
    cbn [bind] in H. destruct (IH _ _ H) as [Hc Hl].
    apply decode_step_inv in Hs
      as (ki & kc & km & idx & c & s & l & opt & _ & _ & _ & Hl1 & _ & ->).
    simpl in Hc, Hl. rewrite (concat_insert_app_length _ _ _ _ Hl1) in Hc.
    rewrite length_insert in Hl. simpl. split; [lia|exact Hl].
Qed.

(** X2.  A decoding that returns has placed every entry of OS exactly once:
    the machine lists hold [len(os)] operations in all, on
    [machinesNb] machines. *)
Theorem decode_places_every_entry
    (pb_instance : Instance) (os ms : list Z) (sched : list (list task)) :
  decode pb_instance os ms = Ok sched ->
  length (concat sched) = length os /\
  length sched = Z.to_nat (machinesNb pb_instance).
Proof.
  unfold decode. intros H.
  destruct (decode_loop _ _ os _) as [st|] eqn:Hl; [|discriminate].
  injection H as <-. destruct (decode_loop_count _ _ _ _ _ Hl) as [Hc Hlen].
  simpl in Hc, Hlen. rewrite length_replicate in Hlen.
  split; [|exact Hlen].
  assert (Hnil : forall n : nat, concat (replicate n (@nil task)) = [])
    by (intros n; induction n; simpl; auto).
  rewrite Hc, Hnil. reflexivity.
Qed.

Lemma decode_places_every_entry_witness :
  exists sched, decode inst_gap [0; 1; 0] [0; 0; 0] = Ok sched /\
    length (concat sched) = length [0; 1; 0] /\
    length sched = Z.to_nat (machinesNb inst_gap).
Proof.
  eexists. split; [vm_compute; reflexivity|].
  apply (decode_places_every_entry inst_gap [0; 1; 0] [0; 0; 0]).
  vm_compute. reflexivity.
Defined.

(** The earliest fit is the start constraint or the end of a placed
    interval. *)
Lemma earliest_fit_active (c d : Z) (machine_jobs : list task) (s : Z) :
  0 < d -> earliest_fit c d machine_jobs s ->
  s = c \/ exists p, p ∈ machine_jobs /\ t_end p = s.
Proof.
  intros Hd (Hcs & Hfree & Hmin).
  destruct (decide (s = c)) as [|Hne]; [auto|right].
  destruct (Hmin (s - 1)) as (p & Hp & t & Ht & Htp); [lia|].
  exists p. split; [exact Hp|].
  destruct (Z.le_gt_cases (t_end p) s) as [Hle|Hgt].
  - destruct (decide (t = s - 1)) as [->|]; [lia|].
    exfalso. apply (Hfree p Hp). exists t. lia.
  - exfalso. apply (Hfree p Hp). exists (Z.max t s). lia.
Qed.

(** X3.  For a positive duration the search returns the start constraint
    itself or a time at which a placed operation ends, never a later idle
    time; on an empty machine it returns the start constraint. *)
Theorem find_first_available_place_active
    (start_ctr duration : Z) (machine_jobs : list task) :
  0 <= start_ctr -> 0 < duration ->
  Forall (fun p => 0 <= t_start p /\ 0 <= t_dur p) machine_jobs ->
  exists s, find_first_available_place start_ctr duration machine_jobs
            = Ok (Some s) /\
    (s = start_ctr \/ exists p, p ∈ machine_jobs /\ t_end p = s) /\
    (machine_jobs = [] -> s = start_ctr).
Proof.
  intros Hc Hd Hall.
  destruct (find_first_available_place_spec _ _ _ Hc Hd Hall) as (s & Hs & Hfit).
  exists s. split; [exact Hs|].
  pose proof (earliest_fit_active _ _ _ _ Hd Hfit) as Hact.
  split; [exact Hact|].
  intros ->. destruct Hact as [|(p & Hp & _)]; [assumption|inversion Hp].
Qed.

Lemma find_first_available_place_active_witness :
  exists s, find_first_available_place 0 2 [mkTask "OP_1-2" 1 5 5; mkTask "OP_2-1" 5 0 0]
            = Ok (Some s) /\
    (s = 0 \/ exists p, p ∈ [mkTask "OP_1-2" 1 5 5; mkTask "OP_2-1" 5 0 0] /\
                        t_end p = s) /\
    ([mkTask "OP_1-2" 1 5 5; mkTask "OP_2-1" 5 0 0] = [] -> s = 0).
Proof.
  apply (find_first_available_place_active 0 2
           [mkTask "OP_1-2" 1 5 5; mkTask "OP_2-1" 5 0 0]); [lia|lia|].
  repeat constructor; simpl; lia.
Defined.

Lemma max_end_fold (l : list task) : forall a : Z,
  let r := foldl (fun max_d job => if max_d <? t_end job then t_end job else max_d)
                 a l in
  a <= r /\ (forall p, p ∈ l -> t_end p <= r) /\
  (r = a \/ exists p, p ∈ l /\ r = t_end p).
Proof.
  induction l as [|q l IH]; intros a; simpl.
  - split; [lia|]. split; [intros p Hp; inversion Hp|auto].
  - destruct (IH (if a <? t_end q then t_end q else a)) as (H1 & H2 & H3).
    destruct (Z.ltb_spec a (t_end q)).
    + split; [lia|]. split.
      * intros p Hp. apply elem_of_cons in Hp as [->|Hp]; [lia|auto].
      * right. destruct H3 as [->|(p & Hp & ->)].
        -- exists q. split; [left|reflexivity].
        -- exists p. split; [right; exact Hp|reflexivity].
    + split; [lia|]. split.
      * intros p Hp. apply elem_of_cons in Hp as [->|Hp]; [lia|auto].
      * destruct H3 as [->|(p & Hp & ->)]; [auto|].
        right. exists p. split; [right; exact Hp|reflexivity].
Qed.

Lemma max_list_attained (es : list Z) (e : Z) :
  max_list e es = e \/ max_list e es ∈ es.
Proof.
  unfold max_list. revert e.
  induction es as [|x es IH]; intros e; simpl; [auto|].
  destruct (IH (Z.max e x)) as [H|H].
  - rewrite H. destruct (Z.max_spec e x) as [[_ ->]|[_ ->]]; [right; left|auto].
  - right. right. exact H.
Qed.

(** The largest end time of a schedule: [timeTaken] once decoding is
    done. *)
Lemma makespan_spec (sched : list (list task)) (T : Z) :
  match map max_end sched with
  | [] => Raise ValueError
  | e :: es => Ok (max_list e es)
  end = Ok T ->
  0 <= T /\ (forall p, placed sched p -> t_end p <= T) /\
  (T = 0 \/ exists p, placed sched p /\ T = t_end p).
Proof.
  destruct sched as [|l0 sched]; simpl; [discriminate|]. intros [= <-].
  set (T := max_list (max_end l0) (map max_end sched)).
  assert (Hrow : forall l, l ∈ l0 :: sched -> max_end l <= T).
  { intros l Hl. apply elem_of_cons in Hl as [->|Hl].
    - apply max_list_lower.
    - apply max_list_upper. apply list_elem_of_fmap. exists l. auto. }
  assert (Hmax : exists l, l ∈ l0 :: sched /\ T = max_end l).
  { destruct (max_list_attained (map max_end sched) (max_end l0)) as [H|H].
    - exists l0. split; [left|exact H].
    - apply list_elem_of_fmap in H as (l & Hl & Hin).
      exists l. split; [right; exact Hin|exact Hl]. }
  split; [|split].
  - destruct Hmax as (l & _ & ->). apply (max_end_fold l 0).
  - intros p (m & l & Hl & Hp).
    pose proof (proj1 (proj2 (max_end_fold l 0)) p Hp) as H1.
    pose proof (Hrow l (list_elem_of_lookup_2 _ _ _ Hl)). unfold max_end in *. lia.
  - destruct Hmax as (l & Hl & ->).
    destruct (proj2 (proj2 (max_end_fold l 0))) as [H|(p & Hp & H)]; [auto|].
    right. exists p. split; [|exact H].
    apply list_elem_of_lookup_1 in Hl as [m Hm]. exists m, l. auto.
Qed.

(** X4.  Whenever [timeTaken] returns, its value is the makespan of the
    decoded schedule: no placed operation ends later, and it is 0 or the
    end of a placed operation. *)
Theorem timeTaken_is_makespan
    (pb_instance : Instance) (os ms : list Z) (T : Z) :
  timeTaken pb_instance (os, ms) = Ok T ->
  exists sched, decode pb_instance os ms = Ok sched /\
    0 <= T /\ (forall p, placed sched p -> t_end p <= T) /\
    (T = 0 \/ exists p, placed sched p /\ T = t_end p).
Proof.
  unfold timeTaken. simpl. intros H.
  destruct (decode pb_instance os ms) as [sched|]; [|discriminate].
  cbn [bind] in H. exists sched. split; [reflexivity|].
  exact (makespan_spec sched T H).
Qed.

Lemma timeTaken_is_makespan_witness :
  exists sched, decode inst_gap [0; 1; 0] [0; 0; 0] = Ok sched /\
    0 <= 13 /\ (forall p, placed sched p -> t_end p <= 13) /\
    (13 = 0 \/ exists p, placed sched p /\ 13 = t_end p).
Proof.
  apply (timeTaken_is_makespan inst_gap [0; 1; 0] [0; 0; 0] 13).
  vm_compute. reflexivity.
Defined.

Lemma getitem_raise {A} (l : list A) (i : Z) (e : exn) :
  getitem l i = Raise e -> e = IndexError.
Proof.
  unfold getitem, py_index.
  destruct ((0 <=? i) && (i <? Z.of_nat (length l))); simpl.
  { destruct (l !! Z.to_nat i); [discriminate|congruence]. }
  destruct ((- Z.of_nat (length l) <=? i) && (i <? 0)); simpl.
  { destruct (l !! Z.to_nat (Z.of_nat (length l) + i)); [discriminate|congruence]. }
  congruence.
Qed.

Lemma getitem_nil {A} (i : Z) : getitem (@nil A) i = Raise IndexError.
Proof.
  unfold getitem, py_index. simpl length. change (- Z.of_nat 0) with 0.
  change (Z.of_nat 0) with 0.
  destruct (Z.leb_spec 0 i), (Z.ltb_spec i 0); simpl; try reflexivity; lia.
Qed.

Lemma decode_step_no_machine (o : list Job) (ms_s : list (list Z))
    (st : dstate) (job : Z) :
  machine_operations st = [] ->
  decode_step o ms_s st job = Raise IndexError.
Proof.
  intros Hmo. unfold decode_step. rewrite Hmo.
  repeat match goal with
         | |- bind (getitem [] ?i) _ = _ => rewrite getitem_nil; reflexivity
         | |- bind ?m _ = _ =>
             let E := fresh "E" in
             destruct m eqn:E; cbn [bind];
             [|apply getitem_raise in E; congruence]
         end.
Qed.

(** X5.  Without machines [timeTaken] raises on every chromosome:
    [ValueError] on the empty one (the maximum of an empty list),
    [IndexError] otherwise (the machine list of the first operation). *)
Theorem timeTaken_no_machine (pb_instance : Instance) (os ms : list Z) :
  machinesNb pb_instance <= 0 ->
  timeTaken pb_instance (os, ms)
  = Raise (if decide (os = []) then ValueError else IndexError).
Proof.
  intros HM. unfold timeTaken, decode, decode_init. simpl.
  replace (Z.to_nat (machinesNb pb_instance)) with 0%nat by lia. simpl.
  destruct os as [|j os]; [reflexivity|]. simpl.
  rewrite decode_step_no_machine by reflexivity. reflexivity.
Qed.

Lemma timeTaken_no_machine_witness :
  timeTaken (mkInstance 0 [[[mkOption 1 1]]]) ([0], [0])
  = Raise (if decide ([0] = []) then ValueError else IndexError).
Proof.
  apply (timeTaken_no_machine (mkInstance 0 [[[mkOption 1 1]]]) [0] [0]).
  simpl. lia.
Defined.

(** ** The makespan and the work placed *)

Lemma concat_insert_app_perm {A} (sched : list (list A)) :
  forall (k : nat) (l : list A) (q : A),
  sched !! k = Some l ->
  Permutation (concat (<[k := l ++ [q]]> sched)) (q :: concat sched).
Proof.
  induction sched as [|x sched IH]; intros [|k] l q Hk; simpl in *;
    try discriminate.
  - injection Hk as ->. rewrite <- app_assoc. simpl.
    symmetry. apply Permutation_middle.
  - rewrite (IH k l q Hk). symmetry. apply Permutation_middle.
Qed.

Lemma work_perm (l l' : list task) : Permutation l l' -> work l = work l'.
Proof.
  induction 1; simpl; unfold work in *; simpl; lia.
Qed.

Lemma work_nonneg (l : list task) :
  (forall p, p ∈ l -> 0 <= t_dur p) -> 0 <= work l.
Proof.
  induction l as [|q l IH]; intros H; unfold work in *; simpl; [lia|].
  assert (0 <= t_dur q) by (apply H; left).
  assert (0 <= foldr (fun p a => t_dur p + a) 0 l)
    by (apply IH; intros p Hp; apply H; right; exact Hp).
  lia.
Qed.

Lemma within_work_init (pb_instance : Instance) (ms : list Z) :
  within_work (decode_init pb_instance ms).
Proof.
  unfold within_work, decode_init. simpl.
  assert (Hnil : forall n : nat, concat (replicate n (@nil task)) = [])
    by (intros n; induction n; simpl; auto).
  rewrite Hnil. split; [|constructor].
  apply Forall_replicate. simpl. lia.
Qed.

Lemma within_work_step (o : list Job) (ms_s : list (list Z))
    (st st' : dstate) (job : Z) :
  Forall (fun opt => 0 < processingTime opt) (concat (concat o)) ->
  within_work st ->
  decode_step o ms_s st job = Ok st' ->
  within_work st'.
Proof.
  intros Hpos [Hc Ht] Hstep.
  apply decode_step_inv in Hstep
    as (ki & kc & km & idx & c & s & l & opt & Hopt & _ & Hkc & Hkm & Hfind & ->).
  set (W := work (concat (machine_operations st))) in *.
  set (d := processingTime opt) in *.
  assert (Hd : 0 < d) by (rewrite Forall_forall in Hpos; apply Hpos, Hopt).
  assert (HcW : 0 <= c <= W) by (eapply (Forall_lookup_1 _ _ _ _ Hc), Hkc).
  assert (Hl : forall p, p ∈ l -> 0 <= t_start p /\ 0 < t_dur p /\ t_end p <= W).
  { intros p Hp. rewrite Forall_forall in Ht. apply Ht.
    eapply elem_of_concat_intro; [eapply list_elem_of_lookup_2, Hkm|exact Hp]. }
  destruct (find_first_available_place_spec c d l) as (s' & Hs' & Hfit);
    [lia|exact Hd| |].
  { apply Forall_forall. intros p Hp. destruct (Hl p Hp) as (? & ? & ?). lia. }
  assert (s' = s) as -> by congruence.
  assert (HsW : c <= s <= W).
  { destruct (earliest_fit_active _ _ _ _ Hd Hfit) as [->|(p & Hp & <-)]; [lia|].
    destruct Hfit as (? & _). destruct (Hl p Hp) as (_ & _ & ?). lia. }
  unfold within_work. simpl.
  pose proof (concat_insert_app_perm _ _ _
                (mkTask (name_task job idx) d c s) Hkm) as Hperm.
  rewrite (work_perm _ _ Hperm). simpl. fold W.
  change (work (concat (machine_operations st))) with W.
  split.
  - apply Forall_insert; [|lia].
    eapply Forall_impl; [exact Hc|]. simpl. intros x Hx. fold W in Hx. lia.
  - rewrite Hperm. constructor.
    + unfold t_end. simpl. lia.
    + eapply Forall_impl; [exact Ht|]. simpl. intros p Hp. fold W in Hp. lia.
Qed.

Lemma within_work_loop (o : list Job) (ms_s : list (list Z)) (os : list Z) :
  forall st st' : dstate,
  Forall (fun opt => 0 < processingTime opt) (concat (concat o)) ->
  within_work st ->
  decode_loop o ms_s os st = Ok st' ->
  within_work st'.
Proof.
  induction os as [|j os IH]; intros st st' Hpos Hw H; simpl in H.
  - injection H as <-. exact Hw.
  - destruct (decode_step o ms_s st j) as [st1|] eqn:Hs; [|discriminate].
    cbn [bind] in H. eapply IH; [exact Hpos| |exact H].
    eapply within_work_step; eauto.
Qed.

Lemma timeTaken_legal_spec
    (pb_instance : Instance) (os ms : list Z) :
  valid_instance pb_instance -> positive_times pb_instance ->
  0 < machinesNb pb_instance ->
  legal_OS pb_instance os -> legal_MS pb_instance ms ->
  exists T sched,
    timeTaken pb_instance (os, ms) = Ok T /\
    decode pb_instance os ms = Ok sched /\
    (forall p, placed sched p -> 0 < t_dur p <= T) /\
    T <= work (concat sched).
Proof.
  intros Hvalid Hpos HM Hos Hms.
  destruct (decode_loop_spec pb_instance ms Hvalid Hpos Hms os [] _
              (decode_init_inv pb_instance ms Hms)) as (st & Hloop & Hinv).
  { intros j. simpl. rewrite (Hos j). lia. }
  assert (Hw : within_work st).
  { eapply within_work_loop; [|apply (within_work_init pb_instance ms)|exact Hloop].
    unfold positive_times in Hpos. apply Forall_concat. exact Hpos. }
  destruct Hw as [_ Hw]. rewrite Forall_forall in Hw.
  unfold timeTaken, decode. simpl. rewrite Hloop. cbn [bind].
  destruct (map max_end (machine_operations st)) as [|e es] eqn:Hm.
  { apply (f_equal length) in Hm. rewrite length_map in Hm.
    rewrite (inv_machines _ _ _ Hinv) in Hm. simpl in Hm. lia. }
  exists (max_list e es), (machine_operations st).
  split; [reflexivity|]. split; [reflexivity|].
  destruct (makespan_spec (machine_operations st) (max_list e es))
    as (H0 & Hub & Hatt); [rewrite Hm; reflexivity|].
  split.
  - intros p Hp. specialize (Hub p Hp). destruct Hp as (m & l & Hl & Hp).
    destruct (Hw p) as (? & ? & _).
    { eapply elem_of_concat_intro; [eapply list_elem_of_lookup_2, Hl|exact Hp]. }
    unfold t_end in Hub. lia.
  - destruct Hatt as [->|(p & (m & l & Hl & Hp) & ->)].
    + apply work_nonneg. intros p Hp. destruct (Hw p Hp) as (_ & ? & _). lia.
    + destruct (Hw p) as (_ & _ & H); [|exact H].
      eapply elem_of_concat_intro; [eapply list_elem_of_lookup_2, Hl|exact Hp].
Qed.

(** X6.  On a valid instance with positive processing times and at least
    one machine, the makespan of every legal chromosome is defined and lies
    between the longest placed operation and the sum of all placed
    processing times. *)
Theorem timeTaken_bounded_by_work
    (pb_instance : Instance) (os ms : list Z) :
  valid_instance pb_instance -> positive_times pb_instance ->
  0 < machinesNb pb_instance ->
  legal_OS pb_instance os -> legal_MS pb_instance ms ->
  exists T sched,
    timeTaken pb_instance (os, ms) = Ok T /\
    decode pb_instance os ms = Ok sched /\
    (forall p, placed sched p -> 0 < t_dur p <= T) /\
    T <= work (concat sched).
Proof. apply timeTaken_legal_spec. Qed.

Lemma timeTaken_bounded_by_work_witness :
  exists T sched,
    timeTaken inst_gap ([0; 1; 0], [0; 0; 0]) = Ok T /\
    decode inst_gap [0; 1; 0] [0; 0; 0] = Ok sched /\
    (forall p, placed sched p -> 0 < t_dur p <= T) /\
    T <= work (concat sched).
Proof.
  apply (timeTaken_bounded_by_work inst_gap [0; 1; 0] [0; 0; 0]).
  - repeat constructor; discriminate.
  - repeat constructor.
  - simpl. lia.
  - apply legal_OSb_spec. reflexivity.
  - unfold legal_MS. simpl. repeat constructor; simpl; lia.
Defined.

Lemma getitem_beyond {A} (l : list A) (i : Z) :
  Z.of_nat (length l) <= i -> getitem l i = Raise IndexError.
Proof.
  intros Hi. unfold getitem, py_index.
  destruct (Z.ltb_spec i (Z.of_nat (length l))); [lia|].
  rewrite andb_false_r.
  destruct (Z.ltb_spec i 0); [lia|]. rewrite andb_false_r. reflexivity.
Qed.

(** X7.  An OS in which a job id occurs once more than the job has
    operations (or that names a job beyond the last) makes the decoder
    raise [IndexError] at that occurrence. *)
Theorem decode_surplus_occurrence
    (pb_instance : Instance) (pre post : list Z) (j : Z) (ms : list Z) :
  valid_instance pb_instance -> positive_times pb_instance ->
  legal_MS pb_instance ms ->
  (forall j', (occ j' pre <= ops_of pb_instance j')%nat) ->
  0 <= j -> occ j pre = ops_of pb_instance j ->
  decode pb_instance (pre ++ j :: post) ms = Raise IndexError.
Proof.
  intros Hvalid Hpos Hms Hfeas Hj Hfull.
  destruct (decode_loop_spec pb_instance ms Hvalid Hpos Hms pre [] _
              (decode_init_inv pb_instance ms Hms)) as (st & Hloop & Hinv).
  { intros j'. simpl. apply Hfeas. }
  simpl in Hinv.
  unfold decode. rewrite decode_loop_app, Hloop. cbn [bind]. simpl.
  assert (Hstep : decode_step (jobs pb_instance) (split_ms pb_instance ms) st j
                  = Raise IndexError); [|rewrite Hstep; reflexivity].
  unfold decode_step.
  pose proof (split_ms_legal _ _ Hms) as Hsplit.
  pose proof (Forall2_length _ _ _ Hsplit) as Hlen.
  destruct (Z.lt_ge_cases j (Z.of_nat (length (jobs pb_instance)))) as [HjJ|HjJ].
  - destruct (lookup_lt_is_Some_2 (jobs pb_instance) (Z.to_nat j)) as [job Hjob];
      [lia|].
    destruct (Forall2_lookup_l _ _ _ _ _ Hsplit Hjob) as (ms_job & Hmsj & Hl).
    rewrite (getitem_lookup _ j ms_job) by (lia || exact Hmsj). cbn [bind].
    rewrite (getitem_lookup (indexes st) j _ Hj
               (inv_indexes _ _ _ Hinv j ltac:(lia))). cbn [bind].
    rewrite getitem_beyond; [reflexivity|].
    rewrite Hfull. unfold ops_of. rewrite bool_decide_eq_true_2 by lia.
    rewrite Hjob. simpl. rewrite (Forall2_length _ _ _ Hl). lia.
  - rewrite getitem_beyond by lia. reflexivity.
Qed.

Lemma decode_surplus_occurrence_witness :
  decode inst_gap ([0; 1] ++ 1 :: [0]) [0; 0; 0] = Raise IndexError.
Proof.
  apply (decode_surplus_occurrence inst_gap [0; 1] [0] 1 [0; 0; 0]).
  - repeat constructor; discriminate.
  - repeat constructor.
  - unfold legal_MS. simpl. repeat constructor; simpl; lia.
  - intros j'. unfold ops_of.
    destruct (decide (j' = 0)) as [->|]; [vm_compute; lia|].
    destruct (decide (j' = 1)) as [->|]; [vm_compute; lia|].
    replace (occ j' [0; 1]) with 0%nat; [lia|].
    change [0; 1] with ([0] ++ [1]).
    rewrite occ_app, !occ_single, !decide_False by congruence. reflexivity.
  - lia.
  - reflexivity.
Defined.

(** ** Encoding produces legal chromosomes *)

Lemma occ_const_map {A} (j i : Z) (l : list A) :
  occ j (map (fun _ => i) l) = if decide (i = j) then length l else 0%nat.
Proof.
  induction l as [|x l IH]; simpl.
  - destruct (decide (i = j)); reflexivity.
  - rewrite occ_cons, IH. destruct (decide (i = j)); reflexivity.
Qed.

Lemma occ_os_of_jobs (js : list Job) : forall i j : Z,
  occ j (os_of_jobs js i) =
  if decide (i <= j) then length (default [] (js !! Z.to_nat (j - i)))
  else 0%nat.
Proof.
  induction js as [|job rest IH]; intros i j; simpl.
  - destruct (decide (i <= j)); reflexivity.
  - rewrite occ_app, occ_const_map, IH.
    destruct (decide (i = j)) as [->|Hne].
    + rewrite decide_False by lia. rewrite decide_True by lia.
      rewrite Z.sub_diag. simpl. lia.
    + destruct (decide (i <= j)).
      * rewrite decide_True by lia.
        replace (Z.to_nat (j - i)) with (S (Z.to_nat (j - (i + 1)))) by lia.
        reflexivity.
      * rewrite decide_False by lia. reflexivity.
Qed.

Lemma shuffle_loop_perm {A} (n : nat) : forall (x : list A) (w : world),
  (n = 0%nat \/ n < length x)%nat ->
  exists x' w', shuffle_loop n x w = Ok (x', w') /\ Permutation x' x /\
                heap w' = heap w.
Proof.
  induction n as [|n IH]; intros x w Hn.
  - eexists _, _. split; [reflexivity|]. split; reflexivity.
  - destruct Hn as [|Hn]; [discriminate|].
    cbn [shuffle_loop].
    destruct (randint_spec 0 (Z.of_nat (S n)) w) as (j & w1 & Hr & Hj & Hh);
      [lia|].
    destruct (lookup_lt_is_Some_2 x (Z.to_nat j)) as [xj Hxj]; [lia|].
    destruct (lookup_lt_is_Some_2 x (S n)) as [xi Hxi]; [lia|].
    unfold then_ at 1. rewrite Hr.
    unfold then_ at 1, lift at 1.
    rewrite (getitem_lookup x j xj) by (lia || exact Hxj).
    unfold then_ at 1, lift at 1.
    rewrite (getitem_lookup x (Z.of_nat (S n)) xi)
      by (lia || rewrite Nat2Z.id; exact Hxi).
    unfold then_ at 1, lift at 1. rewrite setitem_insert by lia.
    unfold then_ at 1, lift at 1.
    rewrite setitem_insert by (rewrite length_insert; lia).
    rewrite Nat2Z.id.
    destruct (IH (<[Z.to_nat j := xi]> (<[S n := xj]> x)) w1)
      as (x' & w' & Hs & Hp & Hh').
    { right. rewrite !length_insert. lia. }
    exists x', w'. split; [exact Hs|]. split; [|congruence].
    rewrite Hp. apply Permutation_insert_swap; assumption.
Qed.

Lemma generateOS_legal_lemma (parameters : Instance) (w : world) :
  exists OS w', generateOS parameters w = Ok (OS, w') /\
                legal_OS parameters OS.
Proof.
  unfold generateOS, shuffle.
  destruct (shuffle_loop_perm (length (os_of_jobs (jobs parameters) 0) - 1)
              (os_of_jobs (jobs parameters) 0) w) as (OS & w' & Hs & Hp & _);
    [lia|].
  exists OS, w'. split; [exact Hs|].
  intros j. unfold occ.
  rewrite (proj1 (Permutation_count_occ Z.eq_dec _ _) Hp j).
  fold (occ j (os_of_jobs (jobs parameters) 0)).
  rewrite occ_os_of_jobs. unfold ops_of.
  rewrite Z.sub_0_r. destruct (decide (0 <= j)).
  - rewrite bool_decide_eq_true_2 by assumption. reflexivity.
  - rewrite bool_decide_eq_false_2 by assumption. reflexivity.
Qed.

(** X8.  [generateOS] returns, on every instance and for all draws, a
    sequence in which job [j] occurs exactly [|jobs[j]|] times and nothing
    else occurs. *)
Theorem generateOS_legal (parameters : Instance) (w : world) :
  exists OS w', generateOS parameters w = Ok (OS, w') /\
                legal_OS parameters OS.
Proof. apply generateOS_legal_lemma. Qed.

Lemma ms_of_job_spec (job : Job) : forall w : world,
  Forall (fun op : Operation => op <> []) job ->
  exists m w', ms_of_job job w = Ok (m, w') /\
    Forall2 (fun (op : Operation) i => 0 <= i < Z.of_nat (length op)) job m /\
    heap w' = heap w.
Proof.
  induction job as [|op job IH]; intros w Hne.
  - eexists _, _. split; [reflexivity|]. split; [constructor|reflexivity].
  - apply Forall_cons in Hne as [Hop Hne]. cbn [ms_of_job].
    destruct (randint_spec 0 (len op - 1) w) as (x & w1 & Hr & Hx & Hh).
    { unfold len. destruct op; [congruence|simpl; lia]. }
    destruct (IH w1 Hne) as (m & w' & Hm & Hl & Hh').
    unfold then_. rewrite Hr, Hm. eexists _, _. split; [reflexivity|].
    split; [|congruence]. constructor; [unfold len in Hx; lia|exact Hl].
Qed.

Lemma ms_of_jobs_spec (js : list Job) : forall w : world,
  Forall (fun op : Operation => op <> []) (concat js) ->
  exists ms w', ms_of_jobs js w = Ok (ms, w') /\
    Forall2 (fun (op : Operation) i => 0 <= i < Z.of_nat (length op))
            (concat js) ms /\
    heap w' = heap w.
Proof.
  induction js as [|job rest IH]; intros w Hne.
  - eexists _, _. split; [reflexivity|]. split; [constructor|reflexivity].
  - simpl in Hne. apply Forall_app in Hne as [Hjob Hrest]. cbn [ms_of_jobs].
    destruct (ms_of_job_spec job w Hjob) as (m & w1 & Hm & Hl & Hh).
    destruct (IH w1 Hrest) as (ms & w' & Hms & Hl' & Hh').
    unfold then_. rewrite Hm, Hms. eexists _, _. split; [reflexivity|].
    split; [|congruence]. simpl. apply Forall2_app; assumption.
Qed.

(** X9.  When every operation has at least one machine option,
    [generateMS] returns a sequence whose entry at each position indexes
    an option of the operation at that position. *)
Theorem generateMS_legal (parameters : Instance) (w : world) :
  Forall (fun op : Operation => op <> []) (concat (jobs parameters)) ->
  exists MS w', generateMS parameters w = Ok (MS, w') /\
                legal_MS parameters MS.
Proof.
  intros Hne. destruct (ms_of_jobs_spec (jobs parameters) w Hne)
    as (ms & w' & H & Hl & _).
  exists ms, w'. split; [exact H|exact Hl].
Qed.

Lemma generateMS_legal_witness :
  exists MS w', generateMS inst_two_options (mkWorld [] (fun _ => 1))
                = Ok (MS, w') /\ legal_MS inst_two_options MS.
Proof.
  apply (generateMS_legal inst_two_options (mkWorld [] (fun _ => 1))).
  repeat constructor; discriminate.
Defined.

Lemma ms_of_job_empty_option (job : Job) : forall w : world,
  [] ∈ job -> ms_of_job job w = Raise ValueError.
Proof.
  induction job as [|op job IH]; intros w Hin; [inversion Hin|].
  cbn [ms_of_job]. destruct op as [|o op].
  - reflexivity.
  - apply elem_of_cons in Hin as [Hin|Hin]; [discriminate|].
    destruct (randint_spec 0 (len (o :: op) - 1) w) as (x & w1 & Hr & _).
    { unfold len. simpl. lia. }
    unfold then_. rewrite Hr, (IH w1 Hin). reflexivity.
Qed.

Lemma ms_of_job_raise (job : Job) : forall (w : world) (e : exn),
  ms_of_job job w = Raise e -> e = ValueError.
Proof.
  induction job as [|op job IH]; intros w e; cbn [ms_of_job]; [discriminate|].
  unfold then_ at 1. unfold randint.
  destruct (len op - 1 <? 0); [unfold raise; congruence|].
  unfold then_ at 1, draw, pure. unfold then_.
  destruct (ms_of_job job _) as [[? ?]|e'] eqn:Hj; [discriminate|].
  intros [= <-]. eapply IH, Hj.
Qed.

(** X10.  When some operation has no machine option, [generateMS] raises
    [ValueError] (the empty range of [randint]). *)
Theorem generateMS_empty_option (parameters : Instance) (w : world) :
  [] ∈ concat (jobs parameters) ->
  generateMS parameters w = Raise ValueError.
Proof.
  unfold generateMS. revert w.
  induction (jobs parameters) as [|job rest IH]; intros w Hin; [inversion Hin|].
  simpl in Hin. apply elem_of_app in Hin as [Hin|Hin]; cbn [ms_of_jobs].
  - unfold then_. rewrite (ms_of_job_empty_option job w Hin). reflexivity.
  - unfold then_ at 1.
    destruct (ms_of_job job w) as [[m w1]|e] eqn:Hj.
    + unfold then_. rewrite (IH w1 Hin). reflexivity.
    + apply ms_of_job_raise in Hj as ->. reflexivity.
Qed.

Lemma generateMS_empty_option_witness :
  generateMS (mkInstance 1 [[[mkOption 1 2]; []]]) (mkWorld [] (fun _ => 0))
  = Raise ValueError.
Proof.
  apply (generateMS_empty_option (mkInstance 1 [[[mkOption 1 2]; []]])).
  simpl. apply elem_of_cons. right. left.
Defined.

Lemma population_of_spec (parameters : Instance) (n : nat) : forall w : world,
  Forall (fun op : Operation => op <> []) (concat (jobs parameters)) ->
  exists pop w', population_of n parameters w = Ok (pop, w') /\
    length pop = n /\
    Forall (fun c : chromosome =>
              legal_OS parameters c.1 /\ legal_MS parameters c.2) pop.
Proof.
  induction n as [|n IH]; intros w Hne.
  - eexists _, _. split; [reflexivity|]. split; [reflexivity|constructor].
  - cbn [population_of].
    destruct (generateOS_legal_lemma parameters w) as (OS & w1 & Ho & Hol).
    destruct (ms_of_jobs_spec (jobs parameters) w1 Hne) as (MS & w2 & Hm & Hml & _).
    destruct (IH w2 Hne) as (pop & w' & Hp & Hl & Hall).
    unfold then_. rewrite Ho. unfold generateMS. rewrite Hm, Hp.
    eexists _, _. split; [reflexivity|]. split; [simpl; congruence|].
    constructor; [split; assumption|exact Hall].
Qed.

Lemma valid_instance_options (pb_instance : Instance) :
  valid_instance pb_instance ->
  Forall (fun op : Operation => op <> []) (concat (jobs pb_instance)).
Proof.
  unfold valid_instance. intros H. eapply Forall_impl; [exact H|].
  simpl. intros op [Hne _]. exact Hne.
Qed.

(** X11.  On a valid instance with positive processing times and at least
    one machine, [initializePopulation] returns [popSize] chromosomes, each
    with a legal OS and a legal MS, and each with a defined makespan. *)
Theorem initializePopulation_legal
    (popSize : Z) (parameters : Instance) (w : world) :
  valid_instance parameters -> positive_times parameters ->
  0 < machinesNb parameters ->
  exists pop w',
    initializePopulation popSize parameters w = Ok (pop, w') /\
    length pop = Z.to_nat popSize /\
    Forall (fun c : chromosome =>
              legal_OS parameters c.1 /\ legal_MS parameters c.2 /\
              exists T, timeTaken parameters c = Ok T) pop.
Proof.
  intros Hvalid Hpos HM. unfold initializePopulation.
  destruct (population_of_spec parameters (Z.to_nat popSize) w
              (valid_instance_options _ Hvalid)) as (pop & w' & Hp & Hl & Hall).
  exists pop, w'. split; [exact Hp|]. split; [exact Hl|].
  eapply Forall_impl; [exact Hall|]. simpl. intros [OS MS] [Ho Hm].
  split; [exact Ho|]. split; [exact Hm|].
  destruct (timeTaken_legal_spec parameters OS MS Hvalid Hpos HM Ho Hm)
    as (T & _ & HT & _).
  exists T. exact HT.
Qed.

Lemma initializePopulation_legal_witness :
  exists pop w',
    initializePopulation 4 inst_gap (mkWorld [] (fun n => Z.of_nat n))
      = Ok (pop, w') /\
    length pop = Z.to_nat 4 /\
    Forall (fun c : chromosome =>
              legal_OS inst_gap c.1 /\ legal_MS inst_gap c.2 /\
              exists T, timeTaken inst_gap c = Ok T) pop.
Proof.
  apply (initializePopulation_legal 4 inst_gap (mkWorld [] (fun n => Z.of_nat n))).
  - repeat constructor; discriminate.
  - repeat constructor.
  - simpl. lia.
Defined.

(** ** Operators keep chromosomes legal *)

Lemma splice_Forall2 {A B} (P : A -> B -> Prop) (a b : nat)
    (l : list A) (x y : list B) :
  (a <= b)%nat -> Forall2 P l x -> Forall2 P l y ->
  Forall2 P l (take a x ++ take (b - a) (drop a y) ++ drop b x).
Proof.
  intros Hab Hx Hy.
  rewrite <- (take_drop a l) at 1.
  apply Forall2_app; [apply Forall2_take, Hx|].
  rewrite <- (take_drop (b - a) (drop a l)).
  apply Forall2_app; [apply Forall2_take, Forall2_drop, Hy|].
  rewrite drop_drop. replace (a + (b - a))%nat with b by lia.
  apply Forall2_drop, Hx.
Qed.

Lemma twoPointCrossover_spec (p1 p2 : list Z) (w : world) :
  p1 <> [] ->
  exists (a b : nat) w', (a <= b < length p1)%nat /\
    twoPointCrossover p1 p2 w =
      Ok (if decide (a = b) then (p1, p2)
          else (take a p1 ++ take (b - a) (drop a p2) ++ drop b p1,
                take a p2 ++ take (b - a) (drop a p1) ++ drop b p2), w').
Proof.
  intros Hne. unfold twoPointCrossover.
  assert (0 <= len p1 - 1) as Hlen
    by (unfold len; destruct p1; [congruence|simpl; lia]).
  destruct (randint_spec 0 _ w Hlen) as (pos1 & w1 & Hr1 & Hp1 & _).
  destruct (randint_spec 0 _ w1 Hlen) as (pos2 & w2 & Hr2 & Hp2 & _).
  unfold then_ at 1. rewrite Hr1. unfold then_ at 1. rewrite Hr2.
  unfold len in *.
  destruct (Z.ltb_spec pos2 pos1).
  - exists (Z.to_nat pos2), (Z.to_nat pos1), w2. split; [lia|].
    unfold pure, slice. rewrite !Z.sub_0_r. simpl drop.
    destruct (Z.eqb_spec pos2 pos1); [lia|].
    rewrite decide_False by lia.
    replace (Z.to_nat (pos1 - pos2)) with (Z.to_nat pos1 - Z.to_nat pos2)%nat
      by lia. reflexivity.
  - exists (Z.to_nat pos1), (Z.to_nat pos2), w2. split; [lia|].
    unfold pure, slice. rewrite !Z.sub_0_r. simpl drop.
    destruct (Z.eqb_spec pos1 pos2) as [->|].
    + rewrite decide_True by reflexivity. reflexivity.
    + rewrite decide_False by lia.
      replace (Z.to_nat (pos2 - pos1)) with (Z.to_nat pos2 - Z.to_nat pos1)%nat
        by lia. reflexivity.
Qed.

Lemma twoPointCrossover_legal_lemma
    (parameters : Instance) (p1 p2 : list Z) (w : world) :
  legal_MS parameters p1 -> legal_MS parameters p2 -> p1 <> [] ->
  exists o1 o2 w', twoPointCrossover p1 p2 w = Ok ((o1, o2), w') /\
    legal_MS parameters o1 /\ legal_MS parameters o2.
Proof.
  intros H1 H2 Hne.
  destruct (twoPointCrossover_spec p1 p2 w Hne) as (a & b & w' & Hab & Heq).
  rewrite Heq. destruct (decide (a = b)).
  - eexists _, _, _. split; [reflexivity|]. auto.
  - eexists _, _, _. split; [reflexivity|].
    split; apply splice_Forall2; (lia || assumption).
Qed.

(** X12.  Two-point crossover of two legal MS parents returns two legal MS
    offspring (each entry still indexes an option of the operation at its
    position), for all draws. *)
Theorem twoPointCrossover_legal
    (parameters : Instance) (p1 p2 : list Z) (w : world) :
  legal_MS parameters p1 -> legal_MS parameters p2 -> p1 <> [] ->
  exists o1 o2 w', twoPointCrossover p1 p2 w = Ok ((o1, o2), w') /\
    legal_MS parameters o1 /\ legal_MS parameters o2.
Proof. apply twoPointCrossover_legal_lemma. Qed.

Lemma twoPointCrossover_legal_witness :
  exists o1 o2 w',
    twoPointCrossover [0; 0] [1; 1] (mkWorld [] (fun n => Z.of_nat n))
      = Ok ((o1, o2), w') /\
    legal_MS inst_two_options o1 /\ legal_MS inst_two_options o2.
Proof.
  apply (twoPointCrossover_legal inst_two_options [0; 0] [1; 1]).
  - unfold legal_MS. simpl. repeat constructor; simpl; lia.
  - unfold legal_MS. simpl. repeat constructor; simpl; lia.
  - discriminate.
Defined.

(** A list cut at two positions [a < b]. *)
Lemma split_at_two {A} (p : list A) (a b : nat) (xa xb : A) :
  (a < b)%nat -> p !! a = Some xa -> p !! b = Some xb ->
  p = take a p ++ xa :: take (b - S a) (drop (S a) p) ++ xb :: drop (S b) p.
Proof.
  intros Hab Ha Hb.
  rewrite <- (take_drop_middle p a xa Ha) at 1. f_equal. f_equal.
  assert (Hb' : drop (S a) p !! (b - S a)%nat = Some xb).
  { rewrite lookup_drop. replace (S a + (b - S a))%nat with b by lia. exact Hb. }
  rewrite <- (take_drop_middle _ _ _ Hb') at 1. f_equal. f_equal.
  rewrite drop_drop. f_equal. lia.
Qed.

Lemma swappingMutation_spec (p : list Z) (w : world) :
  p <> [] ->
  exists off w', swappingMutation p w = Ok (off, w') /\ Permutation off p /\
                 length off = length p.
Proof.
  intros Hne. unfold swappingMutation.
  assert (0 <= len p - 1) as Hlen
    by (unfold len; destruct p; [congruence|simpl; lia]).
  destruct (randint_spec 0 _ w Hlen) as (pos1 & w1 & Hr1 & Hp1 & _).
  destruct (randint_spec 0 _ w1 Hlen) as (pos2 & w2 & Hr2 & Hp2 & _).
  unfold then_ at 1. rewrite Hr1. unfold then_ at 1. rewrite Hr2.
  destruct (Z.eqb_spec pos1 pos2) as [Heq|Hneq].
  { eexists _, _. split; [reflexivity|]. split; reflexivity. }
  assert (Hgen : forall a b : Z, 0 <= a < b -> b <= len p - 1 ->
            exists off,
              (e2 <~ lift (getitem p b) ;;
               e1 <~ lift (getitem p a) ;;
               pure (slice p 0 a ++ [e2] ++ slice p (a + 1) b ++ [e1]
                       ++ drop (Z.to_nat (b + 1)) p)) w2 = Ok (off, w2) /\
              Permutation off p /\ length off = length p).
  { intros a b Hab Hb. unfold len in *.
    destruct (lookup_lt_is_Some_2 p (Z.to_nat a)) as [xa Ha]; [lia|].
    destruct (lookup_lt_is_Some_2 p (Z.to_nat b)) as [xb Hxb]; [lia|].
    unfold then_, lift, pure.
    rewrite (getitem_lookup p b xb) by (lia || exact Hxb).
    rewrite (getitem_lookup p a xa) by (lia || exact Ha).
    eexists. split; [reflexivity|].
    unfold slice. rewrite Z.sub_0_r. simpl drop.
    replace (Z.to_nat (b - (a + 1))) with (Z.to_nat b - S (Z.to_nat a))%nat by lia.
    replace (Z.to_nat (a + 1)) with (S (Z.to_nat a)) by lia.
    replace (Z.to_nat (b + 1)) with (S (Z.to_nat b)) by lia.
    pose proof (split_at_two p (Z.to_nat a) (Z.to_nat b) xa xb ltac:(lia) Ha Hxb)
      as Hsplit.
    set (pre := take (Z.to_nat a) p) in *.
    set (mid := take (Z.to_nat b - S (Z.to_nat a)) (drop (S (Z.to_nat a)) p)) in *.
    set (post := drop (S (Z.to_nat b)) p) in *.
    assert (Hperm : Permutation (pre ++ [xb] ++ mid ++ [xa] ++ post) p).
    { rewrite Hsplit at 1. apply Permutation_app_head. simpl.
      rewrite <- !Permutation_middle. apply perm_swap. }
    split; [exact Hperm|]. apply Permutation_length, Hperm. }
  destruct (Z.ltb_spec pos2 pos1).
  - destruct (Hgen pos2 pos1) as (off & Ho & Hperm); [lia..|]. eauto.
  - destruct (Hgen pos1 pos2) as (off & Ho & Hperm); [lia..|]. eauto.
Qed.

(** X13.  Swapping mutation returns, for all draws, a rearrangement of its
    argument: the same job ids with the same multiplicities, so a legal OS
    stays legal. *)
Theorem swappingMutation_permutes
    (parameters : Instance) (p : list Z) (w : world) :
  p <> [] ->
  exists off w', swappingMutation p w = Ok (off, w') /\ Permutation off p /\
    (legal_OS parameters p -> legal_OS parameters off).
Proof.
  intros Hne. destruct (swappingMutation_spec p w Hne) as (off & w' & H & Hp & _).
  exists off, w'. split; [exact H|]. split; [exact Hp|].
  intros Hl j. rewrite <- (Hl j). unfold occ.
  apply (Permutation_count_occ Z.eq_dec), Hp.
Qed.

Lemma swappingMutation_permutes_witness :
  exists off w',
    swappingMutation [0; 1; 0] (mkWorld [] (fun n => Z.of_nat n)) = Ok (off, w') /\
    Permutation off [0; 1; 0] /\
    (legal_OS inst_gap [0; 1; 0] -> legal_OS inst_gap off).
Proof.
  apply (swappingMutation_permutes inst_gap [0; 1; 0]). discriminate.
Defined.

Lemma sorted_three_distinct (a b c : Z) :
  a <> b -> b <> c -> a <> c ->
  exists x y z, sorted_ints [a; b; c] = [x; y; z] /\ x < y < z /\
    (x = a \/ x = b \/ x = c) /\ (y = a \/ y = b \/ y = c) /\
    (z = a \/ z = b \/ z = c).
Proof.
  intros Hab Hbc Hac. unfold sorted_ints, sort_keyed. simpl.
  destruct (Z.leb_spec b c); simpl;
    destruct (Z.leb_spec a b); simpl; try destruct (Z.leb_spec a c); simpl;
    eexists _, _, _; (split; [reflexivity|]); lia.
Qed.

Lemma split_at_three {A} (p : list A) (x y z : nat) (ex ey ez : A) :
  (x < y < z)%nat -> p !! x = Some ex -> p !! y = Some ey -> p !! z = Some ez ->
  p = take x p ++ ex :: take (y - S x) (drop (S x) p)
        ++ ey :: take (z - S y) (drop (S y) p) ++ ez :: drop (S z) p.
Proof.
  intros Hxyz Hx Hy Hz.
  rewrite (split_at_two p x y ex ey ltac:(lia) Hx Hy) at 1.
  do 4 f_equal.
  assert (Hz' : drop (S y) p !! (z - S y)%nat = Some ez).
  { rewrite lookup_drop. replace (S y + (z - S y))%nat with z by lia. exact Hz. }
  rewrite <- (take_drop_middle _ _ _ Hz') at 1. do 2 f_equal.
  rewrite drop_drop. f_equal. lia.
Qed.

Lemma three_to_front {A} (pre m1 m2 post : list A) (a b c : A) :
  Permutation (pre ++ a :: m1 ++ b :: m2 ++ c :: post)
              ([a; b; c] ++ pre ++ m1 ++ m2 ++ post).
Proof.
  change (pre ++ a :: m1 ++ b :: m2 ++ c :: post)
    with (pre ++ [a] ++ m1 ++ [b] ++ m2 ++ [c] ++ post).
  solve_Permutation.
Qed.

Lemma neighborhood_build_perm (p : list Z) (pos1 pos2 pos3 : Z) (w : world)
    (off : list Z) (w' : world) :
  0 <= pos1 < len p -> 0 <= pos2 < len p -> 0 <= pos3 < len p ->
  pos1 <> pos2 -> pos2 <> pos3 -> pos1 <> pos3 ->
  neighborhood_build p pos1 pos2 pos3 w = Ok (off, w') ->
  Permutation off p /\ heap w' = heap w.
Proof.
  intros H1 H2 H3 H12 H23 H13. unfold neighborhood_build.
  destruct (sorted_three_distinct pos1 pos2 pos3 H12 H23 H13)
    as (x & y & z & -> & Hxyz & Hx & Hy & Hz).
  assert (0 <= x < len p) as Hxr by (destruct Hx as [->|[->| ->]]; assumption).
  assert (0 <= y < len p) as Hyr by (destruct Hy as [->|[->| ->]]; assumption).
  assert (0 <= z < len p) as Hzr by (destruct Hz as [->|[->| ->]]; assumption).
  change (getitem [x; y; z] 0) with (Ok (A := Z) x).
  change (getitem [x; y; z] 1) with (Ok (A := Z) y).
  change (getitem [x; y; z] 2) with (Ok (A := Z) z).
  unfold then_ at 1, lift at 1. unfold then_ at 1, lift at 1.
  unfold then_ at 1, lift at 1.
  unfold len in Hxr, Hyr, Hzr.
  destruct (lookup_lt_is_Some_2 p (Z.to_nat x)) as [ex Hex]; [lia|].
  destruct (lookup_lt_is_Some_2 p (Z.to_nat y)) as [ey Hey]; [lia|].
  destruct (lookup_lt_is_Some_2 p (Z.to_nat z)) as [ez Hez]; [lia|].
  rewrite (getitem_lookup p x ex) by (lia || exact Hex).
  rewrite (getitem_lookup p y ey) by (lia || exact Hey).
  rewrite (getitem_lookup p z ez) by (lia || exact Hez).
  unfold then_ at 1, lift at 1. unfold then_ at 1, lift at 1.
  unfold then_ at 1, lift at 1.
  destruct (choice_elem (permutations3 ex ey ez) w)
    as (perm & w1 & Hc & Hin & Hh); [discriminate|].
  unfold then_ at 1. rewrite Hc.
  pose proof (split_at_three p (Z.to_nat x) (Z.to_nat y) (Z.to_nat z) ex ey ez
                ltac:(lia) Hex Hey Hez) as Hsplit.
  unfold slice. rewrite Z.sub_0_r. simpl drop.
  replace (Z.to_nat (y - (x + 1))) with (Z.to_nat y - S (Z.to_nat x))%nat by lia.
  replace (Z.to_nat (z - (y + 1))) with (Z.to_nat z - S (Z.to_nat y))%nat by lia.
  replace (Z.to_nat (x + 1)) with (S (Z.to_nat x)) by lia.
  replace (Z.to_nat (y + 1)) with (S (Z.to_nat y)) by lia.
  replace (Z.to_nat (z + 1)) with (S (Z.to_nat z)) by lia.
  set (pre := take (Z.to_nat x) p) in *.
  set (m1 := take (Z.to_nat y - S (Z.to_nat x)) (drop (S (Z.to_nat x)) p)) in *.
  set (m2 := take (Z.to_nat z - S (Z.to_nat y)) (drop (S (Z.to_nat y)) p)) in *.
  set (post := drop (S (Z.to_nat z)) p) in *.
  assert (Hgen : forall a b c, Permutation [a; b; c] [ex; ey; ez] ->
            Permutation (pre ++ [a] ++ m1 ++ [b] ++ m2 ++ [c] ++ post) p).
  { intros a b c Hp. rewrite Hsplit at 1. simpl.
    rewrite !three_to_front. apply Permutation_app_tail, Hp. }
  unfold permutations3 in Hin.
  repeat (apply elem_of_cons in Hin as [->|Hin]); [..|inversion Hin];
    unfold then_, lift, pure; simpl; intros [= <- <-];
    (split; [|exact Hh]); apply Hgen; solve_Permutation.
Qed.

Lemma value_at_differs (p : list Z) (a b : Z) :
  value_at p a <> value_at p b -> a <> b.
Proof. congruence. Qed.

Lemma neighborhoodMutation_inv (fuel : nat) (p : list Z) (w : world)
    (off : list Z) (w' : world) :
  neighborhoodMutation fuel p w = Some (Ok (off, w')) ->
  Permutation off p /\ heap w' = heap w /\
  exists pos1 pos2 pos3,
    0 <= pos1 < len p /\ 0 <= pos2 < len p /\ 0 <= pos3 < len p /\
    value_at p pos1 <> value_at p pos2 /\ value_at p pos2 <> value_at p pos3 /\
    value_at p pos1 <> value_at p pos3.
Proof.
  intros H.
  destruct (decide (p = [])) as [->|Hne]; [discriminate H|].
  destruct (randint_position p w Hne) as (w1 & Hr1 & Hh1 & _).
  pose proof (position_of_range p (tape w 0%nat) Hne) as Hp1.
  set (pos1 := position_of p (tape w 0%nat)) in *.
  unfold neighborhoodMutation, thenF at 1, liftM at 1 in H. rewrite Hr1 in H.
  unfold thenF at 1 in H.
  destruct (resample fuel p _ _ w1) as [r2|] eqn:E2; [|discriminate].
  assert (Hh2 : forall again pos wa pos' wb,
            resample fuel p again pos wa = Some (Ok (pos', wb)) ->
            heap wb = heap wa).
  { clear. induction fuel as [|fuel IH]; intros again pos wa pos' wb; simpl;
      destruct (again pos) as [[|]|]; try discriminate;
      try (intros [= _ <-]; reflexivity).
    unfold randint. destruct (len p - 1 <? 0); [discriminate|].
    unfold then_, draw, pure. intros Hres. apply IH in Hres. exact Hres. }
  pose proof E2 as E2'.
  apply resample_exit in E2 as (pos2 & w2 & -> & Hp2 & Hexit2);
    [|exact Hne| |exact Hp1].
  2:{ intros x Hx. rewrite same_value_spec by assumption. eauto. }
  apply Hh2 in E2'.
  unfold thenF at 1 in H.
  destruct (resample fuel p _ _ w2) as [r3|] eqn:E3; [|discriminate].
  pose proof E3 as E3'.
  apply resample_exit in E3 as (pos3 & w3 & -> & Hp3 & Hexit3);
    [|exact Hne| |exact Hp1].
  2:{ intros x Hx. rewrite same_as_either_spec by assumption. eauto. }
  apply Hh2 in E3'.
  rewrite same_value_spec in Hexit2 by assumption.
  rewrite same_as_either_spec in Hexit3 by assumption.
  injection Hexit2 as Hexit2. injection Hexit3 as Hexit3.
  apply orb_false_elim in Hexit3 as [Hexit3a Hexit3b].
  apply Z.eqb_neq in Hexit2, Hexit3a, Hexit3b.
  unfold liftM in H. injection H as H.
  apply neighborhood_build_perm in H as [Hperm Hh3]; try assumption;
    try (apply (value_at_differs p); congruence).
  split; [exact Hperm|]. split; [congruence|].
  exists pos1, pos2, pos3. repeat split; try lia; congruence.
Qed.

(** X14.  Whenever [neighborhoodMutation] returns an offspring, the offspring
    is a rearrangement of its argument (so a legal OS stays legal), the store
    is untouched, and the argument holds at least three different job ids. *)
Theorem neighborhoodMutation_permutes
    (parameters : Instance) (fuel : nat) (p : list Z) (w : world)
    (off : list Z) (w' : world) :
  neighborhoodMutation fuel p w = Some (Ok (off, w')) ->
  Permutation off p /\ heap w' = heap w /\
  (legal_OS parameters p -> legal_OS parameters off) /\
  exists a b c, a ∈ p /\ b ∈ p /\ c ∈ p /\ a <> b /\ b <> c /\ a <> c.
Proof.
  intros H. apply neighborhoodMutation_inv in H
    as (Hperm & Hh & pos1 & pos2 & pos3 & H1 & H2 & H3 & Hd).
  split; [exact Hperm|]. split; [exact Hh|]. split.
  - intros Hl j. rewrite <- (Hl j). unfold occ.
    apply (Permutation_count_occ Z.eq_dec), Hperm.
  - assert (Hin : forall pos, 0 <= pos < len p -> value_at p pos ∈ p).
    { intros pos Hpos. unfold len in Hpos.
      destruct (lookup_lt_is_Some_2 p (Z.to_nat pos)) as [x Hx]; [lia|].
      unfold value_at. rewrite Hx. eapply list_elem_of_lookup_2, Hx. }
    exists (value_at p pos1), (value_at p pos2), (value_at p pos3).
    repeat split; auto; tauto.
Qed.

Lemma neighborhoodMutation_permutes_witness :
  exists off w',
    neighborhoodMutation 1 [0; 1; 2] (mkWorld [] (fun n => Z.of_nat n))
      = Some (Ok (off, w')) /\
    Permutation off [0; 1; 2] /\ heap w' = [] /\
    (legal_OS inst_gap [0; 1; 2] -> legal_OS inst_gap off) /\
    exists a b c : Z, a ∈ [0; 1; 2] /\ b ∈ [0; 1; 2] /\ c ∈ [0; 1; 2] /\
                  a <> b /\ b <> c /\ a <> c.
Proof.
  eexists _, _. split; [vm_compute; reflexivity|].
  apply (neighborhoodMutation_permutes inst_gap 1 [0; 1; 2]
           (mkWorld [] (fun n => Z.of_nat n))).
  vm_compute. reflexivity.
Defined.

(** ** Half mutation on the store *)

Lemma half_job_spec (o : loc) (positions : list Z) (ops : list Operation) :
  forall (job : Job) (pre post : list Operation) (w : world) (ms : list Z),
  ops = pre ++ job ++ post ->
  heap w !! o = Some ms ->
  Forall2 (fun (op : Operation) i => 0 <= i < Z.of_nat (length op)) ops ms ->
  exists w' ms',
    half_job o positions job (len pre) w = Ok (len pre + len job, w') /\
    heap w' = <[o := ms']> (heap w) /\
    Forall2 (fun (op : Operation) i => 0 <= i < Z.of_nat (length op)) ops ms'.
Proof.
  induction job as [|op job IH]; intros pre post w ms Hops Hw Hms.
  - exists w, ms. simpl. unfold pure, len. simpl. rewrite Z.add_0_r.
    split; [reflexivity|]. split; [|exact Hms].
    symmetry. apply list_insert_id, Hw.
  - assert (Hop : ops !! length pre = Some op).
    { rewrite Hops. apply list_lookup_middle. reflexivity. }
    assert (Hstep : exists w1 ms1,
              (if py_in (len pre) positions then
                 x <~ randint 0 (len op - 1) ;; write_at o (len pre) x
               else pure tt) w = Ok (tt, w1) /\
              heap w1 = <[o := ms1]> (heap w) /\
              Forall2 (fun (op : Operation) i => 0 <= i < Z.of_nat (length op))
                      ops ms1).
    { destruct (py_in (len pre) positions).
      - destruct (Forall2_lookup_l _ _ _ _ _ Hms Hop) as (x0 & Hx0 & Hr0).
        destruct (randint_spec 0 (len op - 1) w) as (x & w1 & Hr & Hx & Hh);
          [unfold len; lia|].
        pose proof (lookup_lt_Some _ _ _ Hx0) as Hlt.
        assert (Hwr : (x <~ randint 0 (len op - 1) ;; write_at o (len pre) x) w
                      = Ok (tt, mkWorld (<[o := <[length pre := x]> ms]> (heap w))
                                        (tape w1))).
        { unfold then_. rewrite Hr. unfold write_at. rewrite Hh, Hw.
          rewrite setitem_insert by (unfold len; lia).
          unfold len. rewrite Nat2Z.id. reflexivity. }
        rewrite Hwr. eexists _, _. split; [reflexivity|]. simpl.
        split; [reflexivity|].
        rewrite <- (list_insert_id ops (length pre) op Hop) at 1.
        apply Forall2_insert; [exact Hms|]. unfold len in Hx. lia.
      - exists w, ms. split; [reflexivity|]. split; [|exact Hms].
        symmetry. apply list_insert_id, Hw. }
    destruct Hstep as (w1 & ms1 & Hs & Hh1 & Hms1).
    assert (Hw1 : heap w1 !! o = Some ms1).
    { rewrite Hh1. apply list_lookup_insert_eq. eapply lookup_lt_Some, Hw. }
    destruct (IH (pre ++ [op]) post w1 ms1) as (w' & ms' & Hj & Hh' & Hms').
    { rewrite Hops, <- app_assoc. reflexivity. }
    { exact Hw1. }
    { exact Hms1. }
    exists w', ms'. simpl. unfold then_ at 1. rewrite Hs.
    replace (len pre + 1) with (len (pre ++ [op]))
      by (unfold len; rewrite length_app; simpl; lia).
    rewrite Hj. split.
    { f_equal. f_equal. unfold len. rewrite length_app. simpl. lia. }
    split; [|exact Hms'].
    rewrite Hh', Hh1. apply list_insert_insert_eq.
Qed.

Lemma half_jobs_spec (o : loc) (positions : list Z) (ops : list Operation) :
  forall (js : list Job) (pre : list Operation) (w : world) (ms : list Z),
  ops = pre ++ concat js ->
  heap w !! o = Some ms ->
  Forall2 (fun (op : Operation) i => 0 <= i < Z.of_nat (length op)) ops ms ->
  exists i w' ms',
    half_jobs o positions js (len pre) w = Ok (i, w') /\
    heap w' = <[o := ms']> (heap w) /\
    Forall2 (fun (op : Operation) i => 0 <= i < Z.of_nat (length op)) ops ms'.
Proof.
  induction js as [|job js IH]; intros pre w ms Hops Hw Hms.
  - exists (len pre), w, ms. split; [reflexivity|]. split; [|exact Hms].
    symmetry. apply list_insert_id, Hw.
  - simpl in Hops.
    destruct (half_job_spec o positions ops job pre (concat js) w ms Hops Hw Hms)
      as (w1 & ms1 & Hj & Hh1 & Hms1).
    assert (Hw1 : heap w1 !! o = Some ms1).
    { rewrite Hh1. apply list_lookup_insert_eq. eapply lookup_lt_Some, Hw. }
    destruct (IH (pre ++ job) w1 ms1) as (i & w' & ms' & Hjs & Hh' & Hms').
    { rewrite Hops, <- app_assoc. reflexivity. }
    { exact Hw1. }
    { exact Hms1. }
    exists i, w', ms'. simpl. unfold then_ at 1. rewrite Hj.
    replace (len pre + len job) with (len (pre ++ job))
      by (unfold len; rewrite length_app; lia).
    split; [exact Hjs|]. split; [|exact Hms'].
    rewrite Hh', Hh1. apply list_insert_insert_eq.
Qed.

Lemma halfMutation_spec (p : loc) (parameters : Instance) (w : world)
    (ms : list Z) :
  heap w !! p = Some ms -> legal_MS parameters ms ->
  exists w' ms',
    halfMutation p parameters w = Ok (p, w') /\
    heap w' = <[p := ms']> (heap w) /\ legal_MS parameters ms'.
Proof.
  intros Hw Hms. unfold halfMutation, read. unfold then_ at 1. rewrite Hw.
  destruct (sample_ok (range 0 (len ms)) (len ms / 2) w) as (pos & w1 & Hs & Hh1).
  { unfold range, len. rewrite length_seqZ.
    pose proof (Z.div_pos (Z.of_nat (length ms)) 2).
    pose proof (Z.div_le_upper_bound (Z.of_nat (length ms)) 2
                  (Z.of_nat (length ms))). lia. }
  unfold then_ at 1. rewrite Hs.
  destruct (half_jobs_spec p pos (concat (jobs parameters)) (jobs parameters)
              [] w1 ms eq_refl) as (i & w' & ms' & Hj & Hh' & Hms').
  { rewrite Hh1. exact Hw. }
  { exact Hms. }
  change (len []) with 0 in Hj.
  unfold then_ at 1. rewrite Hj. unfold pure.
  exists w', ms'. split; [reflexivity|]. split; [|exact Hms'].
  rewrite Hh', Hh1. reflexivity.
Qed.

(** X15.  On a legal MS held in the store, [halfMutation] always succeeds;
    it changes the store at the location of its argument only, and the MS
    it leaves there is legal again (same length, every entry an index into
    the options of its operation). *)
Theorem halfMutation_keeps_legal
    (p : loc) (parameters : Instance) (w : world) (ms : list Z) :
  heap w !! p = Some ms -> legal_MS parameters ms ->
  exists w' ms',
    halfMutation p parameters w = Ok (p, w') /\
    heap w' = <[p := ms']> (heap w) /\
    legal_MS parameters ms' /\ length ms' = length ms.
Proof.
  intros Hw Hms.
  destruct (halfMutation_spec p parameters w ms Hw Hms)
    as (w' & ms' & H & Hh & Hms').
  exists w', ms'. split; [exact H|]. split; [exact Hh|]. split; [exact Hms'|].
  rewrite <- (Forall2_length _ _ _ Hms'). apply (Forall2_length _ _ _ Hms).
Qed.

Lemma halfMutation_keeps_legal_witness :
  exists w' ms',
    halfMutation 0%nat inst_two_options (mkWorld [[0; 0]] (fun _ => 1))
      = Ok (0%nat, w') /\
    heap w' = <[0%nat := ms']> [[0; 0]] /\
    legal_MS inst_two_options ms' /\ length ms' = 2%nat.
Proof.
  apply (halfMutation_keeps_legal 0%nat inst_two_options
           (mkWorld [[0; 0]] (fun _ => 1)) [0; 0]).
  - reflexivity.
  - unfold legal_MS. simpl. repeat constructor; simpl; lia.
Defined.

(** ** Crossover and mutation of a population *)

Lemma crossoverOS_legal (parameters : Instance) (p1 p2 : list Z) (w : world) :
  legal_OS parameters p1 -> legal_OS parameters p2 ->
  exists o1 o2 w', crossoverOS p1 p2 parameters w = Ok ((o1, o2), w') /\
    legal_OS parameters o1 /\ legal_OS parameters o2.
Proof.
  intros Hp1 Hp2. unfold crossoverOS.
  destruct (choice_bool_ok w) as (b & w1 & Hb & _).
  unfold then_. rewrite Hb. destruct b.
  - destruct (precedenceOperationCrossover_spec parameters p1 p2 w1 Hp1 Hp2)
      as (o1 & o2 & w' & H & H1 & H2 & _). eauto 6.
  - destruct (jobBasedCrossover_spec parameters p1 p2 w1 Hp1 Hp2)
      as (o1 & o2 & w' & H & H1 & H2 & _). eauto 6.
Qed.

Lemma crossover_legal_pairs (parameters : Instance) (pc : Q) (n : nat) :
  concat (jobs parameters) <> [] ->
  forall (population : list chromosome) (w : world),
  length population = (2 * n)%nat ->
  Forall (fun c : chromosome =>
            legal_OS parameters c.1 /\ legal_MS parameters c.2) population ->
  exists newPop w', crossover population parameters pc w = Ok (newPop, w') /\
    length newPop = length population /\
    Forall (fun c : chromosome =>
              legal_OS parameters c.1 /\ legal_MS parameters c.2) newPop.
Proof.
  intros Hops.
  induction n as [|n IH]; intros population w Hlen Hall.
  - destruct population; [|discriminate].
    eexists _, _. split; [reflexivity|]. split; [reflexivity|constructor].
  - destruct population as [|[OS1 MS1] [|[OS2 MS2] rest]];
      try (simpl in Hlen; lia).
    apply Forall_cons in Hall as [[Ho1 Hm1] Hall].
    apply Forall_cons in Hall as [[Ho2 Hm2] Hall].
    simpl in Ho1, Hm1, Ho2, Hm2.
    cbn [crossover].
    destruct (random_ok w) as (r & w1 & Hr & _).
    unfold then_ at 1. rewrite Hr.
    assert (exists pair w2,
      (if Qlt_le_dec r pc
       then oOS <~ crossoverOS OS1 OS2 parameters ;;
            oMS <~ crossoverMS MS1 MS2 ;;
            pure [(oOS.1, oMS.1); (oOS.2, oMS.2)]
       else pure [(OS1, MS1); (OS2, MS2)]) w1 = Ok (pair, w2) /\
      length pair = 2%nat /\
      Forall (fun c : chromosome =>
                legal_OS parameters c.1 /\ legal_MS parameters c.2) pair)
      as (pair & w2 & Hpair & Hl2 & Hlegal).
    { destruct (Qlt_le_dec r pc).
      - destruct (crossoverOS_legal parameters OS1 OS2 w1 Ho1 Ho2)
          as (o1 & o2 & w2 & Hos & Hlo1 & Hlo2).
        assert (Hne : MS1 <> []).
        { intros ->. apply Forall2_nil_inv_r in Hm1. contradiction. }
        destruct (twoPointCrossover_legal_lemma parameters MS1 MS2 w2 Hm1 Hm2 Hne)
          as (m1 & m2 & w3 & Hms & Hlm1 & Hlm2).
        unfold then_ at 1. rewrite Hos.
        unfold then_ at 1. unfold crossoverMS. rewrite Hms.
        eexists _, _. split; [reflexivity|]. split; [reflexivity|].
        repeat constructor; assumption.
      - eexists _, _. split; [reflexivity|]. split; [reflexivity|].
        repeat constructor; assumption. }
    unfold then_ at 1. rewrite Hpair.
    destruct (IH rest w2) as (newPop & w' & Hrest & Hl & Hall');
      [simpl in Hlen; lia|exact Hall|].
    unfold then_. rewrite Hrest. unfold pure.
    eexists _, _. split; [reflexivity|]. split.
    + rewrite length_app, Hl2, Hl. reflexivity.
    + apply Forall_app. split; assumption.
Qed.

(** X16.  On a population of even size whose chromosomes are all legal (for
    an instance with at least one operation), [crossover] returns a
    population of the same size whose chromosomes are all legal, for all
    draws and every crossover probability. *)
Theorem crossover_keeps_legal
    (parameters : Instance) (pc : Q) (population : list chromosome) (w : world) :
  concat (jobs parameters) <> [] ->
  Nat.Even (length population) ->
  Forall (fun c : chromosome =>
            legal_OS parameters c.1 /\ legal_MS parameters c.2) population ->
  exists newPop w', crossover population parameters pc w = Ok (newPop, w') /\
    length newPop = length population /\
    Forall (fun c : chromosome =>
              legal_OS parameters c.1 /\ legal_MS parameters c.2) newPop.
Proof.
  intros Hops [n Hn] Hall.
  exact (crossover_legal_pairs parameters pc n Hops population w Hn Hall).
Qed.

Lemma crossover_keeps_legal_witness :
  exists newPop w',
    crossover [([0; 0; 1], [0; 0; 0]); ([1; 0; 0], [0; 0; 0])] inst_gap (1 # 1)
      (mkWorld [] (fun n => Z.of_nat n)) = Ok (newPop, w') /\
    length newPop = 2%nat /\
    Forall (fun c : chromosome =>
              legal_OS inst_gap c.1 /\ legal_MS inst_gap c.2) newPop.
Proof.
  apply (crossover_keeps_legal inst_gap (1 # 1)
           [([0; 0; 1], [0; 0; 0]); ([1; 0; 0], [0; 0; 0])]).
  - discriminate.
  - exists 1%nat. reflexivity.
  - repeat constructor; simpl;
      try (apply legal_OSb_spec; vm_compute; reflexivity); lia.
Defined.

Lemma mutationOS_inv (fuel : nat) (p : list Z) (w : world)
    (off : list Z) (w' : world) :
  mutationOS fuel p w = Some (Ok (off, w')) ->
  Permutation off p /\ heap w' = heap w.
Proof.
  unfold mutationOS, thenF, liftM. intros H.
  destruct (choice_bool_ok w) as (b & w1 & Hb & Hh1). rewrite Hb in H.
  destruct b.
  - injection H as H.
    destruct (decide (p = [])) as [->|Hne]; [discriminate H|].
    destruct (swappingMutation_spec p w1 Hne) as (off' & w2 & Hs & Hperm & _).
    assert (Hw2 : heap w2 = heap w1).
    { revert Hs. unfold swappingMutation, then_, randint.
      destruct (len p - 1 <? 0); [discriminate|].
      unfold draw, pure, lift. simpl.
      repeat match goal with
             | |- context [if ?c then _ else _] => destruct c
             | |- context [match getitem ?l ?i with _ => _ end] =>
                 destruct (getitem l i)
             end; try discriminate; intros [= _ <-]; reflexivity. }
    rewrite Hs in H. injection H as <- <-. split; [exact Hperm|congruence].
  - apply neighborhoodMutation_inv in H as (Hperm & Hh & _).
    split; [exact Hperm|congruence].
Qed.

Lemma mutation_inv (parameters : Instance) (pm : Q) (fuel : nat) :
  forall (population newPop : list individual) (w w' : world),
  Forall (legal_MS parameters) (heap w) ->
  Forall (fun ind : individual => (ind.2 < length (heap w))%nat) population ->
  mutation fuel population parameters pm w = Some (Ok (newPop, w')) ->
  Forall2 (fun ind ind' : individual =>
             Permutation ind'.1 ind.1 /\ ind'.2 = ind.2) population newPop /\
  Forall (legal_MS parameters) (heap w') /\
  length (heap w') = length (heap w).
Proof.
  induction population as [|[OS MS] rest IH]; intros newPop w w' Hheap Hloc.
  - simpl. unfold liftM, pure. intros [= <- <-]. auto.
  - apply Forall_cons in Hloc as [Hl Hloc]. simpl in Hl.
    cbn [mutation]. unfold thenF at 1, liftM at 1.
    destruct (random_ok w) as (r & w1 & Hr & Hh1). rewrite Hr.
    unfold thenF at 1.
    assert (Hind : forall res,
      (if Qlt_le_dec r pm
       then oOS <~~ mutationOS fuel OS ;;
            oMS <~~ liftM (mutationMS MS parameters) ;;
            liftM (pure (oOS, oMS))
       else liftM (pure (OS, MS))) w1 = Some (Ok res) ->
      Permutation res.1.1 OS /\ res.1.2 = MS /\
      Forall (legal_MS parameters) (heap res.2) /\
      length (heap res.2) = length (heap w)).
    { intros [[oOS oMS] w2]. destruct (Qlt_le_dec r pm).
      - unfold thenF at 1.
        destruct (mutationOS fuel OS w1) as [[[os' wa]|]|] eqn:Eos;
          try discriminate.
        apply mutationOS_inv in Eos as [Hperm Hha].
        unfold thenF, liftM, mutationMS.
        destruct (lookup_lt_is_Some_2 (heap wa) MS) as [ms Hms]; [congruence|].
        assert (Hlegal : legal_MS parameters ms).
        { eapply Forall_lookup_1; [|exact Hms]. congruence. }
        destruct (halfMutation_spec MS parameters wa ms Hms Hlegal)
          as (wb & ms' & Hhm & Hhb & Hlegal').
        rewrite Hhm. unfold pure. intros [= <- <- <-]. simpl.
        split; [exact Hperm|]. split; [reflexivity|].
        rewrite Hhb, Hha, Hh1. split.
        + apply Forall_insert; assumption.
        + apply length_insert.
      - unfold liftM, pure. intros [= <- <- <-]. simpl.
        split; [reflexivity|]. split; [reflexivity|].
        rewrite Hh1. auto. }
    destruct (if Qlt_le_dec r pm then _ else _) as [[[ind w2]|]|] eqn:Eind;
      try discriminate.
    destruct (Hind _ eq_refl) as (Hperm & Hms & Hheap2 & Hlen2). simpl in *.
    unfold thenF at 1.
    destruct (mutation fuel rest parameters pm w2) as [[[rest' w3]|]|] eqn:Erest;
      try discriminate.
    unfold liftM, pure. intros [= <- <-].
    apply IH in Erest as (Hrest & Hheap3 & Hlen3); [|exact Hheap2|].
    2:{ rewrite Hlen2. exact Hloc. }
    split; [|split; [exact Hheap3|congruence]].
    constructor; [|exact Hrest]. simpl. auto.
Qed.

(** X17.  When the store holds legal MS lists only and every individual
    points into it, a population returned by [mutation] has, position by
    position, an OS that is a rearrangement of the one it was given and the
    same MS location; the store still holds legal MS lists only, and as
    many as before. *)
Theorem mutation_keeps_legal
    (parameters : Instance) (pm : Q) (fuel : nat)
    (population newPop : list individual) (w w' : world) :
  Forall (legal_MS parameters) (heap w) ->
  Forall (fun ind : individual => (ind.2 < length (heap w))%nat) population ->
  mutation fuel population parameters pm w = Some (Ok (newPop, w')) ->
  Forall2 (fun ind ind' : individual =>
             Permutation ind'.1 ind.1 /\ ind'.2 = ind.2) population newPop /\
  Forall (legal_MS parameters) (heap w') /\
  length (heap w') = length (heap w).
Proof. apply mutation_inv. Qed.

Lemma mutation_keeps_legal_witness :
  exists newPop w',
    mutation 1 [([0; 0], 0%nat); ([0; 0], 0%nat)] inst_two_options (1 # 2)
      (mkWorld [[0; 0]] tape_first_only) = Some (Ok (newPop, w')) /\
    Forall2 (fun ind ind' : individual =>
               Permutation ind'.1 ind.1 /\ ind'.2 = ind.2)
            [([0; 0], 0%nat); ([0; 0], 0%nat)] newPop /\
    Forall (legal_MS inst_two_options) (heap w') /\
    length (heap w') = 1%nat.
Proof.
  eexists _, _. split; [vm_compute; reflexivity|].
  apply (mutation_keeps_legal inst_two_options (1 # 2) 1
           [([0; 0], 0%nat); ([0; 0], 0%nat)] _
           (mkWorld [[0; 0]] tape_first_only)).
  - unfold legal_MS. simpl. repeat constructor; simpl; lia.
  - repeat constructor.
  - vm_compute. reflexivity.
Defined.

(** ** Elitism *)

Lemma with_keys_keys {A} (key : A -> res Z) (l : list A) (kl : list (Z * A)) :
  with_keys key l = Ok kl ->
  Forall (fun kx => key kx.2 = Ok kx.1) kl /\ map snd kl = l.
Proof.
  revert kl. induction l as [|x l IH]; intros kl; simpl.
  - intros [= <-]. split; [constructor|reflexivity].
  - destruct (key x) as [k|] eqn:Hk; [|discriminate]. simpl.
    destruct (with_keys key l) as [r|]; [|discriminate]. simpl.
    intros [= <-]. destruct (IH r eq_refl) as [Hall Hm].
    split; [constructor; [exact Hk|exact Hall]|]. simpl. congruence.
Qed.

Lemma insert_key_ascending {A} (k : Z) (x : A) (l : list (Z * A)) :
  ascending_keys l -> ascending_keys (insert_key k x l).
Proof.
  induction l as [|[k' y] l IH]; simpl; [intros _; split; [constructor|exact I]|].
  intros [Hhead Htail]. destruct (Z.leb_spec k k').
  - simpl. split; [|split; assumption].
    constructor; [simpl; lia|].
    eapply Forall_impl; [exact Hhead|]. simpl. intros; lia.
  - simpl. split; [|apply IH, Htail].
    rewrite insert_key_perm. constructor; [simpl; lia|exact Hhead].
Qed.

Lemma sort_keyed_ascending {A} (l : list (Z * A)) :
  ascending_keys (sort_keyed l).
Proof.
  induction l as [|[k x] l IH]; [exact I|].
  unfold sort_keyed in *. simpl. apply insert_key_ascending, IH.
Qed.

Lemma ascending_take_drop {A} (l : list (Z * A)) :
  ascending_keys l ->
  forall (n : nat) (a b : Z * A), a ∈ take n l -> b ∈ drop n l -> a.1 <= b.1.
Proof.
  induction l as [|kx l IH]; intros Hasc n a b Ha Hb.
  - rewrite take_nil in Ha. inversion Ha.
  - destruct Hasc as [Hhead Htail]. destruct n as [|n]; [inversion Ha|].
    simpl in Ha, Hb. apply elem_of_cons in Ha as [->|Ha].
    + rewrite Forall_forall in Hhead. apply Hhead.
      eapply (subseteq_drop n), Hb.
    + exact (IH Htail n a b Ha Hb).
Qed.

Lemma ascending_head {A} (kx : Z * A) (l : list (Z * A)) :
  ascending_keys (kx :: l) -> forall b, b ∈ kx :: l -> kx.1 <= b.1.
Proof.
  intros [Hhead _] b Hb. apply elem_of_cons in Hb as [->|Hb]; [lia|].
  rewrite Forall_forall in Hhead. apply Hhead, Hb.
Qed.

Lemma elem_of_map_snd {A} (c : A) (l : list (Z * A)) :
  c ∈ map snd l -> exists k, (k, c) ∈ l.
Proof.
  induction l as [|[k y] l IH]; simpl; intros H; [inversion H|].
  apply elem_of_cons in H as [->|H].
  - exists k. left.
  - destruct (IH H) as [k' Hk']. exists k'. right. exact Hk'.
Qed.

Lemma elitistSelection_spec (pr : Q) (population : list chromosome)
    (parameters : Instance) :
  Forall (fun c => exists t, timeTaken parameters c = Ok t) population ->
  0 <= py_int (pr * inject_Z (len population)) ->
  exists kept rest,
    elitistSelection pr population parameters = Ok kept /\
    Permutation (kept ++ rest) population /\
    length kept
      = Nat.min (Z.to_nat (py_int (pr * inject_Z (len population))))
                (length population) /\
    (forall c c' t t', c ∈ kept -> c' ∈ rest ->
       timeTaken parameters c = Ok t -> timeTaken parameters c' = Ok t' ->
       t <= t') /\
    (forall c0 c t0 t, head kept = Some c0 -> c ∈ population ->
       timeTaken parameters c0 = Ok t0 -> timeTaken parameters c = Ok t ->
       t0 <= t).
Proof.
  intros Hall Hk. unfold elitistSelection, sorted_by.
  destruct (with_keys_ok _ _ Hall) as (kl & Hkl & Hm).
  rewrite Hkl. simpl.
  destruct (with_keys_keys _ _ _ Hkl) as [Hkeys _].
  set (k := py_int (pr * inject_Z (len population))) in *.
  set (s := sort_keyed kl).
  assert (Hperm : Permutation s kl) by apply sort_keyed_perm.
  assert (Hasc : ascending_keys s) by apply sort_keyed_ascending.
  assert (Hskeys : Forall (fun kx => timeTaken parameters kx.2 = Ok kx.1) s)
    by (rewrite Hperm; exact Hkeys).
  rewrite Forall_forall in Hskeys.
  unfold slice_to. destruct (Z.leb_spec 0 k); [|lia].
  exists (map snd (take (Z.to_nat k) s)), (map snd (drop (Z.to_nat k) s)).
  split; [rewrite firstn_map; reflexivity|]. split; [|split; [|split]].
  - rewrite <- map_app, take_drop, <- Hm. apply Permutation_map, Hperm.
  - rewrite length_map, length_take, (Permutation_length Hperm), <- Hm,
      length_map. reflexivity.
  - intros c c' t t' Hc Hc' Ht Ht'.
    apply elem_of_map_snd in Hc as [kc Hc], Hc' as [kc' Hc'].
    pose proof (Hskeys _ (subseteq_take _ _ _ Hc)) as E. simpl in E.
    pose proof (Hskeys _ (subseteq_drop _ _ _ Hc')) as E'. simpl in E'.
    pose proof (ascending_take_drop s Hasc _ _ _ Hc Hc') as Hle. simpl in Hle.
    congruence.
  - intros c0 c t0 t Hhead Hc Ht0 Ht.
    destruct s as [|[k0 x0] s'] eqn:Es.
    { rewrite take_nil in Hhead. discriminate. }
    destruct (Z.to_nat k) as [|n]; [discriminate|].
    simpl in Hhead. injection Hhead as ->.
    assert (Hc' : c ∈ map snd ((k0, c0) :: s')).
    { rewrite Hperm, Hm. exact Hc. }
    apply elem_of_map_snd in Hc' as [kc Hc'].
    pose proof (Hskeys _ Hc') as E. simpl in E.
    pose proof (Hskeys (k0, c0) ltac:(left)) as E0. simpl in E0.
    pose proof (ascending_head _ _ Hasc _ Hc') as Hle. simpl in Hle.
    congruence.
Qed.

Lemma ascending_keys_lookup {A} (l : list (Z * A)) :
  ascending_keys l ->
  forall (i j : nat) (a b : Z * A),
    (i < j)%nat -> l !! i = Some a -> l !! j = Some b -> a.1 <= b.1.
Proof.
  induction l as [|kx l IH]; intros Hasc i j a b Hij Ha Hb.
  - rewrite lookup_nil in Ha. discriminate.
  - destruct Hasc as [Hhead Htail]. destruct j as [|j]; [lia|].
    simpl in Hb. destruct i as [|i].
    + simpl in Ha. injection Ha as <-.
      rewrite Forall_forall in Hhead. apply Hhead.
      eapply list_elem_of_lookup_2, Hb.
    + simpl in Ha. apply (IH Htail i j a b); [lia|exact Ha|exact Hb].
Qed.

Lemma lookup_map_snd {A} (l : list (Z * A)) (i : nat) (c : A) :
  map snd l !! i = Some c -> exists k, l !! i = Some (k, c).
Proof.
  revert i. induction l as [|[k y] l IH]; intros i H.
  - destruct i; discriminate.
  - destruct i as [|i]; simpl in *.
    + injection H as <-. eauto.
    + exact (IH i H).
Qed.

Lemma elitistSelection_prefix (pr : Q) (population : list chromosome)
    (parameters : Instance) :
  Forall (fun c => exists t, timeTaken parameters c = Ok t) population ->
  exists kept rest,
    elitistSelection pr population parameters = Ok kept /\
    Permutation (kept ++ rest) population /\
    forall (i j : nat) (c c' : chromosome) (t t' : Z),
      (i < j)%nat ->
      (kept ++ rest) !! i = Some c -> (kept ++ rest) !! j = Some c' ->
      timeTaken parameters c = Ok t -> timeTaken parameters c' = Ok t' ->
      t <= t'.
Proof.
  intros Hall. unfold elitistSelection, sorted_by.
  destruct (with_keys_ok _ _ Hall) as (kl & Hkl & Hm).
  rewrite Hkl. simpl.
  destruct (with_keys_keys _ _ _ Hkl) as [Hkeys _].
  set (k := py_int (pr * inject_Z (len population))).
  set (s := sort_keyed kl).
  assert (Hperm : Permutation s kl) by apply sort_keyed_perm.
  assert (Hasc : ascending_keys s) by apply sort_keyed_ascending.
  assert (Hskeys : Forall (fun kx => timeTaken parameters kx.2 = Ok kx.1) s)
    by (rewrite Hperm; exact Hkeys).
  rewrite Forall_forall in Hskeys.
  assert (Hcut : exists n : nat, slice_to (map snd s) k = take n (map snd s)).
  { unfold slice_to. destruct (0 <=? k); eauto. }
  destruct Hcut as [n Hcut].
  exists (take n (map snd s)), (drop n (map snd s)).
  split; [rewrite Hcut; reflexivity|]. rewrite take_drop. split.
  - rewrite <- Hm. apply Permutation_map, Hperm.
  - intros i j c c' t t' Hij Hc Hc' Ht Ht'.
    apply lookup_map_snd in Hc as [kc Hc], Hc' as [kc' Hc'].
    pose proof (Hskeys _ (list_elem_of_lookup_2 _ _ _ Hc)) as E. simpl in E.
    pose proof (Hskeys _ (list_elem_of_lookup_2 _ _ _ Hc')) as E'. simpl in E'.
    pose proof (ascending_keys_lookup s Hasc i j _ _ Hij Hc Hc') as Hle.
    simpl in Hle. congruence.
Qed.

(** X18.  Whatever the share, [elitistSelection] returns a prefix of the
    population sorted by makespan: the individuals it returns, followed by
    those it leaves out, are the population in ascending order of makespan.
    So those returned come best first, and none left out has a smaller
    makespan than one returned. *)
Theorem elitistSelection_sorted_prefix
    (pr : Q) (population : list chromosome) (parameters : Instance) :
  Forall (fun c => exists t, timeTaken parameters c = Ok t) population ->
  exists kept rest,
    elitistSelection pr population parameters = Ok kept /\
    Permutation (kept ++ rest) population /\
    forall (i j : nat) (c c' : chromosome) (t t' : Z),
      (i < j)%nat ->
      (kept ++ rest) !! i = Some c -> (kept ++ rest) !! j = Some c' ->
      timeTaken parameters c = Ok t -> timeTaken parameters c' = Ok t' ->
      t <= t'.
Proof. apply elitistSelection_prefix. Qed.

Lemma elitistSelection_sorted_prefix_witness :
  exists kept rest,
    elitistSelection (1 # 2)
      [([0; 0; 1], [0; 0; 0]); ([0; 1; 0], [0; 0; 0]); ([1; 0; 0], [0; 0; 0])]
      inst_gap = Ok kept /\
    Permutation (kept ++ rest)
      [([0; 0; 1], [0; 0; 0]); ([0; 1; 0], [0; 0; 0]); ([1; 0; 0], [0; 0; 0])] /\
    forall (i j : nat) (c c' : chromosome) (t t' : Z),
      (i < j)%nat ->
      (kept ++ rest) !! i = Some c -> (kept ++ rest) !! j = Some c' ->
      timeTaken inst_gap c = Ok t -> timeTaken inst_gap c' = Ok t' ->
      t <= t'.
Proof.
  apply (elitistSelection_sorted_prefix (1 # 2)
           [([0; 0; 1], [0; 0; 0]); ([0; 1; 0], [0; 0; 0]); ([1; 0; 0], [0; 0; 0])]
           inst_gap).
  repeat constructor; eexists; vm_compute; reflexivity.
Defined.

Lemma selection_loop_prefix (population : list chromosome)
    (parameters : Instance) (fuel : nat) :
  forall (newPop r : list chromosome) (w w' : world),
  selection_loop fuel newPop population parameters w = Some (Ok (r, w')) ->
  exists extra, r = newPop ++ extra.
Proof.
  induction fuel as [|fuel IH]; intros newPop r w w'; simpl;
    destruct (len newPop <? len population); try discriminate;
    try (intros [= <- <-]; exists []; rewrite app_nil_r; reflexivity).
  destruct (tournamentSelection population parameters w) as [[c w1]|];
    [|discriminate].
  intros H. apply IH in H as [extra ->].
  exists (c :: extra). rewrite <- app_assoc. reflexivity.
Qed.

(** X19.  When the elitist share [int(pr * N)] is at least one, the
    population that [selection] returns starts with an individual of the
    given population whose makespan no individual of the given population
    beats: the best makespan does not get worse through selection. *)
Theorem selection_keeps_a_best
    (pr : Q) (population : list chromosome) (parameters : Instance)
    (w : world) (fuel : nat) :
  Forall (fun c => exists t, timeTaken parameters c = Ok t) population ->
  1 <= py_int (pr * inject_Z (len population)) ->
  (length population <= fuel)%nat ->
  exists newPop w' best T,
    selection fuel pr population parameters w = Some (Ok (newPop, w')) /\
    head newPop = Some best /\ best ∈ population /\
    timeTaken parameters best = Ok T /\
    forall c t, c ∈ population -> timeTaken parameters c = Ok t -> T <= t.
Proof.
  intros Hall Hk Hfuel.
  destruct (elitistSelection_spec pr population parameters Hall ltac:(lia))
    as (kept & rest & He & Hperm & Hlen & _ & Hhead).
  assert (Hpop : population <> []).
  { intros ->. revert Hk. destruct pr as [n d].
    unfold py_int, len, Qle_bool, Qfloor, Qceiling, Qfloor, Qopp, Qmult, inject_Z.
    simpl. rewrite Z.mul_0_r. simpl. rewrite Z.div_0_l by lia. lia. }
  destruct kept as [|best kept'].
  { simpl in Hlen. destruct population; [congruence|]. simpl in Hlen. lia. }
  assert (Hin : best ∈ population).
  { rewrite <- Hperm. left. }
  rewrite Forall_forall in Hall. destruct (Hall _ Hin) as [T HT].
  rewrite <- Forall_forall in Hall.
  destruct (selection_loop_ok population parameters fuel (best :: kept') w Hall)
    as (r & w' & Hr & Hl & _).
  { rewrite Hlen. lia. }
  { lia. }
  destruct (selection_loop_prefix _ _ _ _ _ _ _ Hr) as [extra ->].
  exists ((best :: kept') ++ extra), w', best, T.
  split.
  { unfold selection, thenF, liftM, lift. rewrite He. exact Hr. }
  split; [reflexivity|]. split; [exact Hin|]. split; [exact HT|].
  intros c t Hc Ht. exact (Hhead best c T t eq_refl Hc HT Ht).
Qed.

Lemma selection_keeps_a_best_witness :
  exists newPop w' best T,
    selection 3 (1 # 2)
      [([0; 0; 1], [0; 0; 0]); ([0; 1; 0], [0; 0; 0]); ([1; 0; 0], [0; 0; 0])]
      inst_gap (mkWorld [] (fun n => Z.of_nat n)) = Some (Ok (newPop, w')) /\
    head newPop = Some best /\
    best ∈ [([0; 0; 1], [0; 0; 0]); ([0; 1; 0], [0; 0; 0]); ([1; 0; 0], [0; 0; 0])] /\
    timeTaken inst_gap best = Ok T /\
    forall c t,
      c ∈ [([0; 0; 1], [0; 0; 0]); ([0; 1; 0], [0; 0; 0]); ([1; 0; 0], [0; 0; 0])] ->
      timeTaken inst_gap c = Ok t -> T <= t.
Proof.
  apply (selection_keeps_a_best (1 # 2)
           [([0; 0; 1], [0; 0; 0]); ([0; 1; 0], [0; 0; 0]); ([1; 0; 0], [0; 0; 0])]
           inst_gap (mkWorld [] (fun n => Z.of_nat n)) 3).
  - repeat constructor; eexists; vm_compute; reflexivity.
  - vm_compute. discriminate.
  - simpl. lia.
Defined.

(** ** The Q-table *)

Lemma initialize_Q_table_shape (N : Z) : table_shape N (initialize_Q_table N).
Proof.
  unfold table_shape, initialize_Q_table. split.
  - apply length_replicate.
  - apply Forall_replicate. reflexivity.
Qed.

Lemma table_row (N : Z) (Qt : qtable) (s : Z) :
  table_shape N Qt -> 0 <= s < N ->
  exists a b, Qt !! Z.to_nat s = Some [a; b].
Proof.
  intros [Hlen Hrows] Hs.
  destruct (lookup_lt_is_Some_2 Qt (Z.to_nat s)) as [row Hrow]; [lia|].
  rewrite Forall_forall in Hrows.
  pose proof (Hrows row (list_elem_of_lookup_2 _ _ _ Hrow)) as Hl.
  destruct row as [|a [|b [|c row]]]; try discriminate. eauto.
Qed.

Lemma table_getitem (N : Z) (Qt : qtable) (s : Z) (row : list Q) :
  table_shape N Qt -> 0 <= s < N -> Qt !! Z.to_nat s = Some row ->
  getitem Qt s = Ok row.
Proof.
  intros [Hlen _] Hs Hrow. apply getitem_lookup; [lia|exact Hrow].
Qed.

Lemma set_entry_spec (N : Z) (Qt : qtable) (s a : Z) (x : Q) (row : list Q) :
  table_shape N Qt -> 0 <= s < N -> 0 <= a < 2 ->
  Qt !! Z.to_nat s = Some row ->
  set_entry Qt s a x
    = Ok (<[Z.to_nat s := <[Z.to_nat a := x]> row]> Qt) /\
  table_shape N (<[Z.to_nat s := <[Z.to_nat a := x]> row]> Qt).
Proof.
  intros Hshape Hs Ha Hrow. pose proof Hshape as [Hlen Hrows].
  assert (Hl : length row = 2%nat).
  { rewrite Forall_forall in Hrows.
    exact (Hrows row (list_elem_of_lookup_2 _ _ _ Hrow)). }
  split.
  - unfold set_entry. rewrite (table_getitem N Qt s row) by assumption.
    simpl. rewrite setitem_insert by lia. simpl.
    apply setitem_insert. lia.
  - split; [rewrite length_insert; exact Hlen|].
    apply Forall_insert; [exact Hrows|]. rewrite length_insert. exact Hl.
Qed.

Lemma update_Q_sarsa_spec (N : Z) (Qt : qtable) (s a s' a' : Z)
    (reward alpha gamma : Q) :
  table_shape N Qt -> 0 <= s < N -> 0 <= a < 2 -> 0 <= s' < N -> 0 <= a' < 2 ->
  exists row q nq,
    Qt !! Z.to_nat s = Some row /\ entry Qt s a = Some q /\
    entry Qt s' a' = Some nq /\
    update_Q_sarsa Qt s a reward s' a' alpha gamma
      = Ok (<[Z.to_nat s :=
                <[Z.to_nat a := td_value alpha gamma q reward nq]> row]> Qt).
Proof.
  intros Hshape Hs Ha Hs' Ha'.
  destruct (table_row N Qt s Hshape Hs) as (x0 & x1 & Hrow).
  destruct (table_row N Qt s' Hshape Hs') as (y0 & y1 & Hrow').
  destruct (lookup_lt_is_Some_2 [x0; x1] (Z.to_nat a)) as [q Hq]; [simpl; lia|].
  destruct (lookup_lt_is_Some_2 [y0; y1] (Z.to_nat a')) as [nq Hnq]; [simpl; lia|].
  exists [x0; x1], q, nq. unfold entry. rewrite Hrow, Hrow'.
  split; [reflexivity|]. split; [exact Hq|]. split; [exact Hnq|].
  unfold update_Q_sarsa.
  rewrite (table_getitem N Qt s _ Hshape Hs Hrow). cbn [bind].
  rewrite (getitem_lookup _ a q) by (simpl; lia || exact Hq). cbn [bind].
  rewrite (table_getitem N Qt s' _ Hshape Hs' Hrow'). cbn [bind].
  rewrite (getitem_lookup _ a' nq) by (simpl; lia || exact Hnq). cbn [bind].
  apply (set_entry_spec N); assumption.
Qed.

Lemma update_Q_qlearning_spec (N : Z) (Qt : qtable) (s a s' : Z)
    (reward alpha gamma : Q) :
  table_shape N Qt -> 0 <= s < N -> 0 <= a < 2 -> 0 <= s' < N ->
  exists row q y0 y1,
    Qt !! Z.to_nat s = Some row /\ entry Qt s a = Some q /\
    Qt !! Z.to_nat s' = Some [y0; y1] /\
    update_Q_qlearning Qt s a reward s' alpha gamma
      = Ok (<[Z.to_nat s :=
                <[Z.to_nat a :=
                    td_value alpha gamma q reward
                      (if Qlt_le_dec y0 y1 then y1 else y0)]> row]> Qt).
Proof.
  intros Hshape Hs Ha Hs'.
  destruct (table_row N Qt s Hshape Hs) as (x0 & x1 & Hrow).
  destruct (table_row N Qt s' Hshape Hs') as (y0 & y1 & Hrow').
  destruct (lookup_lt_is_Some_2 [x0; x1] (Z.to_nat a)) as [q Hq]; [simpl; lia|].
  exists [x0; x1], q, y0, y1. unfold entry. rewrite Hrow.
  split; [reflexivity|]. split; [exact Hq|]. split; [exact Hrow'|].
  unfold update_Q_qlearning.
  rewrite (table_getitem N Qt s' _ Hshape Hs' Hrow'). cbn [bind max_row foldl].
  rewrite (table_getitem N Qt s _ Hshape Hs Hrow). cbn [bind].
  rewrite (getitem_lookup _ a q) by (simpl; lia || exact Hq). cbn [bind].
  apply (set_entry_spec N); assumption.
Qed.

Lemma entry_insert_other (Qt : qtable) (s a : nat) (row : list Q) (x : Q)
    (i j : Z) :
  Qt !! s = Some row -> 0 <= i -> 0 <= j ->
  (Z.to_nat i <> s \/ Z.to_nat j <> a) ->
  entry (<[s := <[a := x]> row]> Qt) i j = entry Qt i j.
Proof.
  intros Hrow Hi Hj Hneq. unfold entry.
  destruct (decide (Z.to_nat i = s)) as [Hs|Hne].
  - rewrite Hs. rewrite list_lookup_insert_eq by (eapply lookup_lt_Some, Hrow).
    rewrite Hrow. simpl. apply list_lookup_insert_ne.
    intros Heq. destruct Hneq; congruence.
  - rewrite list_lookup_insert_ne by congruence. reflexivity.
Qed.

Lemma generation_spec (N : Z) (alpha gamma : Q) (oc : outcome) (s : rl_state) :
  0 < N -> table_shape N (Qtab s) ->
  0 <= action oc < 2 -> 0 <= next_action oc < 2 -> best_time oc <> 0 ->
  exists s', generation N alpha gamma oc s = Ok s' /\
    table_shape N (Qtab s') /\ gen s' = gen s + 1 /\
    forall i j, 0 <= i -> 0 <= j -> (i <> gen s mod N \/ j <> action oc) ->
      entry (Qtab s') i j = entry (Qtab s) i j.
Proof.
  intros HN Hshape Ha Ha' Hb. unfold generation, py_mod, reward_of.
  destruct (Z.eqb_spec N 0); [lia|]. cbn [bind].
  destruct (Z.eqb_spec (best_time oc) 0); [contradiction|]. cbn [bind].
  pose proof (Z.mod_pos_bound (gen s) N HN) as Hs.
  pose proof (Z.mod_pos_bound (gen s + 1) N HN) as Hs'.
  assert (Hupd : exists row x,
    Qtab s !! Z.to_nat (gen s mod N) = Some row /\
    (if use_sarsa s then
       update_Q_sarsa (Qtab s) (gen s mod N) (action oc)
         (Qred (inject_Z (best_time oc - new_best_time oc) / inject_Z (best_time oc)))
         ((gen s + 1) mod N) (next_action oc) alpha gamma
     else
       update_Q_qlearning (Qtab s) (gen s mod N) (action oc)
         (Qred (inject_Z (best_time oc - new_best_time oc) / inject_Z (best_time oc)))
         ((gen s + 1) mod N) alpha gamma)
    = Ok (<[Z.to_nat (gen s mod N) := <[Z.to_nat (action oc) := x]> row]> (Qtab s))).
  { destruct (use_sarsa s).
    - destruct (update_Q_sarsa_spec N (Qtab s) (gen s mod N) (action oc)
                  ((gen s + 1) mod N) (next_action oc)
                  (Qred (inject_Z (best_time oc - new_best_time oc)
                         / inject_Z (best_time oc))) alpha gamma)
        as (row & q & nq & Hrow & _ & _ & Hu); try assumption. eauto.
    - destruct (update_Q_qlearning_spec N (Qtab s) (gen s mod N) (action oc)
                  ((gen s + 1) mod N)
                  (Qred (inject_Z (best_time oc - new_best_time oc)
                         / inject_Z (best_time oc))) alpha gamma)
        as (row & q & y0 & y1 & Hrow & _ & _ & Hu); try assumption. eauto. }
  destruct Hupd as (row & x & Hrow & Hu). rewrite Hu. cbn [bind].
  eexists. split; [reflexivity|]. cbn [Qtab gen].
  split; [|split; [reflexivity|]].
  - exact (proj2 (set_entry_spec N (Qtab s) _ _ x row Hshape Hs Ha Hrow)).
  - intros i j Hi Hj Hneq. apply entry_insert_other; try assumption. lia.
Qed.

Lemma generations_spec (N : Z) (alpha gamma : Q) (ocs : list outcome) :
  0 < N ->
  Forall (fun oc => 0 <= action oc < 2 /\ 0 <= next_action oc < 2 /\
                    best_time oc <> 0) ocs ->
  forall s, table_shape N (Qtab s) ->
  exists s', generations N alpha gamma ocs s = Ok s' /\
    table_shape N (Qtab s') /\ gen s' = gen s + len ocs.
Proof.
  intros HN. induction 1 as [|oc ocs (Ha & Ha' & Hb) _ IH]; intros s Hshape.
  - exists s. unfold len. simpl. split; [reflexivity|]. split; [exact Hshape|lia].
  - destruct (generation_spec N alpha gamma oc s HN Hshape Ha Ha' Hb)
      as (s1 & Hg & Hshape1 & Hgen1 & _).
    destruct (IH s1 Hshape1) as (s' & Hrun & Hshape' & Hgen').
    exists s'. simpl. rewrite Hg. cbn [bind].
    split; [exact Hrun|]. split; [exact Hshape'|].
    rewrite Hgen', Hgen1. unfold len. simpl length. lia.
Qed.

(** X20.  With a population of [N > 0] individuals, actions in [{0, 1}] and
    best makespans that are not zero, the controller never raises: after
    any number of generations from the initial state the Q-table is still
    [N] rows of two entries and the generation counter has advanced by one
    per generation. *)
Theorem generations_total
    (N : Z) (alpha gamma : Q) (ocs : list outcome) :
  0 < N ->
  Forall (fun oc => 0 <= action oc < 2 /\ 0 <= next_action oc < 2 /\
                    best_time oc <> 0) ocs ->
  exists s, generations N alpha gamma ocs (rl_init N) = Ok s /\
    table_shape N (Qtab s) /\ gen s = 1 + len ocs.
Proof.
  intros HN Hall.
  apply (generations_spec N alpha gamma ocs HN Hall (rl_init N)).
  apply initialize_Q_table_shape.
Qed.

Lemma generations_total_witness :
  exists s, generations 3 alpha0 gamma0 [oc_example; oc_example] (rl_init 3) = Ok s /\
    table_shape 3 (Qtab s) /\ gen s = 1 + len [oc_example; oc_example].
Proof.
  apply (generations_total 3 alpha0 gamma0 [oc_example; oc_example]).
  - lia.
  - repeat constructor; simpl; lia.
Defined.

Lemma entry_insert_same (Qt : qtable) (s a : Z) (row : list Q) (x : Q) :
  Qt !! Z.to_nat s = Some row -> (Z.to_nat a < length row)%nat ->
  entry (<[Z.to_nat s := <[Z.to_nat a := x]> row]> Qt) s a = Some x.
Proof.
  intros Hrow Ha. unfold entry.
  rewrite list_lookup_insert_eq by (eapply lookup_lt_Some, Hrow). simpl.
  apply list_lookup_insert_eq. exact Ha.
Qed.

Lemma generation_written (N : Z) (alpha gamma : Q) (oc : outcome) (s : rl_state) :
  0 < N -> table_shape N (Qtab s) ->
  0 <= action oc < 2 -> 0 <= next_action oc < 2 -> best_time oc <> 0 ->
  exists s' q r nq,
    generation N alpha gamma oc s = Ok s' /\
    entry (Qtab s) (gen s mod N) (action oc) = Some q /\
    reward_of (best_time oc) (new_best_time oc) = Ok r /\
    (if use_sarsa s then
       entry (Qtab s) ((gen s + 1) mod N) (next_action oc) = Some nq
     else
       exists y0 y1,
         entry (Qtab s) ((gen s + 1) mod N) 0 = Some y0 /\
         entry (Qtab s) ((gen s + 1) mod N) 1 = Some y1 /\
         (nq = y0 \/ nq = y1) /\ (y0 <= nq)%Q /\ (y1 <= nq)%Q) /\
    entry (Qtab s') (gen s mod N) (action oc)
      = Some (td_value alpha gamma q r nq) /\
    forall i j, 0 <= i -> 0 <= j -> (i <> gen s mod N \/ j <> action oc) ->
      entry (Qtab s') i j = entry (Qtab s) i j.
Proof.
  intros HN Hshape Ha Ha' Hb. unfold generation, py_mod, reward_of.
  destruct (Z.eqb_spec N 0); [lia|]. cbn [bind].
  destruct (Z.eqb_spec (best_time oc) 0); [contradiction|]. cbn [bind].
  pose proof (Z.mod_pos_bound (gen s) N HN) as Hs.
  pose proof (Z.mod_pos_bound (gen s + 1) N HN) as Hs'.
  set (r := Qred (inject_Z (best_time oc - new_best_time oc)
                  / inject_Z (best_time oc))).
  assert (Hrowlen : forall row, Qtab s !! Z.to_nat (gen s mod N) = Some row ->
                                (Z.to_nat (action oc) < length row)%nat).
  { intros row Hrow. destruct Hshape as [_ Hrows].
    rewrite Forall_forall in Hrows.
    rewrite (Hrows row (list_elem_of_lookup_2 _ _ _ Hrow)). lia. }
  destruct (use_sarsa s) eqn:Huse.
  - destruct (update_Q_sarsa_spec N (Qtab s) (gen s mod N) (action oc)
                ((gen s + 1) mod N) (next_action oc) r alpha gamma)
      as (row & q & nq & Hrow & Hq & Hnq & Hu); try assumption.
    rewrite Hu. cbn [bind].
    eexists _, q, r, nq. split; [reflexivity|]. cbn [Qtab gen].
    split; [exact Hq|]. split; [reflexivity|]. split; [exact Hnq|]. split.
    + apply entry_insert_same; [exact Hrow|exact (Hrowlen row Hrow)].
    + intros i j Hi Hj Hneq. apply entry_insert_other; try assumption. lia.
  - destruct (update_Q_qlearning_spec N (Qtab s) (gen s mod N) (action oc)
                ((gen s + 1) mod N) r alpha gamma)
      as (row & q & y0 & y1 & Hrow & Hq & Hrow' & Hu); try assumption.
    rewrite Hu. cbn [bind].
    eexists _, q, r, (if Qlt_le_dec y0 y1 then y1 else y0).
    split; [reflexivity|]. cbn [Qtab gen].
    split; [exact Hq|]. split; [reflexivity|]. split; [|split].
    + exists y0, y1. unfold entry. rewrite Hrow'.
      split; [reflexivity|]. split; [reflexivity|].
      destruct (Qlt_le_dec y0 y1) as [Hlt|Hle].
      * split; [auto|]. split; [apply Qlt_le_weak, Hlt|apply Qle_refl].
      * split; [auto|]. split; [apply Qle_refl|exact Hle].
    + apply entry_insert_same; [exact Hrow|exact (Hrowlen row Hrow)].
    + intros i j Hi Hj Hneq. apply entry_insert_other; try assumption. lia.
Qed.

(** X21.  One generation writes one entry of the Q-table: the entry at row
    [gen mod N] and column [action] becomes
    [(1 - alpha) * q + alpha * (reward + gamma * next)], where [q] is its
    old value and [next] is read from the old table at row
    [(gen + 1) mod N] (the entry of the next action under SARSA, the
    larger of the two entries under Q-learning); every other entry is what
    it was. *)
Theorem generation_writes_one_entry
    (N : Z) (alpha gamma : Q) (oc : outcome) (s : rl_state) :
  0 < N -> table_shape N (Qtab s) ->
  0 <= action oc < 2 -> 0 <= next_action oc < 2 -> best_time oc <> 0 ->
  exists s' q r nq,
    generation N alpha gamma oc s = Ok s' /\
    entry (Qtab s) (gen s mod N) (action oc) = Some q /\
    reward_of (best_time oc) (new_best_time oc) = Ok r /\
    (if use_sarsa s then
       entry (Qtab s) ((gen s + 1) mod N) (next_action oc) = Some nq
     else
       exists y0 y1,
         entry (Qtab s) ((gen s + 1) mod N) 0 = Some y0 /\
         entry (Qtab s) ((gen s + 1) mod N) 1 = Some y1 /\
         (nq = y0 \/ nq = y1) /\ (y0 <= nq)%Q /\ (y1 <= nq)%Q) /\
    entry (Qtab s') (gen s mod N) (action oc)
      = Some (td_value alpha gamma q r nq) /\
    forall i j, 0 <= i -> 0 <= j -> (i <> gen s mod N \/ j <> action oc) ->
      entry (Qtab s') i j = entry (Qtab s) i j.
Proof. apply generation_written. Qed.

Lemma generation_writes_one_entry_witness :
  exists s' q r nq,
    generation 2 alpha0 gamma0 (mkOutcome 0 2 1 0) (rl_init 2) = Ok s' /\
    entry (Qtab (rl_init 2)) (gen (rl_init 2) mod 2) 0 = Some q /\
    reward_of 2 1 = Ok r /\
    entry (Qtab (rl_init 2)) ((gen (rl_init 2) + 1) mod 2) 0 = Some nq /\
    entry (Qtab s') (gen (rl_init 2) mod 2) 0
      = Some (td_value alpha0 gamma0 q r nq) /\
    forall i j, 0 <= i -> 0 <= j ->
      (i <> gen (rl_init 2) mod 2 \/ j <> 0) ->
      entry (Qtab s') i j = entry (Qtab (rl_init 2)) i j.
Proof.
  apply (generation_writes_one_entry 2 alpha0 gamma0 (mkOutcome 0 2 1 0)
           (rl_init 2)).
  - lia.
  - apply initialize_Q_table_shape.
  - simpl. lia.
  - simpl. lia.
  - simpl. lia.
Defined.

(** X22.  For a positive best makespan [b] the reward has the sign of the
    improvement and never exceeds 1 when the new makespan is not negative:
    it is positive when the makespan went down, zero when it stayed, and
    negative when it went up. *)
Theorem reward_of_sign (b b' : Z) :
  0 < b ->
  exists r, reward_of b b' = Ok r /\
    (b' < b -> (0 < r)%Q) /\ (b' = b -> (r == 0)%Q) /\ (b < b' -> (r < 0)%Q) /\
    (0 <= b' -> (r <= 1)%Q).
Proof.
  intros Hb. unfold reward_of.
  destruct (Z.eqb_spec b 0); [lia|].
  eexists. split; [reflexivity|].
  assert (Hq : (Qred (inject_Z (b - b') / inject_Z b)
                == inject_Z (b - b') / inject_Z b)%Q) by apply Qred_correct.
  assert (Hval : (inject_Z (b - b') / inject_Z b == (b - b') # Z.to_pos b)%Q).
  { unfold Qdiv, Qinv, inject_Z, Qmult, Qeq. simpl.
    destruct b as [|p|p]; try lia. simpl. lia. }
  rewrite Hq, Hval. unfold Qlt, Qle, Qeq. simpl.
  rewrite !Z.mul_1_r. rewrite Z2Pos.id by lia.
  repeat split; intros; lia.
Qed.

Lemma reward_of_sign_witness :
  exists r, reward_of 10 7 = Ok r /\
    (7 < 10 -> (0 < r)%Q) /\ (7 = 10 -> (r == 0)%Q) /\ (10 < 7 -> (r < 0)%Q) /\
    (0 <= 7 -> (r <= 1)%Q).
Proof. apply (reward_of_sign 10 7). lia. Defined.

(** ** Loop control *)

Lemma control_step_inv (best : Z -> Z) (c : control) :
  control_inv best c -> control_inv best (control_step (best (c_gen c)) c).
Proof.
  intros (Hg & Hc & Hfirst & Hlater). unfold control_inv, control_step.
  cbn [c_gen no_improvement_count previous_best_time].
  destruct (Z.eq_dec (c_gen c) 1) as [E1|E1].
  - destruct (Hfirst E1) as [Hc0 Hp]. rewrite Hp.
    split; [lia|]. split; [lia|]. split; [lia|]. intros _.
    replace (c_gen c + 1 - 1) with (c_gen c) by lia.
    split; [reflexivity|]. split; [lia|].
    intros g Hgr. f_equal. lia.
  - destruct (Hlater ltac:(lia)) as (Hp & Hle & Hrun). rewrite Hp.
    replace (c_gen c + 1 - 1) with (c_gen c) by lia.
    destruct (Z.eqb_spec (best (c_gen c)) (best (c_gen c - 1))) as [Eb|Eb].
    + split; [lia|]. split; [lia|]. split; [lia|]. intros _.
      split; [reflexivity|]. split; [lia|].
      intros g Hgr. destruct (Z.eq_dec g (c_gen c)) as [->|Hne]; [reflexivity|].
      rewrite Eb. apply Hrun. lia.
    + split; [lia|]. split; [lia|]. split; [lia|]. intros _.
      split; [reflexivity|]. split; [lia|].
      intros g Hgr. f_equal. lia.
Qed.

Lemma control_step_count (best_time : Z) (c : control) :
  0 <= no_improvement_count c ->
  0 <= no_improvement_count (control_step best_time c)
    <= no_improvement_count c + 1.
Proof.
  intros Hc. unfold control_step. cbn [no_improvement_count].
  destruct (previous_best_time c) as [t|]; [|lia].
  destruct (best_time =? t); lia.
Qed.

Lemma control_init_inv (best : Z -> Z) : control_inv best control_init.
Proof.
  unfold control_inv, control_init. simpl.
  split; [lia|]. split; [lia|]. split; [auto|]. lia.
Qed.

Lemma control_loop_exit (maxGen mni : Z) (best : Z -> Z) (fuel : nat) :
  forall c c' : control,
  control_inv best c -> no_improvement_count c <= mni ->
  c_gen c <= maxGen + 1 ->
  control_loop fuel maxGen mni best c = Some c' ->
  control_inv best c' /\ c_gen c <= c_gen c' <= maxGen + 1 /\
  no_improvement_count c' <= mni /\
  (c_gen c' <= maxGen -> no_improvement_count c' = mni).
Proof.
  induction fuel as [|fuel IH]; intros c c' Hinv Hcnt Hgen; simpl;
    unfold shouldTerminate;
    destruct (Z.ltb_spec maxGen (c_gen c)); simpl;
    try (intros [= <-]; split; [exact Hinv|]; repeat split; lia);
    destruct (Z.ltb_spec (no_improvement_count c) mni);
    try discriminate;
    try (intros [= <-]; split; [exact Hinv|]; repeat split; lia).
  intros Hrun.
  pose proof (control_step_count (best (c_gen c)) c
                ltac:(destruct Hinv as (_ & ? & _); assumption)) as Hstep.
  apply IH in Hrun as (Hinv' & Hg' & Hrest).
  - split; [exact Hinv'|]. simpl in Hg'. split; [lia|exact Hrest].
  - apply control_step_inv, Hinv.
  - lia.
  - simpl. lia.
Qed.

(** X23.  Whenever the [while] loop of [run_genetic_algorithm] exits, it has
    run at most [maxGen] generations; and when it exits before generation
    [maxGen] is done, the best makespan found at the start of each of the
    last [max_no_improvement_generations + 1] generations was the same.
    (Whether the loop exits depends on its body as well, which may not
    return.) *)
Theorem control_loop_at_exit
    (maxGen mni : Z) (best : Z -> Z) (fuel : nat) (c : control) :
  0 <= maxGen -> 0 < mni ->
  control_loop fuel maxGen mni best control_init = Some c ->
  1 <= c_gen c <= maxGen + 1 /\
  (c_gen c <= maxGen ->
   no_improvement_count c = mni /\ mni + 2 <= c_gen c /\
   forall g, c_gen c - 1 - mni <= g <= c_gen c - 1 ->
             best g = best (c_gen c - 1)).
Proof.
  intros Hmax Hmni Hrun.
  apply control_loop_exit in Hrun as (Hinv & Hg & Hcnt & Hearly).
  - simpl in Hg. split; [lia|].
    intros Hle. specialize (Hearly Hle).
    destruct Hinv as (_ & _ & Hfirst & Hlater).
    destruct (Z.eq_dec (c_gen c) 1) as [E1|E1].
    { destruct (Hfirst E1). lia. }
    destruct (Hlater ltac:(lia)) as (_ & Hle2 & Hsame).
    split; [exact Hearly|]. split; [lia|].
    intros g Hgr. apply Hsame. lia.
  - apply control_init_inv.
  - simpl. lia.
  - simpl. lia.
Qed.

Lemma control_loop_at_exit_witness :
  exists c,
    control_loop 200 200 50 (fun _ => 7) control_init = Some c /\
    1 <= c_gen c <= 200 + 1 /\
    (c_gen c <= 200 ->
     no_improvement_count c = 50 /\ 50 + 2 <= c_gen c /\
     forall g, c_gen c - 1 - 50 <= g <= c_gen c - 1 ->
               (fun _ : Z => 7) g = (fun _ : Z => 7) (c_gen c - 1)).
Proof.
  eexists. split; [vm_compute; reflexivity|].
  apply (control_loop_at_exit 200 50 (fun _ => 7) 200); [lia|lia|].
  vm_compute. reflexivity.
Defined.




(** ** The parser *)

Lemma getitem_middle {A} (pre post : list A) (x : A) :
  getitem (pre ++ x :: post) (len pre) = Ok x.
Proof.
  apply getitem_lookup; [unfold len; lia|].
  unfold len. rewrite Nat2Z.id. apply list_lookup_middle. reflexivity.
Qed.

Lemma tokens_of_options_length (op : Operation) :
  len (tokens_of_options op) = 2 * len op.
Proof.
  unfold len, tokens_of_options. induction op as [|o op IH]; simpl; lia.
Qed.

Lemma len_app {A} (l k : list A) : len (l ++ k) = len l + len k.
Proof. unfold len. rewrite length_app. lia. Qed.

Lemma parse_options_tokens (op : Operation) :
  forall pre post : list Z,
  parse_options (length op) (pre ++ tokens_of_options op ++ post) (len pre)
  = Ok (op, len pre + 2 * len op).
Proof.
  induction op as [|[m t] op IH]; intros pre post.
  - simpl. unfold len. simpl. rewrite Z.add_0_r. reflexivity.
  - cbn [length parse_options]. unfold tokens_of_options. cbn [map concat].
    change (concat (map (fun o => [machine o; processingTime o]) op))
      with (tokens_of_options op).
    cbn [machine processingTime]. rewrite <- !app_assoc. cbn [app].
    rewrite getitem_middle. cbn [bind].
    replace (pre ++ m :: t :: tokens_of_options op ++ post)
      with ((pre ++ [m]) ++ t :: tokens_of_options op ++ post)
      by (rewrite <- app_assoc; reflexivity).
    replace (len pre + 1) with (len (pre ++ [m]))
      by (rewrite len_app; reflexivity).
    rewrite getitem_middle. cbn [bind].
    replace ((pre ++ [m]) ++ t :: tokens_of_options op ++ post)
      with ((pre ++ [m; t]) ++ tokens_of_options op ++ post)
      by (rewrite <- !app_assoc; reflexivity).
    replace (len pre + 2) with (len (pre ++ [m; t]))
      by (rewrite !len_app; unfold len; simpl; lia).
    rewrite IH. cbn [bind fst snd]. f_equal. f_equal.
    rewrite !len_app. unfold len. simpl. lia.
Qed.

Lemma parse_operations_tokens (ops : list Operation) :
  forall (pre : list Z) (fuel : nat),
  (length ops <= fuel)%nat ->
  parse_operations fuel (pre ++ concat (map tokens_of_operation ops)) (len pre)
  = Some (Ok ops).
Proof.
  induction ops as [|op ops IH]; intros pre fuel Hfuel.
  - simpl. rewrite app_nil_r.
    destruct fuel; simpl; rewrite Z.ltb_irrefl; reflexivity.
  - destruct fuel as [|fuel]; [simpl in Hfuel; lia|].
    cbn [map concat parse_operations]. change (tokens_of_operation op) with (len op :: tokens_of_options op).
    cbn [app].
    destruct (Z.ltb_spec (len pre)
                (len (pre ++ len op :: tokens_of_options op
                        ++ concat (map tokens_of_operation ops)))) as [_|Hge].
    2:{ rewrite len_app in Hge. unfold len in Hge. simpl in Hge. lia. }
    rewrite getitem_middle.
    replace (pre ++ len op :: tokens_of_options op
               ++ concat (map tokens_of_operation ops))
      with ((pre ++ [len op]) ++ tokens_of_options op
               ++ concat (map tokens_of_operation ops))
      by (rewrite <- app_assoc; reflexivity).
    replace (len pre + 1) with (len (pre ++ [len op]))
      by (rewrite len_app; reflexivity).
    replace (Z.to_nat (len op)) with (length op) by (unfold len; lia).
    rewrite parse_options_tokens.
    replace (len (pre ++ [len op]) + 2 * len op)
      with (len ((pre ++ [len op]) ++ tokens_of_options op))
      by (rewrite (len_app _ (tokens_of_options op)), tokens_of_options_length;
          reflexivity).
    rewrite app_assoc. rewrite IH by (simpl in Hfuel; lia). reflexivity.
Qed.

Lemma parse_operations_line (first : Z) (job : Job) (fuel : nat) :
  (length job <= fuel)%nat ->
  parse_operations fuel (line_of_job first job) 1 = Some (Ok job).
Proof.
  intros Hfuel. unfold line_of_job.
  exact (parse_operations_tokens job [first] fuel Hfuel).
Qed.

Lemma parse_operations_eof (fuel : nat) :
  parse_operations fuel [] 1 = Some (Ok []).
Proof. destruct fuel; reflexivity. Qed.

Lemma parse_jobs_lines (fuel : nat) (n : nat) :
  forall (lines : list (list Z)) (js : list Job),
  Forall2 (fun line job => exists first, line = line_of_job first job) lines js ->
  Forall (fun job : Job => (length job <= fuel)%nat) js ->
  parse_jobs fuel n lines
  = Some (Ok (take n js ++ replicate (n - length js) [])).
Proof.
  induction n as [|n IH]; intros lines js Hlines Hfuel; [reflexivity|].
  destruct Hlines as [|line job lines js [first ->] Hlines].
  - cbn [parse_jobs readline]. rewrite parse_operations_eof.
    rewrite (IH [] []) by constructor.
    rewrite !take_nil. simpl. rewrite Nat.sub_0_r. reflexivity.
  - apply Forall_cons in Hfuel as [Hjob Hfuel].
    cbn [parse_jobs readline]. rewrite parse_operations_line by exact Hjob.
    rewrite (IH lines js Hlines Hfuel). reflexivity.
Qed.

Lemma parse_lines (fuel : nat) (n m : Z) (extra : list Z)
    (lines : list (list Z)) (js : list Job) :
  Forall2 (fun line job => exists first, line = line_of_job first job) lines js ->
  Forall (fun job : Job => (length job <= fuel)%nat) js ->
  parse fuel ((n :: m :: extra) :: lines)
  = Some (Ok (mkInstance m (take (Z.to_nat n) js
                              ++ replicate (Z.to_nat n - length js) []))).
Proof.
  intros Hlines Hfuel. unfold parse. cbn [readline].
  change (slice (n :: m :: extra) 0 2) with [n; m].
  change (getitem [n; m] 0) with (Ok (A := Z) n).
  change (getitem [n; m] 1) with (Ok (A := Z) m). cbv beta iota.
  rewrite (parse_jobs_lines fuel _ lines js Hlines Hfuel). reflexivity.
Qed.

(** X25.  Parsing the file of an instance gives the instance back, whatever
    else stands on the first line after the two counts. *)
Theorem parse_round_trip
    (pb_instance : Instance) (extra : list Z) (fuel : nat) :
  Forall (fun job : Job => (length job <= fuel)%nat) (jobs pb_instance) ->
  parse fuel (file_of pb_instance extra) = Some (Ok pb_instance).
Proof.
  intros Hfuel. unfold file_of.
  rewrite (parse_lines fuel _ _ extra _ (jobs pb_instance)); [|
    |exact Hfuel].
  - unfold len. rewrite Nat2Z.id, Nat.sub_diag, firstn_all. simpl.
    rewrite app_nil_r. destruct pb_instance. reflexivity.
  - clear. induction (jobs pb_instance) as [|job js IH]; constructor;
      [eauto|exact IH].
Qed.

Lemma parse_round_trip_witness :
  parse 2 (file_of inst_gap [1]) = Some (Ok inst_gap).
Proof.
  apply (parse_round_trip inst_gap [1] 2). repeat constructor.
Defined.

(** X26.  The parser trusts the announced number of jobs and nothing else:
    job lines beyond it are not read, job lines that are missing give
    jobs without operations, and the first token of a job line is never
    looked at. *)
Theorem parse_announced_count
    (fuel : nat) (n m : Z) (extra : list Z)
    (lines : list (list Z)) (js : list Job) :
  Forall2 (fun line job => exists first, line = line_of_job first job) lines js ->
  Forall (fun job : Job => (length job <= fuel)%nat) js ->
  parse fuel ((n :: m :: extra) :: lines)
  = Some (Ok (mkInstance m (take (Z.to_nat n) js
                              ++ replicate (Z.to_nat n - length js) []))).
Proof. apply parse_lines. Qed.

Lemma parse_announced_count_witness :
  parse 1 [[3; 1]; [7; 1; 1; 5]; [0; 1; 1; 3]]
  = Some (Ok (mkInstance 1
                (take (Z.to_nat 3) [[[mkOption 1 5]]; [[mkOption 1 3]]]
                 ++ replicate (Z.to_nat 3 - 2) []))).
Proof.
  apply (parse_announced_count 1 3 1 [] [[7; 1; 1; 5]; [0; 1; 1; 3]]
           [[[mkOption 1 5]]; [[mkOption 1 3]]]).
  - repeat constructor; eexists; reflexivity.
  - repeat constructor.
Defined.

Lemma parse_options_short (k : nat) :
  forall (values : list Z) (j : Z),
  (0 < k)%nat -> len values < j + 2 * Z.of_nat k ->
  parse_options k values j = Raise IndexError.
Proof.
  induction k as [|k IH]; intros values j Hk Hshort; [lia|].
  cbn [parse_options].
  destruct (getitem values j) as [m|e] eqn:Em.
  2:{ apply getitem_raise in Em as ->. reflexivity. }
  cbn [bind].
  destruct (getitem values (j + 1)) as [t|e] eqn:Et.
  2:{ apply getitem_raise in Et as ->. reflexivity. }
  cbn [bind].
  destruct k as [|k'].
  - destruct (Z_le_gt_dec (len values) (j + 1)) as [Hle|Hgt].
    + rewrite getitem_beyond in Et by exact Hle. discriminate.
    + lia.
  - rewrite IH by lia. reflexivity.
Qed.

Lemma parse_operations_short (ops : list Operation) (k : Z) (toks : list Z) :
  forall (pre : list Z) (fuel : nat),
  (length ops < fuel)%nat -> len toks < 2 * k ->
  parse_operations fuel
    (pre ++ concat (map tokens_of_operation ops) ++ k :: toks) (len pre)
  = Some (Raise IndexError).
Proof.
  intros pre fuel. revert pre fuel.
  induction ops as [|op ops IH]; intros pre fuel Hfuel Hshort.
  - destruct fuel as [|fuel]; [lia|]. cbn [map concat app parse_operations].
    destruct (Z.ltb_spec (len pre) (len (pre ++ k :: toks))) as [_|Hge].
    2:{ rewrite len_app in Hge. unfold len in Hge. simpl in Hge. lia. }
    rewrite getitem_middle.
    rewrite parse_options_short; [reflexivity|unfold len in Hshort; lia|].
    rewrite len_app. unfold len in *. simpl length. lia.
  - destruct fuel as [|fuel]; [simpl in Hfuel; lia|].
    cbn [map concat parse_operations]. change (tokens_of_operation op) with (len op :: tokens_of_options op).
    cbn [app]. rewrite <- !app_assoc.
    destruct (Z.ltb_spec (len pre)
                (len (pre ++ len op :: tokens_of_options op
                        ++ concat (map tokens_of_operation ops) ++ k :: toks)))
      as [_|Hge].
    2:{ rewrite len_app in Hge. unfold len in Hge. simpl in Hge. lia. }
    rewrite getitem_middle.
    replace (pre ++ len op :: tokens_of_options op
               ++ concat (map tokens_of_operation ops) ++ k :: toks)
      with ((pre ++ [len op]) ++ tokens_of_options op
               ++ concat (map tokens_of_operation ops) ++ k :: toks)
      by (rewrite <- app_assoc; reflexivity).
    replace (len pre + 1) with (len (pre ++ [len op]))
      by (rewrite len_app; reflexivity).
    replace (Z.to_nat (len op)) with (length op) by (unfold len; lia).
    rewrite parse_options_tokens.
    replace (len (pre ++ [len op]) + 2 * len op)
      with (len ((pre ++ [len op]) ++ tokens_of_options op))
      by (rewrite (len_app _ (tokens_of_options op)), tokens_of_options_length;
          reflexivity).
    rewrite app_assoc. rewrite IH by (simpl in Hfuel; lia || exact Hshort).
    reflexivity.
Qed.

Lemma parse_jobs_short (fuel : nat) (bad : list Z) (rest : list (list Z)) :
  parse_operations fuel bad 1 = Some (Raise IndexError) ->
  forall (n : nat) (lines : list (list Z)) (js : list Job),
  Forall2 (fun line job => exists first, line = line_of_job first job) lines js ->
  Forall (fun job : Job => (length job <= fuel)%nat) js ->
  (length js < n)%nat ->
  parse_jobs fuel n (lines ++ bad :: rest) = Some (Raise IndexError).
Proof.
  intros Hbad. induction n as [|n IH]; intros lines js Hlines Hfuel Hn; [lia|].
  destruct Hlines as [|line job lines js [first ->] Hlines].
  - cbn [app parse_jobs readline]. rewrite Hbad. reflexivity.
  - apply Forall_cons in Hfuel as [Hjob Hfuel].
    cbn [app parse_jobs readline]. rewrite parse_operations_line by exact Hjob.
    rewrite (IH lines js Hlines Hfuel) by (simpl in Hn; lia). reflexivity.
Qed.

(** X27.  A job line that ends inside an operation (fewer tokens than the
    announced number of options needs) makes the parser raise [IndexError],
    provided the line is among the announced jobs and the lines before it
    are complete. *)
Theorem parse_truncated_line
    (fuel : nat) (n m : Z) (extra : list Z)
    (lines rest : list (list Z)) (js : list Job)
    (first : Z) (job : Job) (k : Z) (toks : list Z) :
  Forall2 (fun line job => exists first, line = line_of_job first job) lines js ->
  Forall (fun job : Job => (length job <= fuel)%nat) js ->
  (length job < fuel)%nat ->
  Z.of_nat (length js) < n ->
  len toks < 2 * k ->
  parse fuel ((n :: m :: extra)
                :: lines ++ (line_of_job first job ++ k :: toks) :: rest)
  = Some (Raise IndexError).
Proof.
  intros Hlines Hfuel Hjob Hn Hshort. unfold parse. cbn [readline].
  change (slice (n :: m :: extra) 0 2) with [n; m].
  change (getitem [n; m] 0) with (Ok (A := Z) n).
  change (getitem [n; m] 1) with (Ok (A := Z) m). cbv beta iota.
  rewrite (parse_jobs_short fuel _ rest) with (js := js);
    [reflexivity| |exact Hlines|exact Hfuel|lia].
  unfold line_of_job. cbn [app].
  exact (parse_operations_short job k toks [first] fuel Hjob Hshort).
Qed.

Lemma parse_truncated_line_witness :
  parse 2 [[1; 1]; [1; 1; 1; 5; 2; 1; 3; 1]] = Some (Raise IndexError).
Proof.
  apply (parse_truncated_line 2 1 1 [] [] [] [] 1 [[mkOption 1 5]] 2 [1; 3; 1]).
  - constructor.
  - constructor.
  - simpl. lia.
  - simpl. lia.
  - unfold len. simpl. lia.
Defined.

(** ** Machine assignment *)

Lemma decode_step_assign (o : list Job) (ms_s : list (list Z)) (st st' : dstate)
    (job : Z) :
  decode_step o ms_s st job = Ok st' ->
  exists (idx c s : Z) (opt : MachineOption) (km : nat) (l : list task),
    selected_option o ms_s job idx = Ok opt /\
    py_index (length (machine_operations st)) (machine opt - 1) = Ok km /\
    machine_operations st !! km = Some l /\
    machine_operations st' =
      <[km := l ++ [mkTask (name_task job idx) (processingTime opt) c s]]>
        (machine_operations st).
Proof.
  unfold decode_step. intros H.
  destruct (getitem ms_s job) as [ms_job|] eqn:E1; cbn [bind] in H; [|discriminate].
  destruct (getitem (indexes st) job) as [idx|] eqn:E2; cbn [bind] in H;
    [|discriminate].
  destruct (getitem ms_job idx) as [im|] eqn:E3; cbn [bind] in H; [|discriminate].
  destruct (getitem o job) as [o_job|] eqn:E4; cbn [bind] in H; [|discriminate].
  destruct (getitem o_job idx) as [op|] eqn:E5; cbn [bind] in H; [|discriminate].
  destruct (getitem op im) as [opt|] eqn:E6; cbn [bind] in H; [|discriminate].
  destruct (getitem (start_task_cstr st) job) as [c|] eqn:E7; cbn [bind] in H;
    [|discriminate].
  destruct (getitem (machine_operations st) (machine opt - 1)) as [l|] eqn:E8;
    cbn [bind] in H; [|discriminate].
  destruct (find_first_available_place c (processingTime opt) l) as [[s|]|] eqn:E9;
    cbn [bind] in H; try discriminate.
  destruct (setitem (machine_operations st) (machine opt - 1) _) as [mo'|] eqn:E10;
    cbn [bind] in H; [|discriminate].
  destruct (setitem (indexes st) job (idx + 1)) as [ix'|]; cbn [bind] in H;
    [|discriminate].
  destruct (setitem (start_task_cstr st) job _) as [cs'|]; cbn [bind] in H;
    [|discriminate].
  injection H as <-. cbn [machine_operations].
  apply getitem_inv in E8 as (km & Hkm & Hl).
  apply setitem_inv in E10 as (km' & Hkm' & ->).
  assert (km' = km) as -> by congruence.
  exists idx, c, s, opt, km, l.
  split; [|auto]. unfold selected_option.
  rewrite E1. cbn [bind]. rewrite E3. cbn [bind]. rewrite E4. cbn [bind].
  rewrite E5. cbn [bind]. exact E6.
Qed.

Lemma decode_loop_assigned (o : list Job) (ms_s : list (list Z)) (os : list Z) :
  forall st st' : dstate,
  assigned o ms_s (machine_operations st) ->
  decode_loop o ms_s os st = Ok st' ->
  assigned o ms_s (machine_operations st').
Proof.
  induction os as [|job os IH]; intros st st' Hinv Hrun.
  - injection Hrun as <-. exact Hinv.
  - simpl in Hrun.
    destruct (decode_step o ms_s st job) as [st1|] eqn:Hstep; [|discriminate].
    cbn [bind] in Hrun. apply (IH st1 st'); [|exact Hrun].
    apply decode_step_assign in Hstep
      as (idx & c & s & opt & km & l & Hsel & Hkm & Hl & ->).
    intros m l' p Hm Hp. rewrite length_insert.
    destruct (decide (m = km)) as [->|Hne].
    + rewrite list_lookup_insert_eq in Hm by (eapply lookup_lt_Some, Hl).
      injection Hm as <-. apply elem_of_app in Hp as [Hp|Hp].
      * exact (Hinv km l p Hl Hp).
      * apply list_elem_of_singleton in Hp as ->.
        exists job, idx, opt. auto.
    + rewrite list_lookup_insert_ne in Hm by congruence.
      exact (Hinv m l' p Hm Hp).
Qed.

Lemma decode_assigned_lemma (pb_instance : Instance) (os ms : list Z)
    (sched : list (list task)) :
  decode pb_instance os ms = Ok sched ->
  assigned (jobs pb_instance) (split_ms pb_instance ms) sched.
Proof.
  unfold decode. intros H.
  destruct (decode_loop _ _ os _) as [st|] eqn:Hl; [|discriminate].
  injection H as <-. eapply decode_loop_assigned; [|exact Hl].
  intros m l p Hm Hp. simpl in Hm.
  apply lookup_replicate in Hm as [-> _]. inversion Hp.
Qed.

(** X28.  In a schedule that [decode] returns, every operation stands on
    the list that the machine number of its selected option subscripts
    (machine [k] on list [k - 1]; machine 0 on the last list, as a Python
    subscript of -1), and lasts the processing time of that option. *)
Theorem decode_assigns_selected_machine
    (pb_instance : Instance) (os ms : list Z) (sched : list (list task)) :
  decode pb_instance os ms = Ok sched ->
  assigned (jobs pb_instance) (split_ms pb_instance ms) sched.
Proof. apply decode_assigned_lemma. Qed.

Lemma decode_assigns_selected_machine_witness :
  exists sched, decode inst_fill [0; 1; 0] [0; 0; 0] = Ok sched /\
    assigned (jobs inst_fill) (split_ms inst_fill [0; 0; 0]) sched.
Proof.
  eexists. split; [vm_compute; reflexivity|].
  apply (decode_assigns_selected_machine inst_fill [0; 1; 0] [0; 0; 0]).
  vm_compute. reflexivity.
Defined.

(** ** The exported chart data *)

Lemma machine_key_inj (i j : nat) :
  "Machine-" +:+ pretty (Z.of_nat i + 1) = "Machine-" +:+ pretty (Z.of_nat j + 1) ->
  i = j.
Proof.
  intros H. apply (inj (String.app "Machine-")) in H.
  apply (inj pretty) in H. lia.
Qed.

(** X29.  [translate_decoded_to_gantt] gives one row per machine list under
    pairwise different keys, so no row of the dictionary overwrites
    another; the row of a machine lists its operations in placement order,
    each with its start, its end and its name. *)
Theorem translate_decoded_to_gantt_rows (machine_operations : list (list task)) :
  NoDup (translate_decoded_to_gantt machine_operations).*1 /\
  length (translate_decoded_to_gantt machine_operations)
    = length machine_operations /\
  forall (i : nat) (l : list task),
    machine_operations !! i = Some l ->
    translate_decoded_to_gantt machine_operations !! i
    = Some ("Machine-" +:+ pretty (Z.of_nat i + 1),
            map (fun p => (t_start p, t_end p, t_name p)) l).
Proof.
  unfold translate_decoded_to_gantt. split; [|split].
  - apply NoDup_alt. intros i j x Hi Hj.
    rewrite list_lookup_fmap, list_lookup_imap in Hi, Hj.
    destruct (machine_operations !! i); [|discriminate].
    destruct (machine_operations !! j); [|discriminate].
    simpl in Hi, Hj. apply machine_key_inj. congruence.
  - apply length_imap.
  - intros i l Hl. rewrite list_lookup_imap, Hl. reflexivity.
Qed.

(** ** Tournaments *)

Lemma randint_draw (n : Z) (w : world) :
  0 < n ->
  randint 0 (n - 1) w
  = Ok (tape w 0%nat mod n, mkWorld (heap w) (fun k => tape w (S k))).
Proof.
  intros Hn. unfold randint. destruct (Z.ltb_spec (n - 1) 0); [lia|].
  unfold then_, draw, pure. replace (n - 1 - 0 + 1) with n by lia.
  reflexivity.
Qed.

Lemma tournamentSelection_draws (population : list chromosome)
    (parameters : Instance) (w : world) (c1 c2 : chromosome) (t1 t2 : Z) :
  population !! Z.to_nat (tape w 0%nat mod len population) = Some c1 ->
  population !! Z.to_nat (tape w 1%nat mod len population) = Some c2 ->
  timeTaken parameters c1 = Ok t1 -> timeTaken parameters c2 = Ok t2 ->
  tournamentSelection population parameters w
  = Ok (if t2 <? t1 then c2 else c1,
        mkWorld (heap w) (fun k => tape w (S (S k)))).
Proof.
  intros Hc1 Hc2 Ht1 Ht2.
  assert (Hlen : 0 < len population).
  { apply lookup_lt_Some in Hc1. unfold len. lia. }
  pose proof (Z.mod_pos_bound (tape w 0%nat) _ Hlen) as Hi1.
  pose proof (Z.mod_pos_bound (tape w 1%nat) _ Hlen) as Hi2.
  unfold tournamentSelection.
  unfold then_ at 1. rewrite (randint_draw _ w Hlen).
  unfold then_ at 1, lift at 1.
  rewrite (getitem_lookup _ _ c1) by (lia || exact Hc1).
  unfold then_ at 1. rewrite randint_draw by exact Hlen. cbn [tape heap].
  unfold then_ at 1, lift at 1.
  rewrite (getitem_lookup _ _ c2) by (lia || exact Hc2).
  unfold then_, lift, pure. rewrite Ht1, Ht2. reflexivity.
Qed.

(** X30.  A tournament reads two draws, takes the individuals at the two
    positions drawn, and returns the one of the two with the smaller
    makespan, the first one drawn when the makespans are equal; it needs
    the makespans of these two only, and uses up exactly the two draws. *)
Theorem tournamentSelection_returns_better
    (population : list chromosome) (parameters : Instance) (w : world)
    (c1 c2 : chromosome) (t1 t2 : Z) :
  population !! Z.to_nat (tape w 0%nat mod len population) = Some c1 ->
  population !! Z.to_nat (tape w 1%nat mod len population) = Some c2 ->
  timeTaken parameters c1 = Ok t1 -> timeTaken parameters c2 = Ok t2 ->
  exists c w',
    tournamentSelection population parameters w = Ok (c, w') /\
    timeTaken parameters c = Ok (Z.min t1 t2) /\
    (t1 <= t2 -> c = c1) /\ (t2 < t1 -> c = c2) /\
    heap w' = heap w /\ forall k, tape w' k = tape w (2 + k)%nat.
Proof.
  intros Hc1 Hc2 Ht1 Ht2.
  rewrite (tournamentSelection_draws _ _ _ _ _ _ _ Hc1 Hc2 Ht1 Ht2).
  eexists _, _. split; [reflexivity|].
  destruct (Z.ltb_spec t2 t1).
  - split; [rewrite Z.min_r by lia; exact Ht2|].
    split; [lia|]. split; [reflexivity|]. split; reflexivity.
  - split; [rewrite Z.min_l by lia; exact Ht1|].
    split; [reflexivity|]. split; [lia|]. split; reflexivity.
Qed.

Lemma tournamentSelection_returns_better_witness :
  exists c w',
    tournamentSelection [([0; 1], [0; 0]); ([0; 1], [0; 1])] inst_two_jobs
      (mkWorld [] (fun n => Z.of_nat n)) = Ok (c, w') /\
    timeTaken inst_two_jobs c = Ok (Z.min 2 1) /\
    (2 <= 1 -> c = ([0; 1], [0; 0])) /\
    (1 < 2 -> c = ([0; 1], [0; 1])) /\
    heap w' = [] /\ forall k, tape w' k = Z.of_nat (2 + k).
Proof.
  apply (tournamentSelection_returns_better
           [([0; 1], [0; 0]); ([0; 1], [0; 1])] inst_two_jobs
           (mkWorld [] (fun n => Z.of_nat n))
           ([0; 1], [0; 0]) ([0; 1], [0; 1]) 2 1);
    vm_compute; reflexivity.
Defined.

(** ** The reward on a best makespan *)












(** The chart of a schedule without operations, as the driver draws it
    before its loop on an instance without operations. *)
Example chart_of_empty_instance :
  timeTaken (mkInstance 2 []) ([], []) = Ok 0 /\
  draw_chart (translate_decoded_to_gantt [[]; []]) = Raise ValueError /\
  draw_chart (translate_decoded_to_gantt
                [[mkTask "OP_1-1" 5 0 0; mkTask "OP_2-1" 3 0 5]]) = Ok 8.
Proof. repeat split; vm_compute; reflexivity. Qed.
